(** * Clustering drivers and diffusion maps of pegasus / scCloud

    A shallow embedding of

      - [src/pegasus/tools/clustering.py]  ([louvain], [leiden],
        [partition_cells_by_kmeans], [spectral_louvain], [spectral_leiden]);
      - [src/scCloud/tools/diffusion_map.py]  ([calculate_normalized_affinity],
        [calculate_diffusion_map], [diffmap], [reduce_diffmap_to_3d],
        [calc_pseudotime]).

    Conventions of the embedding.

      - float64 values are idealised as real numbers ([R]): rounding, [nan]
        and [inf] are outside the model;
      - a Python exception is a value of [exn]; a function that mutates the
        annotated-data container, or numpy buffers, is a computation of the
        state-and-exception monad [M]: an exception leaves the mutations made
        before it in place, as in Python;
      - integers that count things (cluster numbers, labels, sizes) are [nat];
        seeds are [Z];
      - the numerical libraries the code calls (scikit-learn's KMeans, PCA and
        randomized_svd, scipy's eigsh, numpy's random generator, the louvain
        and leidenalg optimisers) are parameters of the sections that use
        them; what is assumed of them is stated as a hypothesis of the
        theorem that needs it. *)

From Stdlib Require Import Reals Lra Lia List String Ascii DecimalString DecimalNat.
From stdpp Require Import gmap strings list fin_maps sorting relations.

Set Default Proof Using "Type".
Set Warnings "-clear-no-such-hyp".

(** ** Exceptions and the state-and-exception monad *)

Inductive exn : Type :=
  | ValueError (msg : string)
  | AssertionError
  | KeyError (key : string)
  | IndexError.

Inductive res (A : Type) : Type :=
  | Ok (a : A)
  | Raise (e : exn).
Arguments Ok {A} a.
Arguments Raise {A} e.

Definition is_Ok {A} (r : res A) : Prop :=
  match r with Ok _ => True | Raise _ => False end.

(** A computation over a mutable state [S]: the state that is returned is the
    one the exception handler of the caller would see. *)
Definition M (S A : Type) : Type := S → res A * S.

#[global] Instance M_ret {S} : MRet (M S) := λ A a σ, (Ok a, σ).
#[global] Instance M_bind {S} : MBind (M S) := λ A B f m σ,
  match m σ with
  | (Ok a, σ') => f a σ'
  | (Raise e, σ') => (Raise e, σ')
  end.

Definition raise {S A} (e : exn) : M S A := λ σ, (Raise e, σ).
Definition get {S} : M S S := λ σ, (Ok σ, σ).
Definition modify {S} (f : S → S) : M S unit := λ σ, (Ok tt, f σ).
Definition lift {S A} (r : res A) : M S A := λ σ, (r, σ).
(** [assert b] of Python. *)
Definition assert {S} (b : bool) : M S unit :=
  if b then mret tt else raise AssertionError.

(** Exceptions of pure code. *)
#[global] Instance res_ret : MRet res := λ A a, Ok a.
#[global] Instance res_bind : MBind res := λ A B f r,
  match r with Ok a => f a | Raise e => Raise e end.

(** ** The annotated-data container *)

Abbreviation vector := (list R).
(** A dense matrix, as the list of its rows. *)
Abbreviation matrix := (list (list R)).

(** A sparse matrix: its shape and its stored entries, the [k]-th at the
    position ([sp_row !! k], [sp_col !! k]). The values of the stored entries
    are [sp_data]: the array itself for a matrix taken as a value, the
    address of a numpy buffer for a matrix whose data are updated in place.
    (The compressed row pointers of the CSR format are a matter of layout.) *)
Record sparse (D : Type) : Type := {
  sp_nrows : nat;
  sp_ncols : nat;
  sp_row : list nat;
  sp_col : list nat;
  sp_data : D
}.
Arguments sp_nrows {D}.
Arguments sp_ncols {D}.
Arguments sp_row {D}.
Arguments sp_col {D}.
Arguments sp_data {D}.

Definition csr_matrix : Type := sparse vector.

(** [pd.Categorical]: the values, the list of categories, and the [ordered]
    flag of pandas (False unless the constructor is given [ordered=True]). *)
Record Categorical : Type := {
  cat_values : list string;
  cat_categories : list string;
  cat_ordered : bool
}.

Definition pd_Categorical (values categories : list string) : Categorical :=
  {| cat_values := values; cat_categories := categories; cat_ordered := false |}.

(** A column of [data.obs]. *)
Inductive column : Type :=
  | CategoricalColumn (c : Categorical)
  | FloatColumn (v : vector).

(** A value of [data.uns]. *)
Inductive uns_value : Type :=
  | UnsSparse (W : csr_matrix)
  | UnsStrings (l : list string)
  | UnsVector (v : vector).

Record AnnData : Type := {
  obs_names : list string;
  obs : gmap string column;
  obsm : gmap string matrix;
  uns : gmap string uns_value
}.

Definition set_obs (k : string) (c : column) (d : AnnData) : AnnData :=
  {| obs_names := obs_names d; obs := <[k := c]> (obs d);
     obsm := obsm d; uns := uns d |}.
Definition set_obsm (k : string) (x : matrix) (d : AnnData) : AnnData :=
  {| obs_names := obs_names d; obs := obs d;
     obsm := <[k := x]> (obsm d); uns := uns d |}.
Definition set_uns (k : string) (u : uns_value) (d : AnnData) : AnnData :=
  {| obs_names := obs_names d; obs := obs d;
     obsm := obsm d; uns := <[k := u]> (uns d) |}.

Definition column_length (c : column) : nat :=
  match c with
  | CategoricalColumn c => length (cat_values c)
  | FloatColumn v => length v
  end.

(** [data.obs[k] = c]: pandas refuses a column whose length is not the
    number of rows of the frame. *)
Definition assign_obs (k : string) (c : column) : M AnnData unit := λ d,
  if decide (column_length c = length (obs_names d))
  then (Ok tt, set_obs k c d)
  else (Raise (ValueError "Length of values does not match length of index"), d).

(** ** Strings: [str], [np.unique] and [natsorted] *)

(** [str(n)] for a non-negative integer: its decimal numeral. *)
Definition str (n : nat) : string := NilEmpty.string_of_uint (Nat.to_uint n).

(** [np.unique] on an array of strings: the distinct elements, in increasing
    (code point) order. *)
Definition string_le (s t : string) : Prop := String.leb s t = true.
#[global] Instance string_le_dec s t : Decision (string_le s t).
Proof. unfold string_le. apply _. Defined.

Definition np_unique (l : list string) : list string :=
  merge_sort string_le (remove_dups l).

(** The key of natsort's default algorithm (unsigned integers): the string
    is cut into maximal runs of digits, read as numbers, and maximal runs of
    other characters; a key that would start with a number gets an empty
    text in front, so that texts and numbers alternate, text first. *)
Inductive chunk : Type :=
  | Text (s : string)
  | Num (n : nat).

Definition is_digit (c : ascii) : bool :=
  (48 <=? nat_of_ascii c) && (nat_of_ascii c <=? 57).
Definition digit_val (c : ascii) : nat := nat_of_ascii c - 48.

Fixpoint natsort_split (cur : option chunk) (s : string) : list chunk :=
  match s with
  | EmptyString => match cur with None => [] | Some c => [c] end
  | String a s' =>
      if is_digit a then
        match cur with
        | Some (Num n) => natsort_split (Some (Num (10 * n + digit_val a))) s'
        | Some (Text t) => Text t :: natsort_split (Some (Num (digit_val a))) s'
        | None => natsort_split (Some (Num (digit_val a))) s'
        end
      else
        match cur with
        | Some (Text t) => natsort_split (Some (Text (t +:+ String a EmptyString))) s'
        | Some (Num n) => Num n :: natsort_split (Some (Text (String a EmptyString))) s'
        | None => natsort_split (Some (Text (String a EmptyString))) s'
        end
  end.

Definition natsort_key (s : string) : list chunk :=
  match natsort_split None s with
  | Num n :: k => Text EmptyString :: Num n :: k
  | k => k
  end.

(** Comparison of two chunks at the same position of two keys. A text never
    meets a number there (Python would raise); the order given is arbitrary. *)
Definition chunk_compare (c1 c2 : chunk) : comparison :=
  match c1, c2 with
  | Text s, Text t => String.compare s t
  | Num n, Num m => Nat.compare n m
  | Text _, Num _ => Lt
  | Num _, Text _ => Gt
  end.

(** Python's comparison of tuples. *)
Fixpoint key_compare (k1 k2 : list chunk) : comparison :=
  match k1, k2 with
  | [], [] => Eq
  | [], _ :: _ => Lt
  | _ :: _, [] => Gt
  | c1 :: k1', c2 :: k2' =>
      match chunk_compare c1 c2 with
      | Eq => key_compare k1' k2'
      | o => o
      end
  end.

Definition natsort_le (s t : string) : bool :=
  match key_compare (natsort_key s) (natsort_key t) with
  | Gt => false
  | _ => true
  end.

(** A stable sort, as Python's [sorted]: insertion from the right, an element
    going in front of the elements that are not smaller than it. *)
Fixpoint insert_by {A} (le : A → A → bool) (x : A) (l : list A) : list A :=
  match l with
  | [] => [x]
  | y :: l' => if le x y then x :: l else y :: insert_by le x l'
  end.

Definition sort_by {A} (le : A → A → bool) (l : list A) : list A :=
  foldr (insert_by le) [] l.

Definition natsorted (l : list string) : list string := sort_by natsort_le l.

(** ** [pegasus/tools/clustering.py] *)

(** The interface this file uses of the [louvain] and [leidenalg] modules.
    Both have the same shape; the calls that mutate a partition in Python
    return the new partition here. *)
Record CommunityModule (graph : Type) : Type := {
  partition : Type;
  (** [RBConfigurationVertexPartition(G, resolution_parameter=.., weights="weight",
      initial_membership=..)] *)
  RBConfigurationVertexPartition : graph → R → option (list nat) → partition;
  aggregate_partition : partition → partition;
  (** [Optimiser()], [set_rng_seed(seed)], then
      [optimise_partition(partition [, n_iterations])] *)
  optimise_partition : Z → option Z → partition → partition;
  from_coarse_partition : partition → partition → partition;
  (** [partition.membership]: the community of each vertex, from 0 *)
  membership : partition → list nat;
  (** [find_partition(G, partition_type, seed=.., weights="weight",
      resolution_parameter=.., n_iterations=..)] of leidenalg *)
  find_partition : graph → Z → R → Z → partition
}.
Arguments partition {graph}.
Arguments RBConfigurationVertexPartition {graph}.
Arguments aggregate_partition {graph}.
Arguments optimise_partition {graph}.
Arguments from_coarse_partition {graph}.
Arguments membership {graph}.
Arguments find_partition {graph}.

(** Boolean masks of numpy. *)
Definition mask_eq (coarse : list nat) (i : nat) : list bool :=
  map (λ c, bool_decide (c = i)) coarse.

Definition mask_sum (idx : list bool) : nat := length (filter (λ b, b = true) idx).

(** [X[idx, :]]: the rows whose mask is set. *)
Fixpoint masked {A} (idx : list bool) (X : list A) : list A :=
  match idx, X with
  | b :: idx', x :: X' => if b then x :: masked idx' X' else masked idx' X'
  | _, _ => []
  end.

Definition select_rows {A} (idx : list bool) (X : list A) : res (list A) :=
  if decide (length idx = length X) then Ok (masked idx X) else Raise IndexError.

(** [labels[idx] = vals], the values going, in order, to the positions whose
    mask is set. *)
Fixpoint put_masked (labels : list nat) (idx : list bool) (vals : list nat) : list nat :=
  match labels, idx with
  | l :: labels', b :: idx' =>
      if b then
        match vals with
        | v :: vals' => v :: put_masked labels' idx' vals'
        | [] => l :: put_masked labels' idx' []
        end
      else l :: put_masked labels' idx' vals
  | _, _ => labels
  end.

Definition assign_masked (labels : list nat) (idx : list bool) (vals : list nat)
  : res (list nat) :=
  if decide (length idx = length labels) then
    if decide (length vals = mask_sum idx) then Ok (put_masked labels idx vals)
    else Raise (ValueError "NumPy boolean array indexing assignment cannot assign input values to the output values where the mask is true")
  else Raise IndexError.

(** A [for] loop whose body may raise. *)
Fixpoint for_each {A St} (body : St → A → res St) (st : St) (l : list A) : res St :=
  match l with
  | [] => Ok st
  | x :: l' => st' ← body st x; for_each body st' l'
  end.

Section Clustering.
Context {graph : Type}.

(** Modelled from the spec: [pegasus.tools.construct_graph], which the file
    imports and this repository defines elsewhere: it "build[s] an
    undirected weighted graph from" the affinity matrix, which it only
    reads. *)
Variable construct_graph : csr_matrix → graph.

Variable louvain_module : CommunityModule graph.
Variable leidenalg : CommunityModule graph.

(** [joblib.effective_n_jobs]. *)
Variable effective_n_jobs : Z → Z.

(** [KMeans(n_clusters, n_jobs, n_init, random_state).fit(X).labels_]:
    one label per row of [X], or the exception scikit-learn raises. *)
Variable KMeans_fit : nat → Z → nat → Z → matrix → res (list nat).

(** Lines 80-82, 148-150, 273-275 and 372-374: the labels of a membership,
    and the column that is stored. *)
Definition labels_of (membership : list nat) : list string :=
  map (λ x, str (x + 1)) membership.

Definition store_labels (class_label : string) (membership : list nat)
  : M AnnData unit :=
  let labels := labels_of membership in
  let categories := natsorted (np_unique labels) in
  assign_obs class_label (CategoricalColumn (pd_Categorical labels categories)).

(** [data.uns[rep_key]], an affinity matrix. *)
Definition uns_matrix (key : string) : M AnnData csr_matrix := λ d,
  match uns d !! key with
  | Some (UnsSparse W) => (Ok W, d)
  | Some _ => (Raise AssertionError, d)
  | None => (Raise (KeyError key), d)
  end.

Definition louvain (rep : string) (resolution : R) (random_state : Z)
    (class_label : string) : M AnnData unit :=
  let rep_key := "W_" +:+ rep in
  data ← get;
  if decide (uns data !! rep_key = None) then
    raise (ValueError "Cannot find affinity matrix. Please run neighbors first!")
  else
    W ← uns_matrix rep_key;
    let G := construct_graph W in
    let partition :=
      RBConfigurationVertexPartition louvain_module G resolution None in
    let partition := optimise_partition louvain_module random_state None partition in
    store_labels class_label (membership louvain_module partition).

Definition leiden (rep : string) (resolution : R) (n_iter : Z) (random_state : Z)
    (class_label : string) : M AnnData unit :=
  let rep_key := "W_" +:+ rep in
  data ← get;
  if decide (uns data !! rep_key = None) then
    raise (ValueError "Cannot find affinity matrix. Please run neighbors first!")
  else
    W ← uns_matrix rep_key;
    let G := construct_graph W in
    let partition := find_partition leidenalg G random_state resolution n_iter in
    store_labels class_label (membership leidenalg partition).

(** One pass of the loop of [partition_cells_by_kmeans], for the coarse
    cluster [i]; the state is [(labels, base_sum)]. *)
Definition refine_cluster (X : matrix) (coarse : list nat) (n_jobs : Z)
    (n_clusters2 : nat) (random_state : Z) (st : list nat * nat) (i : nat)
  : res (list nat * nat) :=
  let '(labels, base_sum) := st in
  let idx := mask_eq coarse i in
  let nc := n_clusters2 `min` mask_sum idx in
  Xi ← select_rows idx X;
  fine ← KMeans_fit nc n_jobs 1 random_state Xi;
  labels ← assign_masked labels idx (map (λ l, base_sum + l) fine);
  mret (labels, base_sum + nc).

Definition partition_cells_by_kmeans (data : AnnData) (rep : string) (n_jobs : Z)
    (n_clusters n_clusters2 n_init : nat) (random_state : Z) : res (list nat) :=
  let n_jobs := effective_n_jobs n_jobs in
  let rep_key := "X_" +:+ rep in
  match obsm data !! rep_key with
  | None => Raise (KeyError rep_key)
  | Some X =>
      coarse ← KMeans_fit n_clusters n_jobs n_init random_state X;
      st ← for_each (refine_cluster X coarse n_jobs n_clusters2 random_state)
             (coarse, 0) (seq 0 n_clusters);
      mret st.1
  end.

(** Lines 247-253 and 346-352: the representation k-means runs on, and the
    two checks, in the order of the code. *)
Definition spectral_checks (rep rep_kmeans : string) : M AnnData string :=
  data ← get;
  rep_kmeans ←
    (if decide (obsm data !! ("X_" +:+ rep_kmeans) = None) then
       let rep_kmeans := "pca" in
       if decide (obsm data !! ("X_" +:+ rep_kmeans) = None) then
         raise (ValueError ("Please run " +:+ rep_kmeans +:+ " first!"))
       else mret rep_kmeans
     else mret rep_kmeans);
  if decide (uns data !! ("W_" +:+ rep) = None) then
    raise (ValueError "Cannot find affinity matrix. Please run neighbors first!")
  else mret rep_kmeans.

(** The rest of a spectral driver, from line 255 (354) on. *)
Definition spectral_body (module : CommunityModule graph) (n_iterations : option Z)
    (rep : string) (resolution : R) (rep_kmeans : string)
    (n_clusters n_clusters2 n_init : nat) (n_jobs : Z) (random_state : Z)
    (class_label : string) : M AnnData unit :=
  data ← get;
  labels ← lift (partition_cells_by_kmeans data rep_kmeans n_jobs
                   n_clusters n_clusters2 n_init random_state);
  W ← uns_matrix ("W_" +:+ rep);
  let G := construct_graph W in
  let partition := RBConfigurationVertexPartition module G resolution (Some labels) in
  let partition_agg := aggregate_partition module partition in
  let partition_agg := optimise_partition module random_state n_iterations partition_agg in
  let partition := from_coarse_partition module partition partition_agg in
  store_labels class_label (membership module partition).

(** [spectral_louvain] and [spectral_leiden] are the same code but for the
    module they call and for the number of iterations [spectral_leiden]
    gives to [optimise_partition]. *)
Definition spectral (module : CommunityModule graph) (n_iterations : option Z)
    (rep : string) (resolution : R) (rep_kmeans : string)
    (n_clusters n_clusters2 n_init : nat) (n_jobs : Z) (random_state : Z)
    (class_label : string) : M AnnData unit :=
  rep_kmeans ← spectral_checks rep rep_kmeans;
  spectral_body module n_iterations rep resolution rep_kmeans
    n_clusters n_clusters2 n_init n_jobs random_state class_label.

Definition spectral_louvain := spectral louvain_module None.
Definition spectral_leiden := spectral leidenalg (Some (-1)%Z).
End Clustering.

(** ** [scCloud/tools/diffusion_map.py] *)

Definition sum_R (l : list R) : R := foldr Rplus 0%R l.

(** *** Sparse matrices as values *)

Definition entries (W : csr_matrix) : list (nat * nat * R) :=
  zip (zip (sp_row W) (sp_col W)) (sp_data W).

(** [W[i, j]]: scipy adds up the entries stored at one position. *)
Definition entry (W : csr_matrix) (i j : nat) : R :=
  sum_R (map snd (filter (λ e, e.1 = (i, j)) (entries W))).

(** The sparsity pattern: the positions that hold a stored entry. *)
Definition stored {D} (W : sparse D) (i j : nat) : Prop :=
  (i, j) ∈ zip (sp_row W) (sp_col W).

(** [W.sum(axis=1).A1] *)
Definition row_sums (W : csr_matrix) : vector :=
  map (λ i, sum_R (map snd (filter (λ e, e.1.1 = i) (entries W))))
      (seq 0 (sp_nrows W)).

(** Row-major order of positions. *)
Definition pos_lt (p q : nat * nat) : bool :=
  (p.1 <? q.1) || ((p.1 =? q.1) && (p.2 <? q.2)).

(** The conversion of coordinate triples to CSR ([tocsr] of a COO matrix):
    the entries in row-major order, those at one position added up. *)
Fixpoint insert_entry (p : nat * nat) (x : R) (l : list (nat * nat * R))
  : list (nat * nat * R) :=
  match l with
  | [] => [(p, x)]
  | (q, y) :: l' =>
      if decide (p = q) then (q, (y + x)%R) :: l'
      else if pos_lt p q then (p, x) :: l
      else (q, y) :: insert_entry p x l'
  end.

Definition coalesce (es : list (nat * nat * R)) : list (nat * nat * R) :=
  foldl (λ acc e, insert_entry e.1 e.2 acc) [] es.

(** A matrix in canonical format: positions strictly increasing in row-major
    order (sorted indices, no duplicates). *)
Definition canonical {D} (W : sparse D) : Prop :=
  StronglySorted (λ p q, pos_lt p q = true) (zip (sp_row W) (sp_col W)).

(** *** [scipy.sparse.csgraph.connected_components(W, directed=True,
        connection="strong")]

    The number of strongly connected components of the directed graph over
    the [sp_nrows W] nodes that has an edge for each stored entry. *)
Definition successors {D} (W : sparse D) (u : nat) : list nat :=
  map snd (filter (λ p, p.1 = u) (zip (sp_row W) (sp_col W))).

Definition reach_step {D} (W : sparse D) (s : gset nat) : gset nat :=
  s ∪ list_to_set (elements s ≫= successors W).

(** The nodes a walk from [u] reaches. *)
Definition reachable {D} (W : sparse D) (u : nat) : gset nat :=
  Nat.iter (sp_nrows W) (reach_step W) {[ u ]}.

Definition mutual {D} (W : sparse D) (u v : nat) : bool :=
  bool_decide (v ∈ reachable W u) && bool_decide (u ∈ reachable W v).

(** A node is counted when no node before it is in its component. *)
Definition strong_components {D} (W : sparse D) : nat :=
  length (filter (λ u, forallb (λ v, negb (mutual W u v)) (seq 0 u) = true)
                 (seq 0 (sp_nrows W))).

(** scipy refuses a graph whose matrix is not square. The labels of the nodes,
    which the caller does not use, are left out. *)
Definition connected_components {D} (W : sparse D) : res nat :=
  if decide (sp_nrows W = sp_ncols W) then Ok (strong_components W)
  else Raise (ValueError "compressed-sparse graph must be shape (N, N)").

(** *** Dense arrays *)

(** [v[ix]], indexing by an array of indices. *)
Fixpoint take_at (v : vector) (ix : list nat) : res vector :=
  match ix with
  | [] => Ok []
  | i :: ix' =>
      match v !! i with
      | Some x => r ← take_at v ix'; mret (x :: r)
      | None => Raise IndexError
      end
  end.

Definition width (A : matrix) : nat :=
  match A with [] => 0 | r :: _ => length r end.

Definition transpose (A : matrix) : matrix :=
  map (λ j, map (λ r, nth j r 0%R) A) (seq 0 (width A)).

(** [A.sum(axis=0)] *)
Definition col_sums (A : matrix) : vector :=
  map (λ j, sum_R (map (λ r, nth j r 0%R) A)) (seq 0 (width A)).

(** [A * B], element by element, for two arrays of one shape. *)
Definition mul_elem (A B : matrix) : matrix :=
  zip_with (zip_with Rmult) A B.

Definition np_sign (x : R) : R :=
  if Rlt_dec 0 x then 1%R else if Rlt_dec x 0 then (-1)%R else 0%R.

(** *** numpy's state: float64 buffers and the global random generator *)

Abbreviation loc := nat.

Record np_state (rng : Type) : Type := {
  heap : gmap loc vector;
  np_random : rng
}.
Arguments heap {rng}.
Arguments np_random {rng}.

Definition buffer {rng} (σ : np_state rng) (l : loc) : vector :=
  default [] (heap σ !! l).

(** The matrix whose data are in the buffer, as a value. *)
Definition snapshot {rng} (σ : np_state rng) (W : sparse loc) : csr_matrix :=
  {| sp_nrows := sp_nrows W; sp_ncols := sp_ncols W;
     sp_row := sp_row W; sp_col := sp_col W;
     sp_data := buffer σ (sp_data W) |}.

Section DiffusionMap.
Context {rng : Type}.
Local Open Scope R_scope.

Abbreviation state := (np_state rng).

Definition read (l : loc) : M state vector := λ σ, (Ok (buffer σ l), σ).

(** The matrix as it is now, for a library that only reads it. *)
Definition view (W : sparse loc) : M state csr_matrix := λ σ, (Ok (snapshot σ W), σ).

Definition alloc (v : vector) : M state loc := λ σ,
  let l := fresh (dom (heap σ)) in
  (Ok l, {| heap := <[l := v]> (heap σ); np_random := np_random σ |}).

Definition write (l : loc) (v : vector) : M state unit := λ σ,
  (Ok tt, {| heap := <[l := v]> (heap σ); np_random := np_random σ |}).

(** [a /= b] on the buffer of [a], for [b] of the same length. *)
Definition idiv (l : loc) (b : vector) : M state unit :=
  a ← read l;
  if decide (length a = length b) then write l (zip_with Rdiv a b)
  else raise (ValueError "operands could not be broadcast together").

(** [W.tocoo(copy=..)]: without [copy] the new matrix shares the data
    buffer of [W]. *)
Definition tocoo (copy : bool) (W : sparse loc) : M state (sparse loc) :=
  if copy then
    d ← read (sp_data W);
    l ← alloc d;
    mret {| sp_nrows := sp_nrows W; sp_ncols := sp_ncols W;
            sp_row := sp_row W; sp_col := sp_col W; sp_data := l |}
  else mret W.

(** [A.tocsr()] for a COO matrix: new arrays. *)
Definition tocsr (A : sparse loc) : M state (sparse loc) :=
  A_now ← view A;
  let es := coalesce (entries A_now) in
  l ← alloc (map snd es);
  mret {| sp_nrows := sp_nrows A; sp_ncols := sp_ncols A;
          sp_row := map (λ e, e.1.1) es; sp_col := map (λ e, e.1.2) es;
          sp_data := l |}.

Definition calculate_normalized_affinity (W : sparse loc)
  : M state (sparse loc * vector * vector) :=
  W_now ← view W;
  let diag := row_sums W_now in
  let diag_half := map sqrt diag in
  W_norm ← tocoo true W;
  by_row ← lift (take_at diag_half (sp_row W_norm));
  idiv (sp_data W_norm) by_row;;
  by_col ← lift (take_at diag_half (sp_col W_norm));
  idiv (sp_data W_norm) by_col;;
  W_norm ← tocsr W_norm;
  mret (W_norm, diag, diag_half).

(** [sklearn.utils.extmath.randomized_svd(M, n_components, random_state)]:
    [(U, S, VT)]. *)
Variable randomized_svd : csr_matrix → nat → Z → matrix * vector * matrix.

(** [scipy.sparse.linalg.eigsh(M, k, v0)], with its default
    [which="LM"]: [(eigenvalues, eigenvectors)]. *)
Variable eigsh : csr_matrix → nat → vector → vector * matrix.

(** [np.random.seed(s)]: the state the global generator is set to;
    [np.random.uniform(low, high, n)]: the sample and the next state. *)
Variable seed_state : Z → rng.
Variable uniform : rng → R → R → nat → vector * rng.

Definition np_random_seed (s : Z) : M state unit := λ σ,
  (Ok tt, {| heap := heap σ; np_random := seed_state s |}).

Definition np_random_uniform (low high : R) (n : nat) : M state vector := λ σ,
  let '(v, g) := uniform (np_random σ) low high n in
  (Ok v, {| heap := heap σ; np_random := g |}).

(** Lines 40-50: the eigenvalues, first to last, and the matrix whose
    columns are the eigenvectors. *)
Definition decompose (W_norm : sparse loc) (n_components : nat) (solver : string)
    (random_state : Z) : M state (vector * matrix) :=
  A ← view W_norm;
  if decide (solver = "randomized") then
    let '(U, Sigma, VT) := randomized_svd A n_components random_state in
    let signs := map np_sign (col_sums (mul_elem U (transpose VT))) in
    let Lambda := zip_with Rmult signs Sigma in
    mret (Lambda, U)
  else
    assert (bool_decide (solver = "eigsh"));;
    np_random_seed random_state;;
    v0 ← np_random_uniform (-1) 1 (sp_nrows W_norm);
    let LU := eigsh A n_components v0 in
    let Lambda := rev LU.1 in
    let U := map (rev (A:=R)) LU.2 in
    mret (Lambda, U).

(** [W] is a sparse matrix by its type: [assert issparse(W)] holds. The
    element-wise operations are between arrays whose shapes agree when the
    solver returns [n_components] eigenpairs for the rows of the matrix. *)
Definition calculate_diffusion_map (W : sparse loc) (n_components : nat)
    (alpha : R) (solver : string) (random_state : Z) : M state (matrix * vector) :=
  nc ← lift (connected_components W);
  assert (bool_decide (nc = 1%nat));;
  '(W_norm, diag, diag_half) ← calculate_normalized_affinity W;
  '(Lambda, U) ← decompose W_norm n_components solver random_state;
  let Lambda := drop 1 Lambda in
  let U := map (drop 1) U in
  let Phi := zip_with (λ row d, map (λ x, x / d) row) U diag_half in
  let Lambda_new := map (λ l, l / (1 - alpha * l)) Lambda in
  let Phi_pt := map (λ row, zip_with Rmult row Lambda_new) Phi in
  mret (Phi_pt, Lambda).
End DiffusionMap.


(** *** Pseudo-time *)

(** [np.isin(names, roots)] *)
Definition np_isin (names roots : list string) : list bool :=
  map (λ n, bool_decide (n ∈ roots)) names.

Definition euclidean_distance (x y : list R) : R :=
  sqrt (sum_R (zip_with (λ a b, ((a - b) * (a - b))%R) x y)).

(** [sklearn.utils.check_array], which [euclidean_distances] applies to both
    of its arguments: an array without a row, or without a column, is
    refused. *)
Definition check_array (X : matrix) : res matrix :=
  match X with
  | [] => Raise (ValueError "Found array with 0 sample(s) while a minimum of 1 is required.")
  | r :: _ =>
      if decide (length r = 0)
      then Raise (ValueError "Found array with 0 feature(s) while a minimum of 1 is required.")
      else Ok X
  end.

(** [sklearn.metrics.pairwise.euclidean_distances(X, Y)]: the distance of
    each row of [X] to each row of [Y]. *)
Definition euclidean_distances (X Y : matrix) : res matrix :=
  X ← check_array X;
  Y ← check_array Y;
  if decide (width X = width Y)
  then mret (map (λ x, map (λ y, euclidean_distance x y) Y) X)
  else Raise (ValueError "Incompatible dimension for X and Y matrices").

(** [np.mean(A, axis=0)] *)
Definition np_mean0 (A : matrix) : vector :=
  map (λ s, (s / INR (length A))%R) (col_sums A).

(** [v.min()] and [v.max()]: numpy refuses an empty array. *)
Definition np_min (v : vector) : res R :=
  match v with
  | [] => Raise (ValueError "zero-size array to reduction operation minimum which has no identity")
  | x :: v' => Ok (foldl Rmin x v')
  end.

Definition np_max (v : vector) : res R :=
  match v with
  | [] => Raise (ValueError "zero-size array to reduction operation maximum which has no identity")
  | x :: v' => Ok (foldl Rmax x v')
  end.

(** [data.obsm[key]] and [data.uns[key]] for a list of names. *)
Definition obsm_matrix (key : string) : M AnnData matrix := λ d,
  match obsm d !! key with
  | Some X => (Ok X, d)
  | None => (Raise (KeyError key), d)
  end.

Definition uns_strings (key : string) : M AnnData (list string) := λ d,
  match uns d !! key with
  | Some (UnsStrings l) => (Ok l, d)
  | Some _ => (Raise AssertionError, d)
  | None => (Raise (KeyError key), d)
  end.

Definition min_max_scale (distances : vector) (dmin dmax : R) : vector :=
  map (λ x, ((x - dmin) / (dmax - dmin))%R) distances.

Definition calc_pseudotime (roots : list string) : M AnnData unit :=
  data ← get;
  if decide (obsm data !! "X_diffmap" = None) then
    raise (ValueError "Please run diffmap first!")
  else
    modify (set_uns "roots" (UnsStrings roots));;
    data ← get;
    stored_roots ← uns_strings "roots";
    let mask := np_isin (obs_names data) stored_roots in
    X ← obsm_matrix "X_diffmap";
    X_roots ← lift (select_rows mask X);
    D ← lift (euclidean_distances X_roots X);
    let distances := np_mean0 D in
    dmin ← lift (np_min distances);
    dmax ← lift (np_max distances);
    assign_obs "pseudotime" (FloatColumn (min_max_scale distances dmin dmax)).

(** ** Notions used to state the properties *)

(** [frame k d d']: [d'] is [d] but for the column [k] of [obs]. *)
Definition frame (k : string) (d d' : AnnData) : Prop :=
  obs_names d' = obs_names d ∧ obsm d' = obsm d ∧ uns d' = uns d ∧
  ∀ k', k' ≠ k → obs d' !! k' = obs d !! k'.

Definition neighbors_error : exn :=
  ValueError "Cannot find affinity matrix. Please run neighbors first!".
Definition pca_error : exn := ValueError "Please run pca first!".

(** The representation k-means runs on: the one asked for when its
    coordinates are there, PCA otherwise. *)
Definition kmeans_rep (data : AnnData) (rep_kmeans : string) : string :=
  if decide (obsm data !! ("X_" +:+ rep_kmeans) = None) then "pca" else rep_kmeans.

(** [labels_stored k m d]: the column [k] of [d] is the categorical of the
    membership [m]: its values are the decimal numerals of the communities
    counted from 1, it is not flagged as ordered, and its categories are the
    numerals of the distinct values, in increasing numeric order. *)
Definition labels_stored (k : string) (m : list nat) (d : AnnData) : Prop :=
  ∃ c ns,
    obs d !! k = Some (CategoricalColumn c) ∧
    cat_values c = map (λ x, str (x + 1)) m ∧
    cat_ordered c = false ∧
    cat_categories c = map str ns ∧
    StronglySorted lt ns ∧
    ∀ n, n ∈ ns ↔ ∃ x, x ∈ m ∧ n = x + 1.

(** The size of the coarse cluster [i], the number [nc] of fine clusters it
    is cut into, and the first fine label it is given: the number of fine
    clusters of the coarse clusters before it. *)
Definition cluster_size (coarse : list nat) (i : nat) : nat :=
  mask_sum (mask_eq coarse i).

Definition fine_count (n_clusters2 : nat) (coarse : list nat) (i : nat) : nat :=
  n_clusters2 `min` cluster_size coarse i.

Definition offset (n_clusters2 : nat) (coarse : list nat) (i : nat) : nat :=
  sum_list (map (fine_count n_clusters2 coarse) (seq 0 i)).

(** What is assumed of a k-means run that returns: one label per row, each
    below the number of clusters. *)
Definition kmeans_in_range (fit : nat → Z → nat → Z → matrix → res (list nat)) : Prop :=
  ∀ n n_jobs n_init random_state X l,
    fit n n_jobs n_init random_state X = Ok l →
    length l = length X ∧ Forall (λ c, c < n) l.

(** A k-means run that leaves no cluster empty. *)
Definition kmeans_onto (fit : nat → Z → nat → Z → matrix → res (list nat)) : Prop :=
  ∀ n n_jobs n_init random_state X l,
    fit n n_jobs n_init random_state X = Ok l → ∀ j, j < n → j ∈ l.

(** The invariant of the loop of [partition_cells_by_kmeans], before the
    coarse cluster [i] is refined; the state is [(labels, base_sum)]. *)
Definition kmeans_inv (fit : nat → Z → nat → Z → matrix → res (list nat)) (K2 : nat) (coarse : list nat) (i : nat) (st : list nat * nat) : Prop :=
  st.2 = offset K2 coarse i ∧ length st.1 = length coarse ∧
  (∀ r c, coarse !! r = Some c → c < i →
     ∃ l, st.1 !! r = Some l ∧ offset K2 coarse c ≤ l < offset K2 coarse (S c)) ∧
  (kmeans_onto fit → ∀ l, l < offset K2 coarse i →
     ∃ r c, coarse !! r = Some c ∧ c < i ∧ st.1 !! r = Some l).

(** The numbers [calc_pseudotime] computes, lines 123-130, from the names
    of the cells, the roots and the diffusion coordinates. *)
Definition pseudotime_values (names roots : list string) (X : matrix) : res vector :=
  X_roots ← select_rows (np_isin names roots) X;
  D ← euclidean_distances X_roots X;
  let distances := np_mean0 D in
  dmin ← np_min distances;
  dmax ← np_max distances;
  mret (min_max_scale distances dmin dmax).

(** The mean of the distances of a cell [y] to the cells of [X]. *)
Definition mean_distance (X : matrix) (y : list R) : R :=
  (sum_R (map (λ x, euclidean_distance x y) X) / INR (length X))%R.

Definition diffmap_error : exn := ValueError "Please run diffmap first!".

(** A sparse matrix whose data are in a buffer of the right length, and
    whose indices are within its shape. *)
Definition wf_sparse {rng} (σ : np_state rng) (W : sparse loc) : Prop :=
  is_Some (heap σ !! sp_data W) ∧
  length (sp_row W) = length (sp_col W) ∧
  length (buffer σ (sp_data W)) = length (sp_row W) ∧
  Forall (λ i, i < sp_nrows W) (sp_row W) ∧
  Forall (λ j, j < sp_ncols W) (sp_col W).

(** The sum of the entries of a list of triples at a position. *)
Definition entry_of (l : list (nat * nat * R)) (p : nat * nat) : R :=
  sum_R (map snd (filter (λ e, e.1 = p) l)).

(** The entries of a matrix, each divided by the numbers [dh] gives to its
    row and to its column. *)
Definition normalized (dh : vector) (es : list (nat * nat * R)) : list (nat * nat * R) :=
  map (λ e, (e.1, (e.2 / nth e.1.1 dh 0 / nth e.1.2 dh 0)%R)) es.

(** The graph of a sparse matrix: an edge for each stored entry. *)
Definition edge {D} (W : sparse D) (u v : nat) : Prop := stored W u v.

(** There is a node, and every node reaches every node: the graph has
    exactly one strongly connected component. *)
Definition strongly_connected {D} (W : sparse D) : Prop :=
  0 < sp_nrows W ∧
  ∀ u v, u < sp_nrows W → v < sp_nrows W → rtc (edge W) u v.

(** A dense matrix of [r] rows and [c] columns. *)
Definition mshape (A : matrix) (r c : nat) : Prop :=
  length A = r ∧ Forall (λ row, length row = c) A.

(** What is assumed of the solvers, on the [n] by [n] matrices, when they
    are asked for [k] components: they return [k] values and vectors of [n]
    coordinates. *)
Definition svd_returns (randomized_svd : csr_matrix → nat → Z → matrix * vector * matrix)
    (n k : nat) : Prop :=
  ∀ A seed, sp_nrows A = n → sp_ncols A = n →
    length (randomized_svd A k seed).1.2 = k ∧
    mshape (randomized_svd A k seed).1.1 n k ∧
    mshape (randomized_svd A k seed).2 k n.

Definition eigsh_returns (eigsh : csr_matrix → nat → vector → vector * matrix)
    (n k : nat) : Prop :=
  ∀ A v0, sp_nrows A = n → sp_ncols A = n → length v0 = n →
    length (eigsh A k v0).1 = k ∧ mshape (eigsh A k v0).2 n k.

(** [randomized_svd] returns the singular values, which are not negative,
    in descending order. *)
Definition svd_descending (randomized_svd : csr_matrix → nat → Z → matrix * vector * matrix)
    (n k : nat) : Prop :=
  ∀ A seed, sp_nrows A = n → sp_ncols A = n →
    StronglySorted (λ x y, (y <= x)%R) (randomized_svd A k seed).1.2 ∧
    Forall (λ x, (0 <= x)%R) (randomized_svd A k seed).1.2.

(** [eigsh] returns the eigenvalues in ascending order. *)
Definition eigsh_ascending (eigsh : csr_matrix → nat → vector → vector * matrix)
    (n k : nat) : Prop :=
  ∀ A v0, sp_nrows A = n → sp_ncols A = n → length v0 = n →
    StronglySorted Rle (eigsh A k v0).1.

(** [np.random.uniform(low, high, n)] draws [n] numbers of [[low, high)]. *)
Definition uniform_in_range {rng} (uniform : rng → R → R → nat → vector * rng) : Prop :=
  ∀ g low high n, (low < high)%R →
    length (uniform g low high n).1 = n ∧
    Forall (λ x, (low <= x < high)%R) (uniform g low high n).1.

(** Orders of a vector of eigenvalues. *)
Definition descending (v : vector) : Prop := StronglySorted (λ x y, (y <= x)%R) v.
Definition descending_magnitude (v : vector) : Prop :=
  StronglySorted (λ x y, (Rabs y <= Rabs x)%R) v.

(** [A v], for a sparse [A]. *)
Definition matvec (A : csr_matrix) (v : vector) : vector :=
  map (λ i, sum_R (map (λ j, (entry A i j * nth j v 0)%R) (seq 0 (sp_ncols A))))
      (seq 0 (sp_nrows A)).

(** The [j]-th column of a dense matrix. *)
Definition column_of (A : matrix) (j : nat) : vector := map (λ r, nth j r 0%R) A.

(** ** Instances of the libraries, and containers, for the examples *)

(** A community-detection module that leaves a partition as it is given:
    a partition is its membership, each vertex its own community unless an
    initial membership is given. The graph is its number of vertices. *)
Definition identity_module : CommunityModule nat := {|
  partition := list nat;
  RBConfigurationVertexPartition := λ G _ initial_membership,
    default (seq 0 G) initial_membership;
  aggregate_partition := λ p, p;
  optimise_partition := λ _ _ p, p;
  from_coarse_partition := λ p _, p;
  membership := λ p, p;
  find_partition := λ G _ _ _, seq 0 G
|}.

Definition vertex_count (W : csr_matrix) : nat := sp_nrows W.

(** A clustering of distinct rows that leaves no cluster empty: the first
    [n - 1] rows are clusters of their own, the other rows are the last
    cluster; as scikit-learn, it refuses [n = 0] and fewer rows than
    clusters. *)
Definition kmeans_by_index (n : nat) (n_jobs : Z) (n_init : nat) (random_state : Z)
    (X : matrix) : res (list nat) :=
  if decide (1 ≤ n ≤ length X)
  then Ok (map (λ r, r `min` (n - 1)) (seq 0 (length X)))
  else Raise (ValueError "n_samples should be >= n_clusters").

(** The clustering of rows that all coincide, whatever the number of
    clusters asked for: every row is at the first centre. *)
Definition kmeans_coincident (n : nat) (n_jobs : Z) (n_init : nat) (random_state : Z)
    (X : matrix) : res (list nat) :=
  if decide (1 ≤ n ≤ length X)
  then Ok (map (λ _, 0) X)
  else Raise (ValueError "n_samples should be >= n_clusters").

(** Ten cells on a line, with an (empty) affinity matrix. *)
Definition ten_cells : AnnData := {|
  obs_names := ["c0"; "c1"; "c2"; "c3"; "c4"; "c5"; "c6"; "c7"; "c8"; "c9"];
  obs := ∅;
  obsm := {[ "X_pca" := [[0]; [1]; [2]; [3]; [4]; [5]; [6]; [7]; [8]; [9]]%R ]};
  uns := {[ "W_pca" := UnsSparse {| sp_nrows := 10; sp_ncols := 10;
                                    sp_row := []; sp_col := []; sp_data := [] |} ]}
|}.

(** Two cells at the same place. *)
Definition twin_cells : AnnData := {|
  obs_names := ["a"; "b"];
  obs := ∅;
  obsm := {[ "X_pca" := [[0]; [0]]%R ]};
  uns := ∅
|}.

(** Three cells on a line, at 0, 1 and 3, with their diffusion coordinates. *)
Definition three_cells : AnnData := {|
  obs_names := ["a"; "b"; "c"];
  obs := ∅;
  obsm := {[ "X_diffmap" := [[0]; [1]; [3]]%R ]};
  uns := ∅
|}.

(** Two triangles, 0-1-2 and 3-4-5, and the same with the edge 2-3; an edge
    is stored in both directions, and the data are in the buffer 0. *)
Definition two_triangles : sparse loc := {|
  sp_nrows := 6; sp_ncols := 6;
  sp_row := [0; 0; 1; 1; 2; 2; 3; 3; 4; 4; 5; 5];
  sp_col := [1; 2; 0; 2; 0; 1; 4; 5; 3; 5; 3; 4];
  sp_data := 0
|}.

Definition bridged_triangles : sparse loc := {|
  sp_nrows := 6; sp_ncols := 6;
  sp_row := [0; 0; 1; 1; 2; 2; 2; 3; 3; 3; 4; 4; 5; 5];
  sp_col := [1; 2; 0; 2; 0; 1; 3; 2; 4; 5; 3; 5; 3; 4];
  sp_data := 0
|}.

(** The cycle 0-1-2-3-0. *)
Definition four_cycle : sparse loc := {|
  sp_nrows := 4; sp_ncols := 4;
  sp_row := [0; 0; 1; 1; 2; 2; 3; 3];
  sp_col := [1; 3; 0; 2; 1; 3; 0; 2];
  sp_data := 0
|}.

(** A state of numpy with one buffer, at 0, and a generator without state. *)
Definition one_buffer (v : vector) : np_state unit :=
  {| heap := {[ 0 := v ]}; np_random := tt |}.

(** A generator that always draws the lower bound. *)
Definition lowest (g : unit) (low high : R) (n : nat) : vector * unit :=
  (repeat low n, tt).

(** Solvers that return zeros, of the right shapes. *)
Definition zero_svd (A : csr_matrix) (k : nat) (seed : Z) : matrix * vector * matrix :=
  (repeat (repeat 0%R k) (sp_nrows A), repeat 0%R k, repeat (repeat 0%R (sp_ncols A)) k).

Definition zero_eigsh (A : csr_matrix) (k : nat) (v0 : vector) : vector * matrix :=
  (repeat 0%R k, repeat (repeat 0%R k) (sp_nrows A)).

(** The three eigenpairs of largest magnitude of the normalized affinity of
    the cycle with weights 2, in ascending order of the eigenvalues:
    -1, 0 and 1 (the fourth eigenvalue is 0 too). *)
Definition cycle_eigenvectors : matrix :=
  [[ 1 / 2;  1 / 2; 1 / 2];
   [-1 / 2;  1 / 2; 1 / 2];
   [ 1 / 2; -1 / 2; 1 / 2];
   [-1 / 2; -1 / 2; 1 / 2]]%R.

Definition cycle_eigsh (A : csr_matrix) (k : nat) (v0 : vector) : vector * matrix :=
  ([-1; 0; 1]%R, cycle_eigenvectors).

(** A container that holds nothing. *)
Definition empty_data : AnnData :=
  {| obs_names := []; obs := ∅; obsm := ∅; uns := ∅ |}.

(** ** The drivers of the diffusion map *)

(** [data.obsm[k] = x]: anndata refuses an array whose number of rows is not
    the number of cells. *)
Definition assign_obsm (k : string) (x : matrix) : M AnnData unit := λ d,
  if decide (length x = length (obs_names d))
  then (Ok tt, set_obsm k x d)
  else (Raise (ValueError "Can only assign an array of same length"), d).

Section DiffusionMapDrivers.
Context {rng : Type}.

Variable randomized_svd : csr_matrix → nat → Z → matrix * vector * matrix.
Variable eigsh : csr_matrix → nat → vector → vector * matrix.
Variable seed_state : Z → rng.
Variable uniform : rng → R → R → nat → vector * rng.

(** [diffmap] works on the container and on the arrays of numpy. *)
Definition on_data {A} (m : M AnnData A) : M (AnnData * np_state rng) A := λ s,
  let '(r, d') := m s.1 in (r, (d', s.2)).

Definition on_numpy {A} (m : M (np_state rng) A) : M (AnnData * np_state rng) A := λ s,
  let '(r, σ') := m s.2 in (r, (s.1, σ')).

(** [W = data.uns[key]]: the matrix of the slot, its data in a buffer of
    numpy. *)
Definition uns_buffer (key : string) : M (AnnData * np_state rng) (sparse loc) :=
  W ← on_data (uns_matrix key);
  l ← on_numpy (alloc (sp_data W));
  mret {| sp_nrows := sp_nrows W; sp_ncols := sp_ncols W;
          sp_row := sp_row W; sp_col := sp_col W; sp_data := l |}.

(** Code that is given [W = data.uns[key]] works on the object the slot
    holds: after it, whether it returns or raises, the slot holds what the
    buffer of [W] then holds. *)
Definition with_shared {A} (key : string) (W : sparse loc) (m : M (np_state rng) A)
  : M (AnnData * np_state rng) A := λ s,
  let '(r, σ') := m s.2 in
  (r, (set_uns key (UnsSparse (snapshot σ' W)) s.1, σ')).

Definition diffmap (n_components : nat) (rep : string) (alpha : R) (solver : string)
    (random_state : Z) : M (AnnData * np_state rng) unit :=
  let rep_key := "W_" +:+ rep in
  data ← on_data get;
  if decide (uns data !! rep_key = None) then
    raise (ValueError "Affinity matrix does not exist. Please run neighbors first!")
  else
    W ← uns_buffer rep_key;
    '(Phi_pt, Lambda) ←
      with_shared rep_key W
        (calculate_diffusion_map randomized_svd eigsh seed_state uniform
           W n_components alpha solver random_state);
    on_data (assign_obsm "X_diffmap" Phi_pt);;
    on_data (modify (set_uns "diffmap_evals" (UnsVector Lambda))).
End DiffusionMapDrivers.

Section ReduceDiffmap.
(** [PCA(n_components, random_state).fit_transform(X)] of scikit-learn. *)
Variable PCA_fit_transform : nat → Z → matrix → res matrix.

Definition reduce_diffmap_to_3d (random_state : Z) : M AnnData unit :=
  data ← get;
  if decide (obsm data !! "X_diffmap" = None) then
    raise (ValueError "Please run diffmap first!")
  else
    X ← obsm_matrix "X_diffmap";
    Y ← lift (PCA_fit_transform 3 random_state X);
    assign_obsm "X_diffmap_pca" Y.
End ReduceDiffmap.

(** ** More notions used to state the properties *)

(** The state of numpy with another state of the global generator. *)
Definition reseed {rng} (g : rng) (σ : np_state rng) : np_state rng :=
  {| heap := heap σ; np_random := g |}.

Definition no_affinity_error : exn :=
  ValueError "Affinity matrix does not exist. Please run neighbors first!".

(** The matrix [V] with its data in the buffer [l], and the state of numpy
    once a buffer that holds [v] is allocated. *)
Definition in_buffer (V : csr_matrix) (l : loc) : sparse loc :=
  {| sp_nrows := sp_nrows V; sp_ncols := sp_ncols V;
     sp_row := sp_row V; sp_col := sp_col V; sp_data := l |}.

Definition load {rng} (v : vector) (σ : np_state rng) : np_state rng :=
  {| heap := <[fresh (dom (heap σ)) := v]> (heap σ); np_random := np_random σ |}.

(** A sparse matrix held as a value: its three arrays have one length, and
    its indices are within its shape. *)
Definition wf_matrix (V : csr_matrix) : Prop :=
  length (sp_row V) = length (sp_col V) ∧
  length (sp_data V) = length (sp_row V) ∧
  Forall (λ i, i < sp_nrows V) (sp_row V) ∧
  Forall (λ j, j < sp_ncols V) (sp_col V).

(** The rows of the diffusion coordinates of the cells that are roots. *)
Definition root_rows (names roots : list string) (X : matrix) : matrix :=
  masked (np_isin names roots) X.

(** ** More instances and containers for the examples *)

(** The cycle 0-1-2-3-0 with weights 2, as a value, and four cells that have
    it as their affinity matrix. *)
Definition cycle_matrix : csr_matrix := {|
  sp_nrows := 4; sp_ncols := 4;
  sp_row := [0; 0; 1; 1; 2; 2; 3; 3];
  sp_col := [1; 3; 0; 2; 1; 3; 0; 2];
  sp_data := repeat 2%R 8
|}.

Definition cycle_cells : AnnData := {|
  obs_names := ["a"; "b"; "c"; "d"];
  obs := ∅;
  obsm := ∅;
  uns := {[ "W_pca" := UnsSparse cycle_matrix ]}
|}.

(** A state of numpy without a buffer. *)
Definition no_buffer : np_state unit := {| heap := ∅; np_random := tt |}.

(** A reduction that keeps the first columns. *)
Definition first_columns (n : nat) (seed : Z) (X : matrix) : res matrix :=
  Ok (map (take n) X).

(** A generator whose state counts the draws, and a state of numpy with one
    buffer and this generator. *)
Definition counting_uniform (g : nat) (low high : R) (n : nat) : vector * nat :=
  (repeat low n, S g).

Definition counting_buffer (v : vector) (g : nat) : np_state nat :=
  {| heap := {[ 0 := v ]}; np_random := g |}.

(** * Properties *)


(** ** The container: what a column assignment changes *)

Lemma frame_refl k d : frame k d d.
Proof. by repeat split. Qed.

Lemma frame_set_obs k c d : frame k d (set_obs k c d).
Proof.
  repeat split; try done.
  intros k' Hk'. simpl. by rewrite lookup_insert_ne.
Qed.

Lemma assign_obs_cases k c d :
  (column_length c = length (obs_names d) ∧ assign_obs k c d = (Ok tt, set_obs k c d)) ∨
  (column_length c ≠ length (obs_names d) ∧ ∃ e, assign_obs k c d = (Raise e, d)).
Proof.
  unfold assign_obs. case_decide; [left | right]; split; eauto.
Qed.

Lemma assign_obs_frame k c d : frame k d (assign_obs k c d).2.
Proof.
  destruct (assign_obs_cases k c d) as [[_ ->] | [_ [e ->]]]; simpl.
  - apply frame_set_obs.
  - apply frame_refl.
Qed.

Lemma uns_matrix_state key d : (uns_matrix key d).2 = d.
Proof. unfold uns_matrix. by repeat case_match. Qed.

Lemma uns_matrix_Some key W d :
  uns d !! key = Some (UnsSparse W) → uns_matrix key d = (Ok W, d).
Proof. unfold uns_matrix. by intros ->. Qed.


(** ** Labels and their natural order *)

Lemma split_digits d acc :
  natsort_split (Some (Num acc)) (NilEmpty.string_of_uint d)
  = [Num (Nat.of_uint_acc d acc)].
Proof.
  revert acc. induction d; intros acc; simpl; [done|..];
    rewrite IHd, Nat.tail_mul_spec; do 3 f_equal; unfold digit_val; simpl; lia.
Qed.

Lemma to_uint_not_Nil n : Nat.to_uint n ≠ Decimal.Nil.
Proof.
  intros H. pose proof (Unsigned.of_to n) as E. rewrite H in E. simpl in E. subst n.
  discriminate H.
Qed.

(** The key of a decimal numeral is its number. *)
Lemma natsort_key_str n : natsort_key (str n) = [Text ""; Num n].
Proof.
  unfold natsort_key, str.
  pose proof (Unsigned.of_to n) as E. pose proof (to_uint_not_Nil n) as Hn.
  destruct (Nat.to_uint n) as [|d|d|d|d|d|d|d|d|d|d]; [done|..]; simpl;
    rewrite split_digits; subst n; reflexivity.
Qed.

Lemma natsort_le_str n m : natsort_le (str n) (str m) = (n <=? m).
Proof.
  unfold natsort_le. rewrite !natsort_key_str. simpl.
  destruct (Nat.compare_spec n m); symmetry.
  - apply Nat.leb_le. lia.
  - apply Nat.leb_le. lia.
  - apply Nat.leb_gt. lia.
Qed.

Lemma str_inj n m : str n = str m → n = m.
Proof.
  intros H. apply (f_equal natsort_key) in H. rewrite !natsort_key_str in H. congruence.
Qed.

#[global] Instance str_Inj : Inj (=) (=) str.
Proof. intros n m. apply str_inj. Qed.

Lemma insert_by_map {A B} (f : A → B) le le' x l :
  (∀ y, le (f x) (f y) = le' x y) →
  insert_by le (f x) (map f l) = map f (insert_by le' x l).
Proof.
  intros H. induction l as [|y l IH]; simpl; [done|].
  rewrite H. destruct (le' x y); simpl; [done|]. by rewrite IH.
Qed.

Lemma sort_by_map {A B} (f : A → B) le le' l :
  (∀ x y, le (f x) (f y) = le' x y) →
  sort_by le (map f l) = map f (sort_by le' l).
Proof.
  intros H. induction l as [|x l IH]; simpl; [done|].
  unfold sort_by in *. simpl. rewrite IH. by apply insert_by_map.
Qed.

Lemma insert_by_Permutation {A} (le : A → A → bool) x l : insert_by le x l ≡ₚ x :: l.
Proof.
  induction l as [|y l IH]; simpl; [done|].
  destruct (le x y); [done|]. rewrite IH. apply Permutation_swap.
Qed.

Lemma sort_by_Permutation {A} (le : A → A → bool) l : sort_by le l ≡ₚ l.
Proof.
  induction l as [|x l IH]; [done|].
  unfold sort_by in *. simpl. rewrite insert_by_Permutation. by rewrite IH.
Qed.

Lemma insert_leb_sorted x l :
  StronglySorted le l → StronglySorted le (insert_by Nat.leb x l).
Proof.
  induction 1 as [|y l Hl IH Hy]; simpl.
  - repeat constructor.
  - destruct (Nat.leb_spec x y).
    + constructor; [by constructor|]. constructor; [done|].
      eapply Forall_impl; [exact Hy|]. simpl. lia.
    + constructor; [done|].
      rewrite insert_by_Permutation. constructor; [lia | done].
Qed.

Lemma sort_leb_sorted l : StronglySorted le (sort_by Nat.leb l).
Proof.
  induction l as [|x l IH]; [constructor|].
  unfold sort_by in *. simpl. by apply insert_leb_sorted.
Qed.

Lemma sorted_NoDup_lt l : StronglySorted le l → NoDup l → StronglySorted lt l.
Proof.
  induction 1 as [|x l Hl IH Hx]; intros Hnd; [constructor|].
  apply NoDup_cons in Hnd as [Hx' Hnd]. constructor; [by apply IH|].
  apply Forall_forall. intros y Hy.
  rewrite Forall_forall in Hx. specialize (Hx y Hy).
  assert (x ≠ y) by (intros ->; done). lia.
Qed.

Lemma numerals_of l :
  Forall (λ s, ∃ n, s = str n) l → ∃ ns, l = map str ns.
Proof.
  induction 1 as [|s l [n ->] _ [ns ->]].
  - by exists [].
  - by exists (n :: ns).
Qed.

Lemma np_unique_Permutation l : np_unique l ≡ₚ remove_dups l.
Proof. apply merge_sort_Permutation. Qed.

(** The categories of a membership. *)
Lemma categories_spec m :
  ∃ ns, natsorted (np_unique (map (λ x, str (x + 1)) m)) = map str ns ∧
        StronglySorted lt ns ∧
        ∀ n, n ∈ ns ↔ ∃ x, x ∈ m ∧ n = x + 1.
Proof.
  set (l := map (λ x, str (x + 1)) m).
  assert (Hin : ∀ s, s ∈ np_unique l ↔ ∃ x, x ∈ m ∧ s = str (x + 1)).
  { intros s. rewrite np_unique_Permutation, elem_of_remove_dups.
    unfold l. rewrite list_elem_of_fmap. split; intros (x & H1 & H2); eauto. }
  destruct (numerals_of (np_unique l)) as [ms Hms].
  { apply Forall_forall. intros s [x [_ ->]]%Hin. eauto. }
  assert (Hnd : NoDup ms).
  { apply (NoDup_fmap str). change (NoDup (map str ms)).
    rewrite <- Hms, np_unique_Permutation. apply NoDup_remove_dups. }
  exists (sort_by Nat.leb ms). split; [|split].
  - unfold natsorted. rewrite Hms. apply sort_by_map. apply natsort_le_str.
  - apply sorted_NoDup_lt; [apply sort_leb_sorted|].
    by rewrite sort_by_Permutation.
  - intros n. rewrite sort_by_Permutation.
    rewrite <- (list_elem_of_fmap_inj str).
    change (str <$> ms) with (map str ms). rewrite <- Hms, Hin.
    split; intros (x & Hx & E); exists x; split; try done.
    + by apply str_inj. + by rewrite E.
Qed.

Lemma store_labels_Ok class_label m d d' :
  store_labels class_label m d = (Ok tt, d') → labels_stored class_label m d'.
Proof.
  unfold store_labels. intros H.
  destruct (assign_obs_cases class_label
    (CategoricalColumn (pd_Categorical (labels_of m) (natsorted (np_unique (labels_of m))))) d)
    as [[_ E] | [_ [e E]]]; rewrite E in H; [|done].
  injection H as <-.
  destruct (categories_spec m) as (ns & Hc & Hs & Hn).
  eexists _, ns. split; [simpl; apply lookup_insert_eq|].
  split; [done|]. split; [done|]. split; [exact Hc|]. by split.
Qed.

(** ** Two-level k-means *)

Lemma mask_eq_lookup coarse i r c :
  coarse !! r = Some c → mask_eq coarse i !! r = Some (bool_decide (c = i)).
Proof.
  intros H. unfold mask_eq. change (map ?f ?l) with (f <$> l).
  by rewrite list_lookup_fmap, H.
Qed.

Lemma mask_eq_length coarse i : length (mask_eq coarse i) = length coarse.
Proof. unfold mask_eq. apply length_map. Qed.

Lemma mask_sum_cons b idx : mask_sum (b :: idx) = (if b then 1 else 0) + mask_sum idx.
Proof. unfold mask_sum. rewrite filter_cons. by destruct b. Qed.

Lemma masked_length {A} idx (X : list A) :
  length idx = length X → length (masked idx X) = mask_sum idx.
Proof.
  revert X. induction idx as [|b idx IH]; intros [|x X] H; simpl in *; try done.
  rewrite mask_sum_cons. destruct b; simpl; rewrite IH; lia.
Qed.

Lemma put_masked_length labels idx vals :
  length (put_masked labels idx vals) = length labels.
Proof.
  revert idx vals. induction labels as [|l labels IH]; intros [|b idx] vals; simpl; try done.
  destruct b; [destruct vals|]; simpl; by rewrite IH.
Qed.

Lemma put_masked_false labels idx vals r :
  idx !! r = Some false → put_masked labels idx vals !! r = labels !! r.
Proof.
  revert idx vals r. induction labels as [|l labels IH]; intros [|b idx] vals r; simpl; try done.
  destruct r as [|r]; simpl.
  - intros [= ->]. done.
  - intros H. destruct b; [destruct vals|]; simpl; by apply IH.
Qed.

Lemma put_masked_true labels idx vals r :
  length idx = length labels → length vals = mask_sum idx →
  idx !! r = Some true → ∃ v, v ∈ vals ∧ put_masked labels idx vals !! r = Some v.
Proof.
  revert idx vals r. induction labels as [|l labels IH]; intros [|b idx] vals r; simpl; try done.
  rewrite mask_sum_cons. intros Hl Hv.
  destruct r as [|r]; simpl.
  - intros [= ->]. destruct vals as [|v vals]; [done|]. exists v. split; [left|done].
  - intros H. destruct b.
    + destruct vals as [|v vals]; [done|]. simpl in *.
      destruct (IH idx vals r) as (w & Hw & E); try lia; try done.
      exists w. split; [by right|done].
    + simpl in *. apply IH; try lia; done.
Qed.

Lemma put_masked_onto labels idx vals v :
  length idx = length labels → length vals = mask_sum idx →
  v ∈ vals → ∃ r, idx !! r = Some true ∧ put_masked labels idx vals !! r = Some v.
Proof.
  revert idx vals. induction labels as [|l labels IH]; intros [|b idx] vals; simpl; try done.
  - intros _ Hv. unfold mask_sum in Hv. simpl in Hv. destruct vals; [|done]. by intros ?%elem_of_nil.
  - rewrite mask_sum_cons. intros Hl Hv Hin. destruct b.
    + destruct vals as [|w vals]; [by apply elem_of_nil in Hin|]. simpl in *.
      apply elem_of_cons in Hin as [->|Hin].
      * by exists 0.
      * destruct (IH idx vals) as (r & Hr & E); try lia; try done. by exists (S r).
    + simpl in *. destruct (IH idx vals) as (r & Hr & E); try lia; try done. by exists (S r).
Qed.

Lemma mask_eq_true coarse i r :
  mask_eq coarse i !! r = Some true ↔ coarse !! r = Some i.
Proof.
  unfold mask_eq. change (map ?f ?l) with (f <$> l). rewrite list_lookup_fmap.
  destruct (coarse !! r) as [c|]; simpl; [|naive_solver].
  case_bool_decide; naive_solver.
Qed.

Lemma sum_list_snoc l x : sum_list (l ++ [x]) = sum_list l + x.
Proof. induction l as [|y l IH]; simpl; lia. Qed.

Lemma offset_S K2 coarse i : offset K2 coarse (S i) = offset K2 coarse i + fine_count K2 coarse i.
Proof.
  unfold offset. rewrite seq_S, map_app. simpl. by rewrite sum_list_snoc.
Qed.

Lemma offset_mono K2 coarse i j : i ≤ j → offset K2 coarse i ≤ offset K2 coarse j.
Proof. induction 1; [done|]. rewrite offset_S. lia. Qed.

Lemma for_each_inv {St} (body : St → nat → res St) (Inv : nat → St → Prop) n :
  (∀ i st st', i < n → Inv i st → body st i = Ok st' → Inv (S i) st') →
  ∀ a st st', a ≤ n → Inv a st →
    for_each body st (seq a (n - a)) = Ok st' → Inv n st'.
Proof.
  intros Hstep a. remember (n - a) as k eqn:Hk. revert a Hk.
  induction k as [|k IH]; intros a Hk st st' Ha Hinv; simpl.
  - intros [= <-]. replace n with a by lia. done.
  - unfold mbind, res_bind. destruct (body st a) as [st1|e] eqn:E; [|done].
    apply IH; [lia | lia |]. apply (Hstep a st); [lia|done..].
Qed.

Section ClusteringProperties.
Context {graph : Type}.
Variable construct_graph : csr_matrix → graph.
Variable louvain_module : CommunityModule graph.
Variable leidenalg : CommunityModule graph.
Variable effective_n_jobs : Z → Z.
Variable KMeans_fit : nat → Z → nat → Z → matrix → res (list nat).

Abbreviation louvain' := (louvain construct_graph louvain_module).
Abbreviation leiden' := (leiden construct_graph leidenalg).
Abbreviation spectral' := (spectral construct_graph effective_n_jobs KMeans_fit).
Abbreviation spectral_body' :=
  (spectral_body construct_graph effective_n_jobs KMeans_fit).
Abbreviation spectral_louvain' :=
  (spectral_louvain construct_graph louvain_module effective_n_jobs KMeans_fit).
Abbreviation spectral_leiden' :=
  (spectral_leiden construct_graph leidenalg effective_n_jobs KMeans_fit).
Abbreviation partition_cells_by_kmeans' :=
  (partition_cells_by_kmeans effective_n_jobs KMeans_fit).

(** *** Errors of the drivers *)

Lemma louvain_no_affinity rep resolution random_state class_label data :
  uns data !! ("W_" +:+ rep) = None →
  louvain' rep resolution random_state class_label data = (Raise neighbors_error, data).
Proof.
  intros H. unfold louvain, mbind, M_bind, get. simpl.
  by rewrite decide_True.
Qed.

Lemma leiden_no_affinity rep resolution n_iter random_state class_label data :
  uns data !! ("W_" +:+ rep) = None →
  leiden' rep resolution n_iter random_state class_label data
  = (Raise neighbors_error, data).
Proof.
  intros H. unfold leiden, mbind, M_bind, get. simpl.
  by rewrite decide_True.
Qed.

Lemma spectral_checks_spec rep rep_kmeans data :
  spectral_checks rep rep_kmeans data =
    if decide (obsm data !! ("X_" +:+ rep_kmeans) = None ∧ obsm data !! "X_pca" = None)
    then (Raise pca_error, data)
    else if decide (uns data !! ("W_" +:+ rep) = None)
    then (Raise neighbors_error, data)
    else (Ok (kmeans_rep data rep_kmeans), data).
Proof.
  unfold spectral_checks, kmeans_rep, mbind, M_bind, get, raise, mret, M_ret. simpl.
  repeat case_decide; simpl; try done; naive_solver.
Qed.

Lemma spectral_fallback module n_iterations rep resolution rep_kmeans
    n_clusters n_clusters2 n_init n_jobs random_state class_label data :
  ¬ (obsm data !! ("X_" +:+ rep_kmeans) = None ∧ obsm data !! "X_pca" = None) →
  uns data !! ("W_" +:+ rep) ≠ None →
  spectral' module n_iterations rep resolution rep_kmeans
    n_clusters n_clusters2 n_init n_jobs random_state class_label data
  = spectral_body' module n_iterations rep resolution (kmeans_rep data rep_kmeans)
    n_clusters n_clusters2 n_init n_jobs random_state class_label data.
Proof.
  intros Hx Hw. unfold spectral, mbind, M_bind at 1.
  rewrite spectral_checks_spec. by rewrite !decide_False.
Qed.

Lemma spectral_errors module n_iterations rep resolution rep_kmeans
    n_clusters n_clusters2 n_init n_jobs random_state class_label data :
  let run := spectral' module n_iterations rep resolution rep_kmeans
    n_clusters n_clusters2 n_init n_jobs random_state class_label data in
  (obsm data !! ("X_" +:+ rep_kmeans) = None ∧ obsm data !! "X_pca" = None →
     run = (Raise pca_error, data)) ∧
  (¬ (obsm data !! ("X_" +:+ rep_kmeans) = None ∧ obsm data !! "X_pca" = None) →
     uns data !! ("W_" +:+ rep) = None →
     run = (Raise neighbors_error, data)).
Proof.
  simpl. split.
  - intros H. unfold spectral, mbind, M_bind. rewrite spectral_checks_spec.
    by rewrite decide_True.
  - intros H1 H2. unfold spectral, mbind, M_bind. rewrite spectral_checks_spec.
    rewrite decide_False by done. by rewrite decide_True.
Qed.

(** *** Two-level k-means *)

Section KMeansInRange.
Hypothesis Hrange : kmeans_in_range KMeans_fit.

Lemma refine_cluster_spec X coarse n_jobs K2 seed labels base i labels' base' :
  length X = length coarse → length labels = length coarse →
  refine_cluster KMeans_fit X coarse n_jobs K2 seed (labels, base) i = Ok (labels', base') →
  base' = base + fine_count K2 coarse i ∧ length labels' = length coarse ∧
  (∀ r c, coarse !! r = Some c → c ≠ i → labels' !! r = labels !! r) ∧
  (∀ r, coarse !! r = Some i →
     ∃ l, labels' !! r = Some l ∧ base ≤ l < base + fine_count K2 coarse i) ∧
  (kmeans_onto KMeans_fit → ∀ l, base ≤ l < base + fine_count K2 coarse i →
     ∃ r, coarse !! r = Some i ∧ labels' !! r = Some l).
Proof using Type*.
  intros HX Hl. unfold refine_cluster, select_rows, assign_masked.
  rewrite decide_True by (by rewrite mask_eq_length).
  unfold mbind, res_bind.
  destruct (KMeans_fit _ _ _ _ _) as [fine|e] eqn:Efit; [|done].
  destruct (Hrange _ _ _ _ _ _ Efit) as [Hlen Hlt].
  rewrite masked_length in Hlen by (by rewrite mask_eq_length).
  rewrite decide_True by (by rewrite mask_eq_length).
  rewrite decide_True by (by rewrite length_map).
  intros [= <- <-]. fold (cluster_size coarse i). fold (fine_count K2 coarse i).
  assert (Hvals : length (map (λ l, base + l) fine) = mask_sum (mask_eq coarse i))
    by (by rewrite length_map).
  assert (Hidx : length (mask_eq coarse i) = length labels)
    by (by rewrite mask_eq_length).
  split; [done|]. split; [by rewrite put_masked_length|]. split; [|split].
  - intros r c Hc Hne. apply put_masked_false.
    rewrite (mask_eq_lookup _ _ _ _ Hc). by rewrite bool_decide_false.
  - intros r Hr. apply mask_eq_true in Hr.
    destruct (put_masked_true labels _ _ r Hidx Hvals Hr) as (v & Hv & E).
    exists v. split; [done|].
    change (map ?f ?l) with (f <$> l) in Hv.
    apply list_elem_of_fmap in Hv as (w & -> & Hw).
    rewrite Forall_forall in Hlt. specialize (Hlt w Hw).
    unfold fine_count, cluster_size. lia.
  - intros Honto l Hlr.
    destruct (put_masked_onto labels (mask_eq coarse i) (map (λ l, base + l) fine) l Hidx Hvals)
      as (r & Hr & E).
    { change (map ?f ?l) with (f <$> l). apply list_elem_of_fmap.
      exists (l - base). split; [lia|].
      apply (Honto _ _ _ _ _ _ Efit). unfold fine_count, cluster_size in Hlr. lia. }
    exists r. by rewrite <- mask_eq_true.
Qed.

Lemma kmeans_inv_init K2 coarse : kmeans_inv KMeans_fit K2 coarse 0 (coarse, 0).
Proof.
  split; [done|]. split; [done|]. split.
  - intros r c _ Hc. lia.
  - intros _ l Hl. unfold offset in Hl. simpl in Hl. lia.
Qed.

Lemma kmeans_inv_step X coarse n_jobs K2 seed i st st' :
  length X = length coarse →
  kmeans_inv KMeans_fit K2 coarse i st →
  refine_cluster KMeans_fit X coarse n_jobs K2 seed st i = Ok st' →
  kmeans_inv KMeans_fit K2 coarse (S i) st'.
Proof using Type*.
  intros HX (Hb & Hl & Hsub & Honto) Hstep.
  destruct st as [labels base], st' as [labels' base']. simpl in *. subst base.
  destruct (refine_cluster_spec _ _ _ _ _ _ _ _ _ _ HX Hl Hstep)
    as (-> & Hl' & Hother & Hthis & Hall).
  split; [by rewrite offset_S|]. split; [done|]. split; simpl.
  - intros r c Hc Hlt. destruct (decide (c = i)) as [->|Hne].
    + destruct (Hthis r Hc) as (l & E & Hr). exists l. split; [done|].
      rewrite offset_S. lia.
    + rewrite (Hother r c Hc Hne). apply Hsub; [done|lia].
  - intros Hon l Hlt. rewrite offset_S in Hlt.
    destruct (decide (l < offset K2 coarse i)) as [Hlo|Hhi].
    + destruct (Honto Hon l Hlo) as (r & c & Hc & Hci & E).
      exists r, c. split; [done|]. split; [lia|].
      rewrite (Hother r c Hc); [done|lia].
    + destruct (Hall Hon l) as (r & Hr & E); [lia|].
      exists r, i. split; [done|]. split; [lia|done].
Qed.

Lemma partition_cells_by_kmeans_spec data rep n_jobs K1 K2 n_init seed labels :
  partition_cells_by_kmeans' data rep n_jobs K1 K2 n_init seed
    = Ok labels →
  ∃ X coarse,
    obsm data !! ("X_" +:+ rep) = Some X ∧
    KMeans_fit K1 (effective_n_jobs n_jobs) n_init seed X = Ok coarse ∧
    kmeans_inv KMeans_fit K2 coarse K1 (labels, offset K2 coarse K1).
Proof using Type*.
  unfold partition_cells_by_kmeans.
  destruct (obsm data !! _) as [X|] eqn:EX; [|done].
  unfold mbind, res_bind.
  destruct (KMeans_fit K1 _ _ _ _) as [coarse|] eqn:Ec; [|done].
  destruct (for_each _ _ _) as [[labels' base]|] eqn:Ef; [|done].
  simpl. intros [= ->]. exists X, coarse. split; [done|]. split; [done|].
  destruct (Hrange _ _ _ _ _ _ Ec) as [HX _].
  assert (kmeans_inv KMeans_fit K2 coarse K1 (labels, base)) as Hinv.
  { apply (for_each_inv (refine_cluster KMeans_fit X coarse (effective_n_jobs n_jobs) K2 seed)
             (kmeans_inv KMeans_fit K2 coarse) K1) with (a := 0) (st := (coarse, 0)).
    - intros i st st' _. by apply kmeans_inv_step.
    - lia.
    - apply kmeans_inv_init.
    - by rewrite Nat.sub_0_r. }
  destruct Hinv as (Hb & ?). simpl in Hb. subst base. by split.
Qed.

(** The call returns when the k-means runs it makes return. *)
Lemma partition_cells_by_kmeans_returns data rep n_jobs K1 K2 n_init seed X coarse :
  obsm data !! ("X_" +:+ rep) = Some X →
  KMeans_fit K1 (effective_n_jobs n_jobs) n_init seed X = Ok coarse →
  (∀ i, i < K1 →
     is_Ok (KMeans_fit (fine_count K2 coarse i) (effective_n_jobs n_jobs) 1 seed
              (masked (mask_eq coarse i) X))) →
  is_Ok (partition_cells_by_kmeans' data rep n_jobs K1 K2 n_init seed).
Proof using Type*.
  intros EX Ec Hfits. unfold partition_cells_by_kmeans. rewrite EX.
  unfold mbind, res_bind at 1. rewrite Ec.
  destruct (Hrange _ _ _ _ _ _ Ec) as [HX _].
  remember (refine_cluster KMeans_fit X coarse (effective_n_jobs n_jobs) K2 seed)
    as body eqn:Hbody.
  assert (∀ k a st, a + k = K1 → length st.1 = length coarse →
            is_Ok (for_each body st (seq a k))) as Hloop.
  { induction k as [|k IH]; intros a [labels base] Ha Hl; simpl; [done|].
    unfold mbind, res_bind.
    destruct (body (labels, base) a) as [[labels' base']|e] eqn:E.
    - apply IH; [lia|]. simpl in *. rewrite Hbody in E.
      by destruct (refine_cluster_spec _ _ _ _ _ _ _ _ _ _ (eq_sym HX) Hl E) as (_ & ? & _).
    - exfalso. revert E. rewrite Hbody. unfold refine_cluster, select_rows, assign_masked.
      rewrite decide_True by (by rewrite mask_eq_length).
      unfold mbind, res_bind.
      specialize (Hfits a ltac:(lia)). unfold fine_count, cluster_size in Hfits.
      destruct (KMeans_fit (K2 `min` _) _ _ _ _) as [fine|] eqn:Efit; [|done].
      destruct (Hrange _ _ _ _ _ _ Efit) as [Hlen _].
      rewrite masked_length in Hlen by (by rewrite mask_eq_length).
      rewrite decide_True by (by rewrite mask_eq_length).
      by rewrite decide_True by (by rewrite length_map). }
  specialize (Hloop K1 0 (coarse, 0) eq_refl eq_refl).
  by destruct (for_each body (coarse, 0) (seq 0 K1)).
Qed.
End KMeansInRange.


(** *** What the drivers change *)

Lemma store_labels_frame class_label m d : frame class_label d (store_labels class_label m d).2.
Proof. apply assign_obs_frame. Qed.

Lemma louvain_frame rep resolution random_state class_label data :
  frame class_label data (louvain' rep resolution random_state class_label data).2.
Proof.
  unfold louvain, mbind, M_bind, get. simpl. case_decide; [apply frame_refl|].
  unfold uns_matrix. repeat case_match; simplify_eq; simpl;
    try apply frame_refl; apply store_labels_frame.
Qed.

Lemma leiden_frame rep resolution n_iter random_state class_label data :
  frame class_label data (leiden' rep resolution n_iter random_state class_label data).2.
Proof.
  unfold leiden, mbind, M_bind, get. simpl. case_decide; [apply frame_refl|].
  unfold uns_matrix. repeat case_match; simplify_eq; simpl;
    try apply frame_refl; apply store_labels_frame.
Qed.

Lemma spectral_body_frame module n_iterations rep resolution rep_kmeans
    n_clusters n_clusters2 n_init n_jobs random_state class_label data :
  frame class_label data
    (spectral_body' module n_iterations rep resolution rep_kmeans
       n_clusters n_clusters2 n_init n_jobs random_state class_label data).2.
Proof.
  unfold spectral_body, mbind, M_bind, get, lift. simpl.
  destruct (partition_cells_by_kmeans _ _ _ _ _ _ _ _ _); [|apply frame_refl].
  unfold uns_matrix. repeat case_match; simplify_eq; simpl;
    try apply frame_refl; apply store_labels_frame.
Qed.

Lemma spectral_frame module n_iterations rep resolution rep_kmeans
    n_clusters n_clusters2 n_init n_jobs random_state class_label data :
  frame class_label data
    (spectral' module n_iterations rep resolution rep_kmeans
       n_clusters n_clusters2 n_init n_jobs random_state class_label data).2.
Proof.
  unfold spectral, mbind, M_bind at 1. rewrite spectral_checks_spec.
  repeat case_decide; try apply frame_refl. apply spectral_body_frame.
Qed.

(** C9. A clustering driver changes nothing of the container but the column
    [class_label] of [obs]: the names of the cells, every matrix of [obsm],
    every slot of [uns] (the affinity matrix among them) and every other
    column of [obs] are, after the call, what they were before it. This holds
    for the four drivers, whether the call returns or raises. *)
Theorem drivers_write_only_class_label
    rep resolution n_iter rep_kmeans n_clusters n_clusters2 n_init n_jobs
    random_state class_label data :
  frame class_label data
    (louvain' rep resolution random_state class_label data).2 ∧
  frame class_label data
    (leiden' rep resolution n_iter random_state class_label data).2 ∧
  frame class_label data
    (spectral_louvain' rep resolution rep_kmeans n_clusters n_clusters2 n_init
       n_jobs random_state class_label data).2 ∧
  frame class_label data
    (spectral_leiden' rep resolution rep_kmeans n_clusters n_clusters2 n_init
       n_jobs random_state class_label data).2.
Proof.
  split; [apply louvain_frame|].
  split; [apply leiden_frame|].
  split; apply spectral_frame.
Qed.

(** *** The labels the drivers store *)

Lemma louvain_labels rep resolution random_state class_label data data' :
  louvain' rep resolution random_state class_label data = (Ok tt, data') →
  ∃ p, labels_stored class_label (membership louvain_module p) data'.
Proof.
  unfold louvain, mbind, M_bind, get. simpl. case_decide; [done|].
  unfold uns_matrix. repeat case_match; simplify_eq; try done.
  intros Hrun. eexists. by eapply store_labels_Ok.
Qed.

Lemma leiden_labels rep resolution n_iter random_state class_label data data' :
  leiden' rep resolution n_iter random_state class_label data = (Ok tt, data') →
  ∃ p, labels_stored class_label (membership leidenalg p) data'.
Proof.
  unfold leiden, mbind, M_bind, get. simpl. case_decide; [done|].
  unfold uns_matrix. repeat case_match; simplify_eq; try done.
  intros Hrun. eexists. by eapply store_labels_Ok.
Qed.

Lemma spectral_labels module n_iterations rep resolution rep_kmeans
    n_clusters n_clusters2 n_init n_jobs random_state class_label data data' :
  spectral' module n_iterations rep resolution rep_kmeans
    n_clusters n_clusters2 n_init n_jobs random_state class_label data = (Ok tt, data') →
  ∃ p, labels_stored class_label (membership module p) data'.
Proof.
  unfold spectral, mbind, M_bind at 1. rewrite spectral_checks_spec.
  repeat case_decide; try done.
  unfold spectral_body, mbind, M_bind, get, lift. simpl.
  destruct (partition_cells_by_kmeans _ _ _ _ _ _ _ _ _); [|done].
  unfold uns_matrix. repeat case_match; simplify_eq; try done.
  intros Hrun. eexists. by eapply store_labels_Ok.
Qed.


(** C8, as amended. [louvain] and [leiden] raise the error "Cannot find
    affinity matrix. Please run neighbors first!" when the affinity matrix of
    the representation is absent. The spectral drivers first look for the
    coordinates k-means runs on: when those of the representation asked for
    and those of PCA are both absent they raise "Please run pca first!",
    whether the affinity matrix is there or not; otherwise, when the affinity
    matrix is absent, they raise the error of [louvain]; otherwise they go on
    with the representation asked for when its coordinates are present and
    with PCA when they are not. No error changes the container. *)
Theorem drivers_missing_inputs
    rep resolution n_iter rep_kmeans n_clusters n_clusters2 n_init n_jobs
    random_state class_label data :
  let no_affinity := uns data !! ("W_" +:+ rep) = None in
  let no_coordinates :=
    obsm data !! ("X_" +:+ rep_kmeans) = None ∧ obsm data !! "X_pca" = None in
  let spectral_ok module n_iterations :=
    let run := spectral' module n_iterations rep resolution rep_kmeans
                 n_clusters n_clusters2 n_init n_jobs random_state class_label data in
    (no_coordinates → run = (Raise pca_error, data)) ∧
    (¬ no_coordinates → no_affinity → run = (Raise neighbors_error, data)) ∧
    (¬ no_coordinates → ¬ no_affinity →
     run = spectral_body' module n_iterations rep resolution
             (if decide (obsm data !! ("X_" +:+ rep_kmeans) = None)
              then "pca" else rep_kmeans)
             n_clusters n_clusters2 n_init n_jobs random_state class_label data) in
  (no_affinity →
   louvain' rep resolution random_state class_label data
   = (Raise neighbors_error, data)) ∧
  (no_affinity →
   leiden' rep resolution n_iter random_state class_label data
   = (Raise neighbors_error, data)) ∧
  spectral_ok louvain_module None ∧
  spectral_ok leidenalg (Some (-1)%Z).
Proof.
  simpl.
  split; [apply louvain_no_affinity|].
  split; [apply leiden_no_affinity|].
  split; (split; [apply spectral_errors|]; split; [apply spectral_errors|]);
    apply spectral_fallback.
Qed.
End ClusteringProperties.

(** *** The drivers on concrete containers *)

Lemma kmeans_by_index_in_range : kmeans_in_range kmeans_by_index.
Proof.
  intros n n_jobs n_init random_state X l. unfold kmeans_by_index.
  case_decide as Hn; [|done]. intros [= <-]. split.
  - by rewrite length_map, length_seq.
  - apply Forall_forall. intros c. change (map ?f ?l) with (f <$> l).
    intros (r & -> & _)%list_elem_of_fmap. lia.
Qed.

Lemma kmeans_coincident_in_range : kmeans_in_range kmeans_coincident.
Proof.
  intros n n_jobs n_init random_state X l. unfold kmeans_coincident.
  case_decide as Hn; [|done]. intros [= <-]. split.
  - by rewrite length_map.
  - apply Forall_forall. intros c. change (map ?f ?l) with (f <$> l).
    intros (r & -> & _)%list_elem_of_fmap. lia.
Qed.





(** C8 on the ten cells, which have PCA coordinates and the affinity matrix
    of PCA only, and on the empty container. *)
Lemma drivers_missing_inputs_witness :
  louvain vertex_count identity_module "rpca" 1.3%R 0%Z "louvain_labels" ten_cells
    = (Raise neighbors_error, ten_cells) ∧
  spectral_louvain vertex_count identity_module (λ z, z) kmeans_by_index
    "rpca" 1.3%R "diffmap" 2 3 10 1%Z 0%Z "spectral_louvain_labels" ten_cells
    = (Raise neighbors_error, ten_cells) ∧
  spectral_leiden vertex_count identity_module (λ z, z) kmeans_by_index
    "pca" 1.3%R "diffmap" 2 3 10 1%Z 0%Z "spectral_leiden_labels" empty_data
    = (Raise pca_error, empty_data).
Proof.
  split; [|split].
  - pose proof (drivers_missing_inputs vertex_count identity_module identity_module
      (λ z, z) kmeans_by_index "rpca" 1.3%R (-1)%Z "diffmap" 2 3 10 1%Z 0%Z
      "louvain_labels" ten_cells) as (H & _).
    apply H. vm_compute; reflexivity.
  - pose proof (drivers_missing_inputs vertex_count identity_module identity_module
      (λ z, z) kmeans_by_index "rpca" 1.3%R (-1)%Z "diffmap" 2 3 10 1%Z 0%Z
      "spectral_louvain_labels" ten_cells) as (_ & _ & (_ & H & _) & _).
    apply H.
    + intros [_ Hpca]. vm_compute in Hpca. discriminate Hpca.
    + vm_compute; reflexivity.
  - pose proof (drivers_missing_inputs vertex_count identity_module identity_module
      (λ z, z) kmeans_by_index "pca" 1.3%R (-1)%Z "diffmap" 2 3 10 1%Z 0%Z
      "spectral_leiden_labels" empty_data) as (_ & _ & _ & (H & _)).
    apply H. split; vm_compute; reflexivity.
Defined.

(** C8 as stated fails for the spectral drivers: with no affinity matrix and
    no coordinates, the error is the one about PCA. *)
Lemma spectral_raises_pca_error_first :
  uns empty_data !! ("W_" +:+ "pca") = None ∧
  spectral_louvain vertex_count identity_module (λ z, z) kmeans_by_index
    "pca" 1.3%R "diffmap" 30 50 10 (-1)%Z 0%Z "spectral_louvain_labels" empty_data
    = (Raise (ValueError "Please run pca first!"), empty_data) ∧
  ValueError "Please run pca first!"
    ≠ ValueError "Cannot find affinity matrix. Please run neighbors first!".
Proof.
  split; [vm_compute; reflexivity|]. split; [vm_compute; reflexivity|]. discriminate.
Qed.

(** ** Pseudo-time *)

Section Pseudotime.
Local Open Scope R_scope.

Lemma calc_pseudotime_absent roots data :
  obsm data !! "X_diffmap" = None →
  calc_pseudotime roots data = (Raise diffmap_error, data).
Proof.
  intros H. unfold calc_pseudotime, mbind, M_bind, get. simpl.
  by rewrite decide_True.
Qed.

Lemma calc_pseudotime_present roots data X :
  obsm data !! "X_diffmap" = Some X →
  calc_pseudotime roots data =
    let data1 := set_uns "roots" (UnsStrings roots) data in
    match pseudotime_values (obs_names data) roots X with
    | Ok v => assign_obs "pseudotime" (FloatColumn v) data1
    | Raise e => (Raise e, data1)
    end.
Proof.
  intros H.
  unfold calc_pseudotime, pseudotime_values, mbind, M_bind, res_bind, get, modify,
    lift, uns_strings, obsm_matrix.
  simpl. rewrite decide_False by (by rewrite H). simpl.
  rewrite lookup_insert_eq. simpl. rewrite H. simpl.
  destruct (select_rows _ _) as [Xr|e]; [|done].
  destruct (euclidean_distances _ _) as [D|e]; [|done].
  destruct (np_min _) as [dmin|e]; [|done].
  by destruct (np_max _) as [dmax|e].
Qed.

(** Errors of the numeric routines are never the error of the missing slot. *)
Lemma pseudotime_values_error names roots X e :
  pseudotime_values names roots X = Raise e → e ≠ diffmap_error.
Proof.
  unfold pseudotime_values, mbind, res_bind, select_rows, euclidean_distances,
    check_array, np_min, np_max, mbind, res_bind.
  repeat (case_match; simplify_eq; try done); intros [= <-]; discriminate.
Qed.


Lemma euclidean_distance_self x : euclidean_distance x x = 0.
Proof.
  unfold euclidean_distance.
  assert (sum_R (zip_with (λ a b, (a - b) * (a - b)) x x) = 0) as ->; [|apply sqrt_0].
  induction x as [|a x IH]; simpl; [done|]. rewrite IH. lra.
Qed.

Lemma euclidean_distance_nonneg x y : 0 <= euclidean_distance x y.
Proof. apply sqrt_pos. Qed.

Lemma foldl_Rmin_spec v x :
  foldl Rmin x v ∈ x :: v ∧ Forall (λ y, foldl Rmin x v <= y) (x :: v).
Proof.
  revert x. induction v as [|y v IH]; intros x; simpl.
  - split; [left|]. constructor; [lra|constructor].
  - destruct (IH (Rmin x y)) as [Hin Hle].
    apply Forall_cons in Hle as [Hm Hle]. split.
    + apply elem_of_cons in Hin as [->|Hin].
      * unfold Rmin. destruct (Rle_dec x y); [left|right; left].
      * right. by right.
    + pose proof (Rmin_l x y). pose proof (Rmin_r x y).
      constructor; [lra|]. constructor; [lra|done].
Qed.

Lemma foldl_Rmax_spec v x :
  foldl Rmax x v ∈ x :: v ∧ Forall (λ y, y <= foldl Rmax x v) (x :: v).
Proof.
  revert x. induction v as [|y v IH]; intros x; simpl.
  - split; [left|]. constructor; [lra|constructor].
  - destruct (IH (Rmax x y)) as [Hin Hle].
    apply Forall_cons in Hle as [Hm Hle]. split.
    + apply elem_of_cons in Hin as [->|Hin].
      * unfold Rmax. destruct (Rle_dec x y); [right; left|left].
      * right. by right.
    + pose proof (Rmax_l x y). pose proof (Rmax_r x y).
      constructor; [lra|]. constructor; [lra|done].
Qed.

Lemma np_min_spec v m :
  np_min v = Ok m → m ∈ v ∧ Forall (λ y, m <= y) v.
Proof. destruct v; [done|]. intros [= <-]. apply foldl_Rmin_spec. Qed.

Lemma np_max_spec v m :
  np_max v = Ok m → m ∈ v ∧ Forall (λ y, y <= m) v.
Proof. destruct v; [done|]. intros [= <-]. apply foldl_Rmax_spec. Qed.

Lemma masked_all {A} idx (X : list A) :
  length idx = length X → Forall (λ b, b = true) idx → masked idx X = X.
Proof.
  revert X. induction idx as [|b idx IH]; intros [|x X] Hl Hall; simpl in *; try done.
  apply Forall_cons in Hall as [-> Hall]. f_equal. apply IH; [lia|done].
Qed.

Lemma masked_none {A} idx (X : list A) :
  Forall (λ b, b = false) idx → masked idx X = [].
Proof.
  revert X. induction idx as [|b idx IH]; intros [|x X] Hall; simpl in *; try done.
  apply Forall_cons in Hall as [-> Hall]. by apply IH.
Qed.

Lemma map_nth_seq {A B} (f : A → B) (X : list A) d :
  map (λ j, f (nth j X d)) (seq 0 (length X)) = map f X.
Proof.
  induction X as [|x X IH]; simpl; [done|]. f_equal.
  rewrite <- seq_shift, map_map. exact IH.
Qed.

(** When every cell is a root, the distances are the mean distances to all
    the cells. *)
Lemma np_mean0_all_pairs X :
  X ≠ [] →
  np_mean0 (map (λ x, map (λ y, euclidean_distance x y) X) X) = map (mean_distance X) X.
Proof.
  intros HX. unfold np_mean0, col_sums, mean_distance.
  rewrite length_map, map_map.
  assert (width (map (λ x, map (λ y, euclidean_distance x y) X) X) = length X) as ->.
  { destruct X; [done|]. simpl. by rewrite length_map. }
  rewrite <- (map_nth_seq (λ y, sum_R (map (λ x, euclidean_distance x y) X) / INR (length X)) X []).
  apply map_ext_in. intros j Hj%in_seq. f_equal. f_equal.
  rewrite map_map. apply map_ext. intros x.
  rewrite (nth_indep _ 0 (euclidean_distance x [])) by (rewrite length_map; lia).
  apply (map_nth (λ y, euclidean_distance x y)).
Qed.

Lemma np_isin_all names roots :
  (∀ n, n ∈ names → n ∈ roots) → Forall (λ b, b = true) (np_isin names roots).
Proof.
  intros H. unfold np_isin. apply Forall_forall. intros b.
  change (map ?f ?l) with (f <$> l). intros (n & -> & Hn)%list_elem_of_fmap.
  apply bool_decide_eq_true. by apply H.
Qed.

Lemma np_isin_none names roots :
  (∀ n, n ∈ names → n ∉ roots) → Forall (λ b, b = false) (np_isin names roots).
Proof.
  intros H. unfold np_isin. apply Forall_forall. intros b.
  change (map ?f ?l) with (f <$> l). intros (n & -> & Hn)%list_elem_of_fmap.
  apply bool_decide_eq_false. by apply H.
Qed.

Lemma np_isin_length names roots : length (np_isin names roots) = length names.
Proof. apply length_map. Qed.

Lemma check_array_Ok X Y : check_array X = Ok Y → Y = X ∧ X ≠ [].
Proof. unfold check_array. repeat case_match; naive_solver. Qed.

Lemma pseudotime_values_all_roots names roots X :
  length X = length names →
  (∀ n, n ∈ names → n ∈ roots) →
  check_array X = Ok X →
  ∃ dmin dmax,
    np_min (map (mean_distance X) X) = Ok dmin ∧
    np_max (map (mean_distance X) X) = Ok dmax ∧
    pseudotime_values names roots X
    = Ok (min_max_scale (map (mean_distance X) X) dmin dmax).
Proof.
  intros Hlen Hroots Hcheck.
  destruct (check_array_Ok _ _ Hcheck) as [_ HX].
  unfold pseudotime_values, select_rows, euclidean_distances, mbind, res_bind, mret, res_ret.
  rewrite decide_True by (by rewrite np_isin_length).
  rewrite masked_all by (by rewrite ?np_isin_length; try apply np_isin_all).
  rewrite Hcheck, decide_True by done.
  rewrite np_mean0_all_pairs by done.
  destruct X as [|x X]; [done|]. simpl.
  eexists _, _. split; [done|]. split; [done|]. done.
Qed.

Lemma min_max_scale_range v dmin dmax :
  np_min v = Ok dmin → np_max v = Ok dmax → dmin < dmax →
  Forall (λ p, 0 <= p <= 1) (min_max_scale v dmin dmax) ∧
  0 ∈ min_max_scale v dmin dmax ∧ 1 ∈ min_max_scale v dmin dmax.
Proof.
  intros [Hmin_in Hmin]%np_min_spec [Hmax_in Hmax]%np_max_spec Hlt.
  unfold min_max_scale. change (map ?f ?l) with (f <$> l). split; [|split].
  - apply Forall_fmap, Forall_forall. intros x Hx. simpl.
    rewrite Forall_forall in Hmin, Hmax. specialize (Hmin x Hx). specialize (Hmax x Hx).
    split.
    + apply Rmult_le_pos; [lra|]. left. apply Rinv_0_lt_compat. lra.
    + apply Rmult_le_reg_r with (dmax - dmin); [lra|].
      unfold Rdiv. rewrite Rmult_assoc, Rinv_l by lra. lra.
  - apply list_elem_of_fmap. exists dmin. split; [|done]. unfold Rdiv. lra.
  - apply list_elem_of_fmap. exists dmax. split; [|done]. field. lra.
Qed.


(** C10, as amended. [calc_pseudotime] raises "Please run diffmap first!"
    if and only if the slot [X_diffmap] is absent, and then leaves the
    container as it is. When the slot is present the roots are stored under
    [roots] whatever they are, and the numbers are computed from them with
    no check: the call returns, or raises the error of the numeric routine
    that fails. In particular, with coordinates for each cell and no root
    among the names of the cells, the set of roots is empty and the call
    ends in the distance computation, on the error of scikit-learn for an
    array without rows, the roots being stored. *)
Theorem pseudotime_checks_only_diffmap roots data :
  (obsm data !! "X_diffmap" = None ↔
   (calc_pseudotime roots data).1 = Raise diffmap_error) ∧
  (obsm data !! "X_diffmap" = None →
   calc_pseudotime roots data = (Raise diffmap_error, data)) ∧
  (∀ X, obsm data !! "X_diffmap" = Some X →
     uns (calc_pseudotime roots data).2 !! "roots" = Some (UnsStrings roots) ∧
     calc_pseudotime roots data =
       match pseudotime_values (obs_names data) roots X with
       | Ok v => assign_obs "pseudotime" (FloatColumn v)
                   (set_uns "roots" (UnsStrings roots) data)
       | Raise e => (Raise e, set_uns "roots" (UnsStrings roots) data)
       end) ∧
  (∀ X, obsm data !! "X_diffmap" = Some X →
     length X = length (obs_names data) →
     (∀ n, n ∈ obs_names data → n ∉ roots) →
     calc_pseudotime roots data =
       (Raise (ValueError "Found array with 0 sample(s) while a minimum of 1 is required."),
        set_uns "roots" (UnsStrings roots) data)).
Proof.
  assert (Hstate : ∀ X, obsm data !! "X_diffmap" = Some X →
            uns (calc_pseudotime roots data).2 !! "roots" = Some (UnsStrings roots)).
  { intros X HX. rewrite (calc_pseudotime_present _ _ _ HX). simpl.
    destruct (pseudotime_values _ _ _) as [v|e]; simpl.
    - destruct (assign_obs_cases "pseudotime" (FloatColumn v)
                  (set_uns "roots" (UnsStrings roots) data)) as [[_ ->] | [_ [e ->]]];
        simpl; apply lookup_insert_eq.
    - apply lookup_insert_eq. }
  split; [split|split; [|split]].
  - intros H. by rewrite calc_pseudotime_absent.
  - intros H. destruct (obsm data !! "X_diffmap") as [X|] eqn:HX; [exfalso|done].
    rewrite (calc_pseudotime_present _ _ _ HX) in H. simpl in H.
    destruct (pseudotime_values _ _ _) as [v|e] eqn:Ev; simpl in H.
    + unfold assign_obs in H. case_decide; simpl in H; [done|]. discriminate H.
    + injection H as ->. by eapply pseudotime_values_error.
  - apply calc_pseudotime_absent.
  - intros X HX. split; [by eapply Hstate|]. by apply calc_pseudotime_present.
  - intros X HX Hlen Hnone. rewrite (calc_pseudotime_present _ _ _ HX). simpl.
    unfold pseudotime_values, select_rows.
    rewrite decide_True by (by rewrite np_isin_length).
    by rewrite masked_none by (by apply np_isin_none).
Qed.
End Pseudotime.

(** *** Pseudo-time on three cells *)

Section PseudotimeExamples.
Local Open Scope R_scope.

Lemma euclidean_distance_1d a b : euclidean_distance [a] [b] = Rabs (a - b).
Proof.
  unfold euclidean_distance. simpl. rewrite Rplus_0_r. apply sqrt_Rsqr_abs.
Qed.

Lemma three_cells_distances :
  map (mean_distance [[0]; [1]; [3]]) [[0]; [1]; [3]] = [4 / 3; 1; 5 / 3].
Proof.
  unfold mean_distance. simpl. rewrite !euclidean_distance_1d.
  replace (Rabs (0 - 0)) with 0 by (rewrite Rabs_pos_eq; lra).
  replace (Rabs (1 - 0)) with 1 by (rewrite Rabs_pos_eq; lra).
  replace (Rabs (3 - 0)) with 3 by (rewrite Rabs_pos_eq; lra).
  replace (Rabs (0 - 1)) with 1 by (rewrite Rabs_left; lra).
  replace (Rabs (1 - 1)) with 0 by (rewrite Rabs_pos_eq; lra).
  replace (Rabs (3 - 1)) with 2 by (rewrite Rabs_pos_eq; lra).
  replace (Rabs (0 - 3)) with 3 by (rewrite Rabs_left; lra).
  replace (Rabs (1 - 3)) with 2 by (rewrite Rabs_left; lra).
  replace (Rabs (3 - 3)) with 0 by (rewrite Rabs_pos_eq; lra).
  simpl. f_equal; [lra|]. f_equal; [lra|]. f_equal; lra.
Qed.

Lemma three_cells_pseudotime :
  pseudotime_values ["a"; "b"; "c"] ["a"; "b"; "c"] [[0]; [1]; [3]] = Ok [1 / 2; 0; 1].
Proof.
  destruct (pseudotime_values_all_roots ["a"; "b"; "c"] ["a"; "b"; "c"] [[0]; [1]; [3]])
    as (dmin & dmax & Hmin & Hmax & ->); [done..|].
  rewrite three_cells_distances in *. simpl in Hmin, Hmax.
  injection Hmin as <-. injection Hmax as <-.
  assert (Rmin (Rmin (4 / 3) 1) (5 / 3) = 1) as ->.
  { unfold Rmin. repeat destruct (Rle_dec _ _); lra. }
  assert (Rmax (Rmax (4 / 3) 1) (5 / 3) = 5 / 3) as ->.
  { unfold Rmax. repeat destruct (Rle_dec _ _); lra. }
  unfold min_max_scale. simpl.
  replace ((4 / 3 - 1) / (5 / 3 - 1)) with (1 / 2) by field.
  replace ((1 - 1) / (5 / 3 - 1)) with 0 by field.
  replace ((5 / 3 - 1) / (5 / 3 - 1)) with 1 by field.
  done.
Qed.


(** C10 as stated fails on the three cells and a root that is no cell: the
    slot [X_diffmap] is present and the call raises. *)
Lemma pseudotime_unmatched_roots_raise :
  obsm three_cells !! "X_diffmap" = Some [[0]; [1]; [3]] ∧
  calc_pseudotime ["z"] three_cells
  = (Raise (ValueError "Found array with 0 sample(s) while a minimum of 1 is required."),
     set_uns "roots" (UnsStrings ["z"]) three_cells).
Proof.
  split; [done|].
  rewrite (calc_pseudotime_present _ _ [[0]; [1]; [3]]) by done.
  reflexivity.
Qed.


(** C10 on the three cells with a root that is no cell, and on the empty
    container. *)
Lemma pseudotime_checks_only_diffmap_witness :
  calc_pseudotime ["z"] three_cells
  = (Raise (ValueError "Found array with 0 sample(s) while a minimum of 1 is required."),
     set_uns "roots" (UnsStrings ["z"]) three_cells) ∧
  calc_pseudotime ["a"] empty_data = (Raise diffmap_error, empty_data).
Proof.
  split.
  - destruct (pseudotime_checks_only_diffmap ["z"] three_cells) as (_ & _ & _ & H).
    apply (H [[0]; [1]; [3]]).
    + reflexivity.
    + reflexivity.
    + intros n Hn. simpl in Hn. set_solver.
  - destruct (pseudotime_checks_only_diffmap ["a"] empty_data) as (_ & H & _).
    apply H. reflexivity.
Defined.
End PseudotimeExamples.


(** ** Sparse matrices *)

Section SparseFacts.
Local Open Scope R_scope.

Lemma entry_of_cons e l p :
  entry_of (e :: l) p = (if decide (e.1 = p) then e.2 else 0) + entry_of l p.
Proof.
  unfold entry_of. rewrite filter_cons. case_decide; simpl; lra.
Qed.

Lemma entry_of_app l1 l2 p : entry_of (l1 ++ l2) p = entry_of l1 p + entry_of l2 p.
Proof.
  induction l1 as [|e l1 IH]; simpl.
  - unfold entry_of at 2. simpl. lra.
  - rewrite !entry_of_cons, IH. lra.
Qed.

Lemma entry_of_insert p x l q :
  entry_of (insert_entry p x l) q = (if decide (p = q) then x else 0) + entry_of l q.
Proof.
  induction l as [|[q' y] l IH]; simpl.
  - rewrite entry_of_cons. simpl. unfold entry_of. simpl. done.
  - destruct (decide (p = q')) as [->|Hp].
    + rewrite !entry_of_cons. simpl. destruct (decide (q' = q)); lra.
    + destruct (pos_lt p q').
      * rewrite !entry_of_cons. simpl. done.
      * rewrite !entry_of_cons, IH. simpl. lra.
Qed.

Lemma entry_of_foldl acc l q :
  entry_of (foldl (λ acc e, insert_entry e.1 e.2 acc) acc l) q
  = entry_of acc q + entry_of l q.
Proof.
  revert acc. induction l as [|e l IH]; intros acc; simpl.
  - unfold entry_of at 3. simpl. lra.
  - rewrite IH, entry_of_insert, entry_of_cons. lra.
Qed.

Lemma entry_of_coalesce l q : entry_of (coalesce l) q = entry_of l q.
Proof.
  unfold coalesce. rewrite entry_of_foldl. unfold entry_of at 1. simpl. lra.
Qed.

Lemma positions_insert p x l q :
  q ∈ map fst (insert_entry p x l) ↔ q = p ∨ q ∈ map fst l.
Proof.
  induction l as [|[q' y] l IH]; simpl.
  - rewrite elem_of_cons, !elem_of_nil. naive_solver.
  - destruct (decide (p = q')) as [->|Hp].
    + simpl. rewrite !elem_of_cons. naive_solver.
    + destruct (pos_lt p q'); simpl; rewrite !elem_of_cons; [naive_solver|].
      rewrite IH. naive_solver.
Qed.

Lemma positions_foldl acc l q :
  q ∈ map fst (foldl (λ acc e, insert_entry e.1 e.2 acc) acc l)
  ↔ q ∈ map fst acc ∨ q ∈ map fst l.
Proof.
  revert acc. induction l as [|e l IH]; intros acc; simpl.
  - rewrite elem_of_nil. naive_solver.
  - rewrite IH, positions_insert, elem_of_cons. naive_solver.
Qed.

Lemma positions_coalesce l q : q ∈ map fst (coalesce l) ↔ q ∈ map fst l.
Proof.
  unfold coalesce. rewrite positions_foldl. simpl. rewrite elem_of_nil. naive_solver.
Qed.

Lemma pos_lt_irrefl p : pos_lt p p = false.
Proof.
  unfold pos_lt. destruct p as [a b]. simpl.
  rewrite Nat.ltb_irrefl, Nat.eqb_refl. simpl. apply Nat.ltb_irrefl.
Qed.

Lemma pos_lt_asym p q : pos_lt p q = true → pos_lt q p = false.
Proof.
  unfold pos_lt. destruct p as [a b], q as [c d]. simpl.
  intros H. apply orb_true_iff in H as [H|H].
  - apply Nat.ltb_lt in H. apply orb_false_iff. split.
    + apply Nat.ltb_ge. lia.
    + apply andb_false_iff. left. apply Nat.eqb_neq. lia.
  - apply andb_true_iff in H as [H1 H2].
    apply Nat.eqb_eq in H1. apply Nat.ltb_lt in H2. subst. apply orb_false_iff. split.
    + apply Nat.ltb_irrefl.
    + apply andb_false_iff. right. apply Nat.ltb_ge. lia.
Qed.

Lemma insert_entry_last p x l :
  Forall (λ e, pos_lt e.1 p = true) l → insert_entry p x l = l ++ [(p, x)].
Proof.
  induction 1 as [|[q y] l Hq Hl IH]; simpl; [done|]. simpl in Hq.
  rewrite decide_False.
  - rewrite (pos_lt_asym _ _ Hq). by rewrite IH.
  - intros ->. by rewrite pos_lt_irrefl in Hq.
Qed.

Lemma pos_lt_trans p q r : pos_lt p q = true → pos_lt q r = true → pos_lt p r = true.
Proof.
  unfold pos_lt. destruct p as [a b], q as [c d], r as [e f]. simpl.
  rewrite !orb_true_iff, !andb_true_iff, !Nat.ltb_lt, !Nat.eqb_eq. lia.
Qed.

Lemma foldl_insert_sorted acc l :
  StronglySorted (λ p q, pos_lt p q = true) (map fst (acc ++ l)) →
  foldl (λ acc e, insert_entry e.1 e.2 acc) acc l = acc ++ l.
Proof.
  revert acc. induction l as [|[p x] l IH]; intros acc Hs; simpl.
  - by rewrite app_nil_r.
  - rewrite insert_entry_last.
    + rewrite IH; rewrite <- app_assoc; done.
    + rewrite map_app in Hs. simpl in Hs.
      apply Forall_forall. intros e He.
      assert (Hlt : ∀ l1 (q : nat * nat) l2,
        StronglySorted (λ p q, pos_lt p q = true) (l1 ++ q :: l2) →
        ∀ a, a ∈ l1 → pos_lt a q = true).
      { clear. induction l1 as [|b l1 IH]; intros q l2 Hs a Ha.
        - by apply elem_of_nil in Ha.
        - simpl in Hs. apply StronglySorted_inv in Hs as [Hs Hb].
          apply elem_of_cons in Ha as [->|Ha].
          + rewrite Forall_forall in Hb. apply Hb. apply elem_of_app. right. left.
          + by eapply IH. }
      apply (Hlt _ _ _ Hs). change (map ?f ?l) with (f <$> l).
      apply list_elem_of_fmap. by exists e.
Qed.

Lemma coalesce_canonical l :
  StronglySorted (λ p q, pos_lt p q = true) (map fst l) → coalesce l = l.
Proof. intros H. unfold coalesce. by rewrite foldl_insert_sorted. Qed.

Lemma zip_unzip (es : list (nat * nat * R)) :
  zip (zip (map (λ e, e.1.1) es) (map (λ e, e.1.2) es)) (map snd es) = es.
Proof. induction es as [|[[r c] x] es IH]; simpl; [done|]. by rewrite IH. Qed.

Lemma map_fst_zip {A B} (l : list A) (k : list B) :
  length l = length k → map fst (zip l k) = l.
Proof.
  revert k. induction l as [|a l IH]; intros [|b k] H; simpl in *; try done.
  f_equal. apply IH. lia.
Qed.

Lemma take_at_Ok (v : vector) ix :
  Forall (λ i, (i < length v)%nat) ix → take_at v ix = Ok (map (λ i, nth i v 0) ix).
Proof.
  induction 1 as [|i ix Hi _ IH]; simpl; [done|].
  destruct (v !! i) as [x|] eqn:E.
  - rewrite IH. simpl. unfold mret, res_ret. do 2 f_equal.
    symmetry. by apply nth_lookup_Some.
  - apply lookup_ge_None in E. lia.
Qed.

Lemma zip_normalized (f g : nat → R) row col (d : vector) :
  length row = length col → length d = length row →
  zip (zip row col) (zip_with Rdiv (zip_with Rdiv d (map f row)) (map g col))
  = map (λ e, (e.1, e.2 / f e.1.1 / g e.1.2)) (zip (zip row col) d).
Proof.
  revert col d. induction row as [|r row IH]; intros [|c col] [|x d] H1 H2;
    simpl in *; try done.
  f_equal. apply IH; lia.
Qed.

Lemma entry_of_normalized (f g : nat → R) l i j :
  entry_of (map (λ e, (e.1, e.2 / f e.1.1 / g e.1.2)) l) (i, j)
  = entry_of l (i, j) / (f i * g j).
Proof.
  induction l as [|[[r c] x] l IH]; simpl.
  - unfold entry_of. simpl. unfold Rdiv. lra.
  - rewrite !entry_of_cons, IH. simpl. case_decide as E.
    + injection E as -> ->. unfold Rdiv. rewrite Rinv_mult. lra.
    + unfold Rdiv. lra.
Qed.
End SparseFacts.

(** ** Normalized affinity *)

Section NormalizedAffinity.
Context {rng : Type}.
Local Open Scope R_scope.

Lemma row_sums_length W : length (row_sums W) = sp_nrows W.
Proof. unfold row_sums. by rewrite length_map, length_seq. Qed.

Lemma buffer_insert (h : gmap loc vector) (g : rng) l v :
  buffer {| heap := <[l := v]> h; np_random := g |} l = v.
Proof. unfold buffer. simpl. by rewrite lookup_insert_eq. Qed.

Lemma calculate_normalized_affinity_spec (σ : np_state rng) W :
  wf_sparse σ W → sp_ncols W = sp_nrows W →
  let d := row_sums (snapshot σ W) in
  let dh := map sqrt d in
  ∃ Wn σ',
    calculate_normalized_affinity W σ = (Ok (Wn, d, dh), σ') ∧
    sp_nrows Wn = sp_nrows W ∧ sp_ncols Wn = sp_ncols W ∧
    (let es := coalesce (normalized dh (entries (snapshot σ W))) in
     sp_row Wn = map (λ e, e.1.1) es ∧ sp_col Wn = map (λ e, e.1.2) es ∧
     buffer σ' (sp_data Wn) = map snd es) ∧
    (∀ l, is_Some (heap σ !! l) → heap σ' !! l = heap σ !! l) ∧
    np_random σ' = np_random σ.
Proof.
  intros (Hsome & Hrc & Hlen & Hrow & Hcol) Hsq d dh.
  assert (Hdh : length dh = sp_nrows W).
  { unfold dh, d. by rewrite length_map, row_sums_length. }
  unfold calculate_normalized_affinity, view, tocoo, tocsr, idiv, read, alloc, write,
    lift, raise, mbind, M_bind, mret, M_ret. simpl.
  fold d. fold dh.
  rewrite take_at_Ok by (by rewrite Hdh).
  rewrite buffer_insert.
  rewrite decide_True by (by rewrite length_map).
  rewrite take_at_Ok by (by rewrite Hdh, <- Hsq).
  rewrite buffer_insert.
  rewrite decide_True by (rewrite length_zip_with, !length_map; lia).
  eexists _, _. split; [reflexivity|]. simpl.
  split; [done|]. split; [done|].
  set (es := coalesce _).
  assert (Hes : es = coalesce (normalized dh (entries (snapshot σ W)))).
  { unfold es, entries, snapshot. simpl. rewrite buffer_insert.
    f_equal. by apply (zip_normalized (λ i, nth i dh 0) (λ i, nth i dh 0)). }
  split; [|split].
  - cbv zeta. rewrite <- Hes. rewrite buffer_insert. done.
  - intros l Hl. rewrite !insert_insert_eq.
    assert (Hl1 : fresh (dom (heap σ)) ≠ l).
    { intros <-. apply (is_fresh (dom (heap σ))). by apply elem_of_dom. }
    match goal with |- <[?l2 := _]> ?h !! _ = _ =>
      assert (Hl2 : l2 ≠ l);
      [ intros <-; apply (is_fresh (dom h)); apply elem_of_dom;
        by rewrite lookup_insert_ne | ]
    end.
    by rewrite !lookup_insert_ne.
  - done.
Qed.

Lemma sum_R_app l1 l2 : sum_R (l1 ++ l2) = sum_R l1 + sum_R l2.
Proof. induction l1 as [|x l1 IH]; simpl; [lra|]. rewrite IH. lra. Qed.

Lemma sum_R_indicator_out (c : nat) (x : R) l :
  c ∉ l → sum_R (map (λ j, if decide (c = j) then x else 0) l) = 0.
Proof.
  induction l as [|j l IH]; intros Hc; simpl; [done|].
  apply not_elem_of_cons in Hc as [Hj Hc].
  rewrite decide_False by done. rewrite IH by done. lra.
Qed.

Lemma sum_R_indicator (c m : nat) (x : R) :
  (c < m)%nat →
  sum_R (map (λ j, if decide (c = j) then x else 0) (seq 0 m)) = x.
Proof.
  intros Hc. induction m as [|m IH]; [lia|].
  rewrite seq_S, map_app, sum_R_app. simpl.
  destruct (decide (c = m)) as [->|Hne].
  - rewrite sum_R_indicator_out; [lra|].
    rewrite elem_of_seq. lia.
  - rewrite IH by lia. lra.
Qed.

Lemma sum_R_zero {A} (l : list A) : sum_R (map (λ _, 0) l) = 0.
Proof. induction l as [|a l IH]; simpl; [done|]. rewrite IH. lra. Qed.

Lemma sum_R_plus {A} (f g : A → R) l :
  sum_R (map (λ a, f a + g a) l) = sum_R (map f l) + sum_R (map g l).
Proof. induction l as [|a l IH]; simpl; [lra|]. rewrite IH. lra. Qed.

Lemma row_sum_entry_of (es : list (nat * nat * R)) (i m : nat) :
  Forall (λ e : nat * nat * R, (e.1.2 < m)%nat) es →
  sum_R (map snd (filter (λ e, e.1.1 = i) es))
  = sum_R (map (λ j, entry_of es (i, j)) (seq 0 m)).
Proof.
  induction 1 as [|[[r c] x] es Hc _ IH]; simpl in *.
  - unfold entry_of. simpl. by rewrite sum_R_zero.
  - rewrite filter_cons. simpl.
    rewrite (map_ext _ (λ j, (if decide (r = i) then if decide (c = j) then x else 0 else 0)
                             + entry_of es (i, j))).
    2:{ intros j. rewrite entry_of_cons. simpl.
        destruct (decide (r = i)) as [->|Hr].
        - destruct (decide (c = j)) as [->|Hcj].
          + by rewrite decide_True.
          + rewrite decide_False; [done|]. congruence.
        - rewrite decide_False; [done|]. congruence. }
    rewrite sum_R_plus, <- IH.
    destruct (decide (r = i)) as [->|Hr]; simpl.
    + rewrite sum_R_indicator by done. done.
    + rewrite sum_R_zero. lra.
Qed.

(** A row sum is the sum of the entries of the row. *)
Lemma row_sums_entries (W : csr_matrix) i :
  Forall (λ j, (j < sp_ncols W)%nat) (sp_col W) →
  (i < sp_nrows W)%nat →
  row_sums W !! i = Some (sum_R (map (λ j, entry W i j) (seq 0 (sp_ncols W)))).
Proof.
  intros Hcol Hi. unfold row_sums. change (map ?f ?l) with (f <$> l) at 1.
  rewrite list_lookup_fmap, lookup_seq_lt by done. simpl. f_equal.
  apply row_sum_entry_of.
  unfold entries. apply Forall_forall. intros [[r c] x] He. simpl.
  apply elem_of_zip_l, elem_of_zip_r in He.
  rewrite Forall_forall in Hcol. by apply Hcol.
Qed.

Lemma normalized_positions dh l : map fst (normalized dh l) = map fst l.
Proof. unfold normalized. rewrite map_map. done. Qed.

(** C7. Let [W] be a square sparse matrix whose data are in a numpy buffer,
    with all its row sums positive. [calculate_normalized_affinity] returns
    [(W_norm, d, d_half)] where [d] is the vector of the row sums of [W] (the
    sum of the entries of each row), [d_half] its element-wise square root,
    positive, and [W_norm[i, j] = W[i, j] / (d_half[i] * d_half[j])] for all
    [i] and [j]. [W_norm] has an entry stored at a position exactly when [W]
    has one, and has the very index arrays of [W] when [W] is in canonical
    format. The call modifies no buffer that existed before it: [W] is after
    the call what it was before. *)
Theorem normalized_affinity_spec (σ : np_state rng) W :
  wf_sparse σ W → sp_ncols W = sp_nrows W →
  Forall (λ x, 0 < x) (row_sums (snapshot σ W)) →
  let d := row_sums (snapshot σ W) in
  let dh := map sqrt d in
  ∃ Wn σ',
    calculate_normalized_affinity W σ = (Ok (Wn, d, dh), σ') ∧
    (∀ i, (i < sp_nrows W)%nat →
       d !! i = Some (sum_R (map (λ j, entry (snapshot σ W) i j) (seq 0 (sp_ncols W))))) ∧
    Forall (λ x, 0 < x) dh ∧
    sp_nrows Wn = sp_nrows W ∧ sp_ncols Wn = sp_ncols W ∧
    (∀ i j, entry (snapshot σ' Wn) i j
            = entry (snapshot σ W) i j / (nth i dh 0 * nth j dh 0)) ∧
    (∀ i j, stored Wn i j ↔ stored W i j) ∧
    (canonical W → sp_row Wn = sp_row W ∧ sp_col Wn = sp_col W) ∧
    snapshot σ' W = snapshot σ W ∧
    (∀ l, is_Some (heap σ !! l) → heap σ' !! l = heap σ !! l).
Proof.
  intros Hwf Hsq Hpos d dh.
  destruct (calculate_normalized_affinity_spec σ W Hwf Hsq)
    as (Wn & σ' & Hrun & Hr & Hc & (Hrow & Hcol & Hdata) & Hheap & _).
  destruct Hwf as (Hsome & Hrc & Hlen & Hrows & Hcols).
  fold d in Hrun, Hrow, Hcol, Hdata. fold dh in Hrun, Hrow, Hcol, Hdata.
  set (es := coalesce (normalized dh (entries (snapshot σ W)))) in *.
  assert (Hentries : entries (snapshot σ' Wn) = es).
  { unfold entries. simpl. rewrite Hrow, Hcol, Hdata. apply zip_unzip. }
  assert (Hpositions : zip (sp_row Wn) (sp_col Wn) = map fst es).
  { rewrite Hrow, Hcol. clear. induction es as [|[[r c] x] es IH]; simpl; [done|].
    by rewrite IH. }
  assert (Hpos0 : map fst (entries (snapshot σ W)) = zip (sp_row W) (sp_col W)).
  { unfold entries. simpl. apply map_fst_zip. rewrite length_zip. lia. }
  exists Wn, σ'. split; [done|]. split.
  { intros i Hi. by apply row_sums_entries. }
  split.
  { unfold dh. change (map ?f ?l) with (f <$> l). apply Forall_fmap.
    eapply Forall_impl; [exact Hpos|]. intros x Hx. simpl. by apply sqrt_lt_R0. }
  split; [done|]. split; [done|]. split; [|split; [|split; [|split]]].
  - intros i j. unfold entry. rewrite Hentries.
    fold (entry_of es (i, j)). fold (entry_of (entries (snapshot σ W)) (i, j)).
    unfold es. rewrite entry_of_coalesce. unfold normalized.
    apply (entry_of_normalized (λ i, nth i dh 0) (λ j, nth j dh 0)).
  - intros i j. unfold stored. rewrite Hpositions. unfold es.
    by rewrite positions_coalesce, normalized_positions, Hpos0.
  - intros Hcan. unfold canonical in Hcan.
    assert (es = normalized dh (entries (snapshot σ W))) as Hes.
    { unfold es. apply coalesce_canonical. by rewrite normalized_positions, Hpos0. }
    rewrite Hrow, Hcol, Hes. unfold normalized. rewrite !map_map. simpl.
    unfold entries. simpl. split.
    + rewrite <- (map_map fst fst), map_fst_zip, map_fst_zip; [done|lia|].
      rewrite length_zip. lia.
    + rewrite <- (map_map fst snd), map_fst_zip by (rewrite length_zip; lia).
      clear -Hrc. revert Hrc. generalize (sp_col W).
      induction (sp_row W) as [|r rows IH]; intros [|c cols] H; simpl in *; try done.
      f_equal. apply IH. lia.
  - unfold snapshot. f_equal. unfold buffer. by rewrite Hheap.
  - done.
Qed.
End NormalizedAffinity.

(** ** Strongly connected graphs *)

Lemma iter_0 {A} (f : A → A) (x : A) : Nat.iter 0 f x = x.
Proof. done. Qed.

Section StrongComponents.
Context {D : Type} (W : sparse D).
Hypothesis Hcol : Forall (λ j, j < sp_nrows W) (sp_col W).

Lemma elem_of_successors u v : v ∈ successors W u ↔ edge W u v.
Proof.
  unfold successors, edge, stored. change (map ?f ?l) with (f <$> l).
  rewrite list_elem_of_fmap. split.
  - intros ([a b] & -> & [Hab Hin]%list_elem_of_filter). simpl in *. by subst.
  - intros H. exists (u, v). split; [done|]. by apply list_elem_of_filter.
Qed.

Lemma edge_target u v : edge W u v → v < sp_nrows W.
Proof using Hcol.
  unfold edge, stored. intros H%elem_of_zip_r.
  rewrite Forall_forall in Hcol. by apply Hcol.
Qed.

Lemma elem_of_reach_step s v :
  v ∈ reach_step W s ↔ v ∈ s ∨ ∃ u, u ∈ s ∧ edge W u v.
Proof.
  unfold reach_step. rewrite elem_of_union, elem_of_list_to_set, list_elem_of_bind.
  setoid_rewrite elem_of_successors. setoid_rewrite elem_of_elements.
  naive_solver.
Qed.

Lemma reach_step_subseteq s : s ⊆ reach_step W s.
Proof. intros v Hv. apply elem_of_reach_step. by left. Qed.

Lemma reach_iter_sound u m v :
  v ∈ Nat.iter m (reach_step W) {[ u ]} → rtc (edge W) u v.
Proof.
  revert v. induction m as [|m IH]; intros v.
  - rewrite iter_0. intros ->%elem_of_singleton. done.
  - rewrite Nat.iter_succ.
    intros [Hv | (w & Hw & He)]%elem_of_reach_step; [by apply IH|].
    eapply rtc_r; [by apply IH|done].
Qed.

Lemma reach_iter_bounded u m :
  u < sp_nrows W →
  Nat.iter m (reach_step W) {[ u ]} ⊆ set_seq 0 (sp_nrows W).
Proof using Hcol.
  intros Hu. induction m as [|m IH].
  - rewrite iter_0. intros v ->%elem_of_singleton. apply elem_of_set_seq. lia.
  - rewrite Nat.iter_succ.
    intros v [Hv | (w & Hw & He)]%elem_of_reach_step; [by apply IH|].
    apply elem_of_set_seq. apply edge_target in He. lia.
Qed.

(** After [m] steps the set is closed, or it has more than [m] nodes. *)
Lemma reach_iter_grows u m :
  reach_step W (Nat.iter m (reach_step W) {[ u ]}) = Nat.iter m (reach_step W) {[ u ]}
  ∨ m < size (Nat.iter m (reach_step W) {[ u ]}).
Proof.
  induction m as [|m IH].
  - right. rewrite iter_0, size_singleton. lia.
  - rewrite Nat.iter_succ. destruct IH as [IH|IH].
    + left. by rewrite !IH.
    + set (s := Nat.iter m (reach_step W) {[ u ]}) in *.
      destruct (decide (reach_step W s = s)) as [E|E].
      * left. by rewrite !E.
      * right. assert (s ⊂ reach_step W s) as Hsub.
        { split; [apply reach_step_subseteq|].
          intros Hrev. apply E. apply set_eq. intros x. split; [apply Hrev|].
          apply reach_step_subseteq. }
        apply subset_size in Hsub. lia.
Qed.

Lemma reachable_closed u :
  u < sp_nrows W → reach_step W (reachable W u) = reachable W u.
Proof using Hcol.
  intros Hu. unfold reachable.
  destruct (reach_iter_grows u (sp_nrows W)) as [H|H]; [exact H|]. exfalso.
  pose proof (subseteq_size _ _ (reach_iter_bounded u (sp_nrows W) Hu)) as Hle.
  rewrite size_set_seq in Hle. lia.
Qed.

Lemma reach_iter_start u m : u ∈ Nat.iter m (reach_step W) {[ u ]}.
Proof.
  induction m as [|m IH].
  - rewrite iter_0. by apply elem_of_singleton.
  - rewrite Nat.iter_succ. apply elem_of_reach_step. by left.
Qed.

Lemma reachable_start u : u ∈ reachable W u.
Proof. apply reach_iter_start. Qed.

Lemma reachable_spec u v :
  u < sp_nrows W → v ∈ reachable W u ↔ rtc (edge W) u v.
Proof using Hcol.
  intros Hu. split; [apply reach_iter_sound|].
  intros Hpath.
  assert (Hclosed : ∀ w, rtc (edge W) w v → w ∈ reachable W u → v ∈ reachable W u).
  { clear Hpath. induction 1 as [x|x y z Hxy _ IH]; intros Hx; [done|].
    apply IH. rewrite <- (reachable_closed u Hu). apply elem_of_reach_step.
    right. by exists x. }
  apply (Hclosed u Hpath). apply reachable_start.
Qed.

Lemma mutual_spec u v :
  u < sp_nrows W → v < sp_nrows W →
  mutual W u v = true ↔ rtc (edge W) u v ∧ rtc (edge W) v u.
Proof using Hcol.
  intros Hu Hv. unfold mutual.
  rewrite andb_true_iff, !bool_decide_eq_true, !reachable_spec by done. done.
Qed.

Lemma first_of_component u :
  forallb (λ v, negb (mutual W u v)) (seq 0 u) = true ↔
  ∀ v, v < u → mutual W u v = false.
Proof.
  rewrite forallb_forall. split.
  - intros H v Hv. apply negb_true_iff, H, in_seq. lia.
  - intros H v Hv%in_seq. apply negb_true_iff, H. lia.
Qed.

Lemma not_first_of_component u :
  forallb (λ v, negb (mutual W u v)) (seq 0 u) ≠ true ↔
  ∃ v, v < u ∧ mutual W u v = true.
Proof.
  rewrite first_of_component. split.
  - intros H. destruct (existsb (λ v, mutual W u v) (seq 0 u)) eqn:E.
    + apply existsb_exists in E as (v & Hv%in_seq & Hm). exists v. split; [lia|done].
    + exfalso. apply H. intros v Hv.
      destruct (mutual W u v) eqn:Em; [|done].
      assert (existsb (λ v, mutual W u v) (seq 0 u) = true) as E'; [|congruence].
      apply existsb_exists. exists v. split; [apply in_seq; lia|done].
  - intros (v & Hv & Hm) H. rewrite (H v Hv) in Hm. done.
Qed.

Lemma strong_components_count :
  strong_components W = 1 ↔
  0 < sp_nrows W ∧
  ∀ u, 1 ≤ u < sp_nrows W → ∃ v, v < u ∧ mutual W u v = true.
Proof.
  clear Hcol.
  unfold strong_components. destruct (sp_nrows W) as [|n]; [simpl; split; [done|lia]|].
  change (seq 0 (S n)) with (0 :: seq 1 n). rewrite filter_cons_True by done.
  simpl. split.
  - intros Hlen. split; [lia|]. intros u Hu.
    apply not_first_of_component. intros Hfirst.
    assert (u ∈ filter (λ u, forallb (λ v, negb (mutual W u v)) (seq 0 u) = true) (seq 1 n)) as Hin.
    { apply list_elem_of_filter. split; [done|]. apply elem_of_seq. lia. }
    destruct (filter _ (seq 1 n)); [by apply elem_of_nil in Hin|done].
  - intros [_ H]. f_equal. apply length_zero_iff_nil.
    apply elem_of_nil_inv. intros u [Hfirst Hu%elem_of_seq]%list_elem_of_filter.
    apply (proj2 (not_first_of_component u)); [|done]. apply H. lia.
Qed.

(** The count is 1 exactly when the graph is strongly connected. *)
Lemma strong_components_one :
  strong_components W = 1 ↔ strongly_connected W.
Proof using Hcol.
  rewrite strong_components_count. unfold strongly_connected. split.
  - intros [Hn H]. split; [done|].
    assert (Hzero : ∀ u, u < sp_nrows W → rtc (edge W) u 0 ∧ rtc (edge W) 0 u).
    { intros u. induction (lt_wf u) as [u _ IH]. intros Hu.
      destruct (decide (u = 0)) as [->|Hne]; [done|].
      destruct (H u) as (v & Hv & Hm); [lia|].
      apply mutual_spec in Hm as [Huv Hvu]; [|lia..].
      destruct (IH v Hv) as [Hv0 H0v]; [lia|].
      split; [by etrans|by etrans]. }
    intros u v Hu Hv. destruct (Hzero u Hu) as [Hu0 _], (Hzero v Hv) as [_ H0v].
    by etrans.
  - intros [Hn H]. split; [done|]. intros u Hu. exists 0. split; [lia|].
    apply mutual_spec; [lia..|]. split; apply H; lia.
Qed.
End StrongComponents.

(** ** Diffusion map *)

Section DiffusionMapProperties.
Context {rng : Type}.
Variable randomized_svd : csr_matrix → nat → Z → matrix * vector * matrix.
Variable eigsh : csr_matrix → nat → vector → vector * matrix.
Variable seed_state : Z → rng.
Variable uniform : rng → R → R → nat → vector * rng.
Local Open Scope R_scope.

Abbreviation decompose' := (decompose randomized_svd eigsh seed_state uniform).
Abbreviation calculate_diffusion_map' :=
  (calculate_diffusion_map randomized_svd eigsh seed_state uniform).

Lemma diffusion_map_not_connected (σ : np_state rng) W k alpha solver seed :
  connected_components W ≠ Ok 1%nat →
  ∃ e, calculate_diffusion_map' W k alpha solver seed σ = (Raise e, σ) ∧
       (sp_nrows W = sp_ncols W → e = AssertionError).
Proof.
  intros H. unfold calculate_diffusion_map, mbind, M_bind at 1, lift.
  unfold connected_components in *. case_decide.
  - unfold mbind, M_bind at 1, assert. rewrite bool_decide_false by congruence.
    by exists AssertionError.
  - eexists. split; [done|]. done.
Qed.

Lemma strong_components_pos {D} (W : sparse D) :
  strong_components W = 1%nat → (0 < sp_nrows W)%nat.
Proof.
  unfold strong_components. destruct (sp_nrows W); [done|lia].
Qed.

(** The shapes of the arrays of the randomized path. *)
Lemma transpose_shape A r c : (0 < r)%nat → mshape A r c → mshape (transpose A) c r.
Proof.
  intros Hr [Hl Hw]. unfold transpose.
  assert (width A = c) as ->.
  { destruct A as [|row A]; simpl in *; [lia|]. by apply Forall_cons in Hw as [? _]. }
  split; [by rewrite length_map, length_seq|].
  apply Forall_forall. intros row. change (map ?f ?l) with (f <$> l).
  intros (j & -> & _)%list_elem_of_fmap. by rewrite length_fmap.
Qed.

Lemma mul_elem_shape A B r c : mshape A r c → mshape B r c → mshape (mul_elem A B) r c.
Proof.
  intros [Hl Hw] [Hl' Hw']. unfold mul_elem. split.
  - rewrite length_zip_with. lia.
  - clear Hl Hl'. revert B Hw'. induction Hw as [|a A Ha _ IH]; intros [|b B] Hw'; simpl;
      try constructor.
    + apply Forall_cons in Hw' as [Hb _]. rewrite length_zip_with. lia.
    + apply Forall_cons in Hw' as [_ Hw']. by apply IH.
Qed.

Lemma col_sums_length A r c : (0 < r)%nat → mshape A r c → length (col_sums A) = c.
Proof.
  intros Hr [Hl Hw]. unfold col_sums. rewrite length_map, length_seq.
  destruct A as [|row A]; simpl in *; [lia|]. by apply Forall_cons in Hw as [? _].
Qed.

Lemma decompose_randomized (σ : np_state rng) Wn k seed :
  decompose' Wn k "randomized" seed σ =
    (Ok (zip_with Rmult
           (map np_sign (col_sums (mul_elem (randomized_svd (snapshot σ Wn) k seed).1.1
              (transpose (randomized_svd (snapshot σ Wn) k seed).2))))
           (randomized_svd (snapshot σ Wn) k seed).1.2,
         (randomized_svd (snapshot σ Wn) k seed).1.1), σ).
Proof.
  unfold decompose, view, mbind, M_bind. simpl.
  by destruct (randomized_svd _ _ _) as [[U Sigma] VT].
Qed.

Lemma decompose_eigsh (σ : np_state rng) Wn k seed :
  let draw := uniform (seed_state seed) (-1) 1 (sp_nrows Wn) in
  decompose' Wn k "eigsh" seed σ =
    (Ok (rev (eigsh (snapshot σ Wn) k draw.1).1,
         map (rev (A:=R)) (eigsh (snapshot σ Wn) k draw.1).2),
     {| heap := heap σ; np_random := draw.2 |}).
Proof.
  unfold decompose, view, np_random_seed, np_random_uniform, assert, mbind, M_bind.
  simpl. by destruct (uniform _ _ _ _) as [v0 g].
Qed.

Lemma decompose_other (σ : np_state rng) Wn k solver seed :
  solver ≠ "randomized" → solver ≠ "eigsh" →
  decompose' Wn k solver seed σ = (Raise AssertionError, σ).
Proof.
  intros H1 H2. unfold decompose, view, assert, mbind, M_bind. simpl.
  rewrite decide_False by done. by rewrite bool_decide_false by done.
Qed.

(** Lines 53-60, on arrays of the right shapes. *)
Lemma diffusion_coordinates_spec (U : matrix) (Lambda_all dh : vector) alpha n k :
  mshape U n k → length Lambda_all = k → length dh = n →
  let Lambda := drop 1 Lambda_all in
  let Phi := zip_with (λ row d, map (λ x, x / d) row) (map (drop 1) U) dh in
  let Lambda_new := map (λ l, l / (1 - alpha * l)) Lambda in
  let Phi_pt := map (λ row, zip_with Rmult row Lambda_new) Phi in
  length Lambda = (k - 1)%nat ∧ mshape Phi_pt n (k - 1) ∧
  ∀ i j urow u l d,
    U !! i = Some urow → urow !! S j = Some u → Lambda !! j = Some l → dh !! i = Some d →
    ∃ row, Phi_pt !! i = Some row ∧ row !! j = Some (u / d * (l / (1 - alpha * l))).
Proof.
  intros [HU Hw] HL Hdh. simpl.
  split; [by rewrite length_drop, HL|]. split; [split|].
  - rewrite length_map, length_zip_with, length_map, HU, Hdh. apply Nat.min_id.
  - apply Forall_forall. intros row.
    change (map ?f ?l) with (f <$> l).
    intros (row' & -> & Hrow')%list_elem_of_fmap.
    apply elem_of_lookup_zip_with in Hrow' as (i & urow & d & -> & Hu & Hd).
    change (?f <$> ?l) with (map f l) in Hu. change (map ?f ?l) with (f <$> l) in Hu.
    rewrite list_lookup_fmap in Hu.
    apply fmap_Some in Hu as (urow' & E & ->).
    rewrite Forall_forall in Hw.
    assert (length urow' = k) by (apply Hw; by eapply list_elem_of_lookup_2).
    rewrite length_zip_with, !length_fmap, !length_drop. lia.
  - intros i j urow u l d Hu Hj Hl Hd.
    change (map ?f ?l) with (f <$> l).
    rewrite list_lookup_fmap, lookup_zip_with, list_lookup_fmap, Hu. simpl. rewrite Hd. simpl.
    eexists. split; [done|].
    rewrite lookup_zip_with, !list_lookup_fmap, !lookup_drop. simpl.
    rewrite lookup_drop in Hl. simpl in Hl. by rewrite Hj, Hl.
Qed.

Lemma mshape_map_rev A r c : mshape A r c → mshape (map (rev (A:=R)) A) r c.
Proof.
  intros [Hl Hw]. split; [by rewrite length_map|].
  apply Forall_forall. intros row. change (map ?f ?l) with (f <$> l).
  intros (row' & -> & Hrow')%list_elem_of_fmap. rewrite length_rev.
  rewrite Forall_forall in Hw. by apply Hw.
Qed.

Lemma calculate_diffusion_map_returns (σ : np_state rng) W k alpha solver seed :
  wf_sparse σ W → connected_components W = Ok 1%nat →
  (solver = "randomized" ∧ svd_returns randomized_svd (sp_nrows W) k ∨
   solver = "eigsh" ∧ eigsh_returns eigsh (sp_nrows W) k ∧ uniform_in_range uniform) →
  let d := row_sums (snapshot σ W) in
  let dh := map sqrt d in
  ∃ Wn σ1 Lambda_all U σ2 Phi_pt Lambda,
    calculate_normalized_affinity W σ = (Ok (Wn, d, dh), σ1) ∧
    decompose' Wn k solver seed σ1 = (Ok (Lambda_all, U), σ2) ∧
    calculate_diffusion_map' W k alpha solver seed σ = (Ok (Phi_pt, Lambda), σ2) ∧
    length Lambda_all = k ∧ mshape U (sp_nrows W) k ∧
    Lambda = drop 1 Lambda_all ∧ length Lambda = (k - 1)%nat ∧
    mshape Phi_pt (sp_nrows W) (k - 1) ∧
    ∀ i j urow u l di,
      U !! i = Some urow → urow !! S j = Some u → Lambda !! j = Some l →
      dh !! i = Some di →
      ∃ row, Phi_pt !! i = Some row ∧ row !! j = Some (u / di * (l / (1 - alpha * l))).
Proof.
  intros Hwf Hcc Hsolver d dh.
  unfold connected_components in Hcc. case_decide as Hsq; [|done].
  injection Hcc as Hcc. pose proof (strong_components_pos _ Hcc) as Hn.
  destruct (calculate_normalized_affinity_spec σ W Hwf (eq_sym Hsq))
    as (Wn & σ1 & Hna & Hr & Hc & _).
  fold d in Hna. fold dh in Hna.
  assert (Hdh : length dh = sp_nrows W).
  { unfold dh, d. by rewrite length_map, row_sums_length. }
  assert (∃ Lambda_all U σ2,
    decompose' Wn k solver seed σ1 = (Ok (Lambda_all, U), σ2) ∧
    length Lambda_all = k ∧ mshape U (sp_nrows W) k) as (La & U & σ2 & Hdec & HLa & HU).
  { destruct Hsolver as [[-> Hsvd] | (-> & Heig & Huni)].
    - rewrite decompose_randomized.
      destruct (Hsvd (snapshot σ1 Wn) seed) as (HS & HU & HVT); [simpl; congruence..|].
      eexists _, _, _. split; [done|]. split; [|done].
      rewrite length_zip_with, length_map, HS.
      destruct k as [|k']; [apply Nat.min_0_r|].
      rewrite (col_sums_length _ (sp_nrows W) (S k')); [apply Nat.min_id|done|].
      apply mul_elem_shape; [done|]. apply transpose_shape; [lia|done].
    - rewrite decompose_eigsh. cbv zeta.
      destruct (Huni (seed_state seed) (-1) 1 (sp_nrows Wn)) as [Hv0 _]; [lra|].
      destruct (Heig (snapshot σ1 Wn) (uniform (seed_state seed) (-1) 1 (sp_nrows Wn)).1)
        as (HL & HU); [simpl; congruence..|].
      eexists _, _, _. split; [done|]. split; [by rewrite length_rev|].
      by apply mshape_map_rev. }
  destruct (diffusion_coordinates_spec U La dh alpha _ _ HU HLa Hdh) as (H1 & H2 & H3).
  eexists Wn, σ1, La, U, σ2, _, _.
  split; [done|]. split; [done|]. split.
  { unfold calculate_diffusion_map, connected_components, mbind, M_bind, lift, assert.
    rewrite decide_True by done. rewrite Hcc. simpl.
    rewrite Hna. rewrite Hdec. reflexivity. }
  done.
Qed.


(** One component, for scipy, is a strongly connected graph. *)
Lemma connected_components_one (σ : np_state rng) W :
  wf_sparse σ W → sp_ncols W = sp_nrows W →
  connected_components W = Ok 1%nat ↔ strongly_connected W.
Proof.
  intros (_ & _ & _ & _ & Hcol) Hsq. rewrite Hsq in Hcol.
  unfold connected_components. rewrite decide_True by done.
  rewrite <- (strong_components_one W Hcol). split; [by intros [= ->]|by intros ->].
Qed.

Lemma np_sign_cases x : np_sign x = 1 ∨ np_sign x = -1 ∨ np_sign x = 0.
Proof. unfold np_sign. repeat destruct (Rlt_dec _ _); auto. Qed.

Lemma Rabs_minus_one : Rabs (-1) = 1.
Proof. unfold Rabs. destruct (Rcase_abs _); lra. Qed.

(** Line 43: an eigenvalue is a singular value, up to its sign. *)
Lemma signed_singular_values signs Sigma j l :
  zip_with Rmult (map np_sign signs) Sigma !! j = Some l →
  ∃ c s, signs !! j = Some c ∧ Sigma !! j = Some s ∧ l = np_sign c * s.
Proof.
  rewrite lookup_zip_with. change (map ?f ?l) with (f <$> l). rewrite list_lookup_fmap.
  destruct (signs !! j) as [c|]; simpl; [|done].
  destruct (Sigma !! j) as [s|]; simpl; [|done].
  intros [= <-]. by exists c, s.
Qed.

(** In the randomized path no eigenvalue has a larger magnitude than the
    first one, when the first one is not 0. *)
Lemma randomized_first_largest signs Sigma l0 l :
  StronglySorted (λ x y, y <= x) Sigma → Forall (λ x, 0 <= x) Sigma →
  zip_with Rmult (map np_sign signs) Sigma !! 0%nat = Some l0 → l0 ≠ 0 →
  l ∈ zip_with Rmult (map np_sign signs) Sigma → Rabs l <= Rabs l0.
Proof.
  intros Hsorted Hpos H0 Hne [j Hj]%list_elem_of_lookup_1.
  apply signed_singular_values in H0 as (c0 & s0 & _ & Hs0 & ->).
  apply signed_singular_values in Hj as (c & s & _ & Hs & ->).
  assert (0 <= s ∧ s <= s0) as [Hs_pos Hs_le].
  { rewrite Forall_forall in Hpos. split; [apply Hpos; by eapply list_elem_of_lookup_2|].
    destruct Sigma as [|x Sigma]; [done|]. simpl in Hs0. injection Hs0 as ->.
    destruct j as [|j]; simpl in Hs; [injection Hs as ->; lra|].
    apply StronglySorted_inv in Hsorted as [_ Hx]. rewrite Forall_forall in Hx.
    apply Hx. by eapply list_elem_of_lookup_2. }
  assert (Rabs (np_sign c0 * s0) = s0) as ->.
  { rewrite Rabs_mult, (Rabs_pos_eq s0) by lra.
    destruct (np_sign_cases c0) as [E|[E|E]]; rewrite E in *.
    - rewrite Rabs_R1. lra.
    - rewrite Rabs_minus_one. lra.
    - lra. }
  rewrite Rabs_mult, (Rabs_pos_eq s) by lra.
  destruct (np_sign_cases c) as [E|[E|E]]; rewrite E.
  - rewrite Rabs_R1. lra.
  - rewrite Rabs_minus_one. lra.
  - rewrite Rabs_R0. lra.
Qed.

Lemma rev_ascending v : StronglySorted Rle v → descending (rev v).
Proof.
  unfold descending. induction 1 as [|x v Hv IH Hx]; simpl; [constructor|].
  apply StronglySorted_app_2; [|done|repeat constructor].
  intros y z Hy Hz. apply list_elem_of_singleton in Hz as ->.
  apply list_elem_of_In, in_rev, list_elem_of_In in Hy.
  rewrite Forall_forall in Hx. by apply Hx.
Qed.

Lemma descending_drop v n : descending v → descending (drop n v).
Proof.
  unfold descending. intros H. revert n. induction H as [|x v Hv IH Hx]; intros [|n]; simpl;
    try constructor; try done.
Qed.

Lemma descending_nonneg_magnitude v :
  descending v → Forall (λ l, 0 <= l) v → descending_magnitude v.
Proof.
  unfold descending, descending_magnitude. induction 1 as [|x v Hv IH Hx]; intros Hpos;
    [constructor|].
  apply Forall_cons in Hpos as [Hx0 Hpos]. constructor; [by apply IH|].
  rewrite Forall_forall in Hx, Hpos. apply Forall_forall. intros y Hy.
  rewrite !Rabs_pos_eq; auto.
Qed.


(** C3, as amended. In the "eigsh" path the global generator is seeded with
    [random_state] and the starting vector is then drawn uniformly in
    [[-1, 1)], one number for each row: it depends on the seed and on the
    number of rows only. [eigsh] is given the normalized affinity, [k] and
    this vector; its eigenvalues are reversed and the first one is dropped.
    When [eigsh] returns the eigenvalues in ascending order, the reversed
    vector and the vector [Lambda] that is kept are in descending order (of
    the values, not of their magnitudes), so that the eigenvalue dropped is
    the largest; [Lambda] is in descending order of magnitude when none of
    its eigenvalues is negative. [Lambda] is returned as it is before the
    rescaling. *)
Theorem eigsh_path_descending (σ : np_state rng) W k alpha seed :
  wf_sparse σ W → sp_ncols W = sp_nrows W → strongly_connected W →
  eigsh_returns eigsh (sp_nrows W) k → uniform_in_range uniform →
  let diag_half := map sqrt (row_sums (snapshot σ W)) in
  let draw := uniform (seed_state seed) (-1) 1 (sp_nrows W) in
  ∃ W_norm σ1 Phi_pt Lambda,
    calculate_normalized_affinity W σ
      = (Ok (W_norm, row_sums (snapshot σ W), diag_half), σ1) ∧
    length draw.1 = sp_nrows W ∧ Forall (λ x, -1 <= x < 1) draw.1 ∧
    calculate_diffusion_map' W k alpha "eigsh" seed σ
      = (Ok (Phi_pt, Lambda), {| heap := heap σ1; np_random := draw.2 |}) ∧
    Lambda = drop 1 (rev (eigsh (snapshot σ1 W_norm) k draw.1).1) ∧
    (eigsh_ascending eigsh (sp_nrows W) k →
     descending (rev (eigsh (snapshot σ1 W_norm) k draw.1).1) ∧
     descending Lambda ∧
     (Forall (λ l, 0 <= l) Lambda → descending_magnitude Lambda)).
Proof.
  intros Hwf Hsq Hcc Heig Huni diag_half draw.
  apply (connected_components_one σ W Hwf Hsq) in Hcc.
  destruct (calculate_diffusion_map_returns σ W k alpha "eigsh" seed Hwf Hcc)
    as (Wn & σ1 & La & U & σ2 & Phi & L & Hna & Hdec & Hrun & _ & _ & HL & _); [by right|].
  destruct (calculate_normalized_affinity_spec σ W Hwf Hsq)
    as (Wn' & σ1' & Hna' & Hr & Hc & _).
  rewrite Hna in Hna'. injection Hna' as <- <-.
  rewrite decompose_eigsh in Hdec. cbv zeta in Hdec. rewrite Hr in Hdec.
  fold draw in Hdec. injection Hdec as <- <- <-.
  destruct (Huni (seed_state seed) (-1) 1 (sp_nrows W)) as [Hv0 Hrange]; [lra|].
  exists Wn, σ1, Phi, L. split; [done|]. split; [done|]. split; [done|].
  split; [done|]. split; [done|].
  intros Hasc.
  assert (descending (rev (eigsh (snapshot σ1 Wn) k draw.1).1)) as Hdesc.
  { apply rev_ascending. apply Hasc; [simpl; congruence..|exact Hv0]. }
  split; [done|]. rewrite HL.
  split; [by apply descending_drop|].
  apply descending_nonneg_magnitude. by apply descending_drop.
Qed.

(** C2. [calculate_diffusion_map] raises the assertion error whenever the
    graph of its (square) matrix is not strongly connected, that is whenever
    the number of strongly connected components is not 1, whatever the
    solvers are, and leaves the state of numpy as it is: neither the
    normalization nor the decomposition is run. The affinity of two triangles
    without an edge between them has two components and raises this error;
    the same matrix with the edge 2-3 has one component, and the call returns
    [k - 1] eigenvalues and coordinates of [k - 1] columns for its 6 rows
    when the solver returns [k] eigenpairs. *)
Theorem diffusion_map_requires_connected (σ : np_state rng) W k alpha solver seed :
  (wf_sparse σ W → sp_ncols W = sp_nrows W → ¬ strongly_connected W →
   calculate_diffusion_map' W k alpha solver seed σ = (Raise AssertionError, σ)) ∧
  (∀ nc, connected_components W = Ok nc → nc ≠ 1%nat →
     calculate_diffusion_map' W k alpha solver seed σ = (Raise AssertionError, σ)) ∧
  connected_components two_triangles = Ok 2%nat ∧
  calculate_diffusion_map' two_triangles k alpha solver seed σ
    = (Raise AssertionError, σ) ∧
  connected_components bridged_triangles = Ok 1%nat ∧
  (wf_sparse σ bridged_triangles →
   (solver = "randomized" ∧ svd_returns randomized_svd 6 k ∨
    solver = "eigsh" ∧ eigsh_returns eigsh 6 k ∧ uniform_in_range uniform) →
   ∃ Phi_pt Lambda σ',
     calculate_diffusion_map' bridged_triangles k alpha solver seed σ
       = (Ok (Phi_pt, Lambda), σ') ∧
     length Lambda = (k - 1)%nat ∧ mshape Phi_pt 6 (k - 1)).
Proof.
  assert (Hfail : ∀ V nc, connected_components V = Ok nc → nc ≠ 1%nat →
            calculate_diffusion_map' V k alpha solver seed σ = (Raise AssertionError, σ)).
  { intros V nc Hnc Hne.
    destruct (diffusion_map_not_connected σ V k alpha solver seed) as (e & -> & He).
    { rewrite Hnc. congruence. }
    rewrite He; [done|]. unfold connected_components in Hnc. by case_decide. }
  split.
  { intros Hwf Hsq Hnot.
    apply (Hfail W (strong_components W)).
    - unfold connected_components. by rewrite decide_True.
    - intros Hone. apply Hnot. apply (connected_components_one σ W Hwf Hsq).
      unfold connected_components. rewrite decide_True by done. by rewrite Hone. }
  split; [apply Hfail|].
  split; [vm_compute; reflexivity|].
  split; [apply (Hfail _ 2%nat); [vm_compute; reflexivity|lia]|].
  split; [vm_compute; reflexivity|].
  intros Hwf Hsolver.
  destruct (calculate_diffusion_map_returns σ bridged_triangles k alpha solver seed Hwf)
    as (Wn & σ1 & La & U & σ2 & Phi & L & _ & _ & Hrun & _ & _ & _ & HL & HPhi & _).
  { vm_compute; reflexivity. }
  { exact Hsolver. }
  by exists Phi, L, σ2.
Qed.
End DiffusionMapProperties.

(** *** Diffusion maps of concrete matrices *)

Section DiffusionMapExamples.
Local Open Scope R_scope.

Lemma one_buffer_wf W v :
  sp_data W = 0%nat →
  length (sp_row W) = length (sp_col W) →
  length v = length (sp_row W) →
  Forall (λ i, (i < sp_nrows W)%nat) (sp_row W) →
  Forall (λ j, (j < sp_ncols W)%nat) (sp_col W) →
  wf_sparse (one_buffer v) W.
Proof.
  intros H0 H1 H2 H3 H4. unfold wf_sparse, buffer. rewrite H0. simpl.
  rewrite lookup_singleton_eq. simpl. by repeat split.
Qed.

Lemma four_cycle_wf : wf_sparse (one_buffer (repeat 2 8)) four_cycle.
Proof.
  apply one_buffer_wf; try done; simpl; repeat constructor.
Qed.

Lemma bridged_triangles_wf : wf_sparse (one_buffer (repeat 1 14)) bridged_triangles.
Proof.
  apply one_buffer_wf; try done; simpl; repeat constructor.
Qed.

Lemma two_triangles_wf : wf_sparse (one_buffer (repeat 1 12)) two_triangles.
Proof.
  apply one_buffer_wf; try done; simpl; repeat constructor.
Qed.

Lemma four_cycle_connected : strongly_connected four_cycle.
Proof.
  apply (connected_components_one _ _ four_cycle_wf); [done|]. vm_compute; reflexivity.
Qed.

Lemma bridged_triangles_connected : strongly_connected bridged_triangles.
Proof.
  apply (connected_components_one _ _ bridged_triangles_wf); [done|].
  vm_compute; reflexivity.
Qed.

Lemma two_triangles_not_connected : ¬ strongly_connected two_triangles.
Proof.
  intros H. apply (connected_components_one _ _ two_triangles_wf) in H; [|done].
  vm_compute in H. discriminate.
Qed.

Lemma zero_svd_returns n k : svd_returns zero_svd n k.
Proof.
  intros A seed Hr Hc. unfold zero_svd, mshape. simpl.
  rewrite !repeat_length, Hr, Hc. repeat split; try done.
  - apply Forall_forall. intros row Hrow%list_elem_of_In%repeat_spec. subst.
    apply repeat_length.
  - apply Forall_forall. intros row Hrow%list_elem_of_In%repeat_spec. subst.
    apply repeat_length.
Qed.

Lemma cycle_eigsh_returns : eigsh_returns cycle_eigsh 4 3.
Proof.
  intros A v0 _ _ _. unfold cycle_eigsh, mshape. simpl.
  repeat split; repeat constructor.
Qed.

Lemma cycle_eigsh_ascending : eigsh_ascending cycle_eigsh 4 3.
Proof.
  intros A v0 _ _ _. unfold cycle_eigsh. simpl.
  repeat constructor; lra.
Qed.

Lemma lowest_in_range : uniform_in_range lowest.
Proof.
  intros g low high n Hlt. unfold lowest. simpl. split; [apply repeat_length|].
  apply Forall_forall. intros x Hx%list_elem_of_In%repeat_spec. subst. lra.
Qed.

Lemma buffer_one v : buffer (one_buffer v) 0 = v.
Proof. unfold buffer. simpl. by rewrite lookup_singleton_eq. Qed.

Lemma four_cycle_row_sums :
  row_sums (snapshot (one_buffer (repeat 2 8)) four_cycle) = [4; 4; 4; 4].
Proof.
  unfold row_sums, entries, snapshot. change (sp_data four_cycle) with 0%nat.
  rewrite buffer_one. simpl.
  repeat f_equal; lra.
Qed.

Lemma entry_entry_of W i j : entry W i j = entry_of (entries W) (i, j).
Proof. done. Qed.

Lemma sqrt_4 : sqrt 4 = 2.
Proof. replace 4 with (2 * 2) by lra. apply sqrt_square. lra. Qed.

(** The normalized affinity of the cycle with weights 2: 1/2 on every edge. *)
Lemma four_cycle_normalized Wn d dh σ1 :
  calculate_normalized_affinity four_cycle (one_buffer (repeat 2 8)) = (Ok (Wn, d, dh), σ1) →
  sp_nrows Wn = 4%nat ∧ sp_ncols Wn = 4%nat ∧
  ∀ i j, entry (snapshot σ1 Wn) i j
         = entry (snapshot (one_buffer (repeat 2 8)) four_cycle) i j / 4.
Proof.
  intros Hrun.
  destruct (calculate_normalized_affinity_spec (one_buffer (repeat 2 8)) four_cycle
              four_cycle_wf eq_refl) as (Wn' & σ' & Hrun' & Hr & Hc & (Hrow & Hcol & Hdata) & _).
  rewrite Hrun in Hrun'. injection Hrun' as <- _ _ <-.
  split; [done|]. split; [done|]. intros i j.
  rewrite !entry_entry_of.
  assert (entries (snapshot σ1 Wn)
          = coalesce (normalized (map sqrt (row_sums (snapshot (one_buffer (repeat 2 8)) four_cycle)))
              (entries (snapshot (one_buffer (repeat 2 8)) four_cycle)))) as ->.
  { unfold entries at 1. simpl. by rewrite Hrow, Hcol, Hdata, zip_unzip. }
  rewrite entry_of_coalesce, four_cycle_row_sums.
  unfold normalized.
  rewrite (entry_of_normalized (λ i, nth i (map sqrt [4; 4; 4; 4]) 0)
                               (λ j, nth j (map sqrt [4; 4; 4; 4]) 0)).
  assert (Hzero : ∀ a b, (4 ≤ a)%nat ∨ (4 ≤ b)%nat →
            entry_of (entries (snapshot (one_buffer (repeat 2 8)) four_cycle)) (a, b) = 0).
  { intros a b Hab. unfold entry_of, entries, snapshot.
    change (sp_data four_cycle) with 0%nat. rewrite buffer_one. simpl.
    repeat (rewrite filter_cons; simpl; rewrite decide_False by (intros [= ? ?]; lia)).
    by rewrite filter_nil. }
  destruct (decide (i < 4)%nat) as [Hi|Hi], (decide (j < 4)%nat) as [Hj|Hj];
    try (rewrite Hzero by lia; unfold Rdiv; lra).
  assert (Hnth : ∀ a, (a < 4)%nat → nth a (map sqrt [4; 4; 4; 4]) 0 = 2).
  { intros a Ha. destruct a as [|[|[|[|a]]]]; simpl; try apply sqrt_4. lia. }
  rewrite !Hnth by done. by replace (2 * 2) with 4 by lra.
Qed.

Lemma four_cycle_entries :
  let W := snapshot (one_buffer (repeat 2 8)) four_cycle in
  map (λ i, map (λ j, entry W i j) (seq 0 4)) (seq 0 4)
  = [[0; 2; 0; 2]; [2; 0; 2; 0]; [0; 2; 0; 2]; [2; 0; 2; 0]].
Proof.
  unfold entry, entries, snapshot. change (sp_data four_cycle) with 0%nat.
  rewrite buffer_one. simpl.
  repeat (f_equal; try lra).
Qed.

Ltac list_lra := repeat (apply (f_equal2 (@cons R)); [lra|]); reflexivity.

(** The values and vectors of [cycle_eigsh] are eigenpairs of the normalized
    affinity of the cycle. *)
Lemma cycle_eigenpairs Wn d dh σ1 j l :
  calculate_normalized_affinity four_cycle (one_buffer (repeat 2 8)) = (Ok (Wn, d, dh), σ1) →
  [-1; 0; 1] !! j = Some l →
  matvec (snapshot σ1 Wn) (column_of cycle_eigenvectors j)
  = map (Rmult l) (column_of cycle_eigenvectors j).
Proof.
  intros Hrun Hj.
  destruct (four_cycle_normalized _ _ _ _ Hrun) as (Hr & Hc & Hentry).
  unfold matvec. simpl. rewrite Hr, Hc. simpl. rewrite !Hentry.
  unfold entry, entries, snapshot. change (sp_data four_cycle) with 0%nat.
  rewrite buffer_one.
  destruct j as [|[|[|j]]]; simpl in *; try done; injection Hj as <-; list_lra.
Qed.

(** C7 on the cycle with weights 2. *)
Lemma normalized_affinity_spec_witness :
  let σ := one_buffer (repeat 2 8) in
  ∃ Wn σ',
    calculate_normalized_affinity four_cycle σ
      = (Ok (Wn, row_sums (snapshot σ four_cycle),
             map sqrt (row_sums (snapshot σ four_cycle))), σ') ∧
    (∀ i j, stored Wn i j ↔ stored four_cycle i j) ∧
    snapshot σ' four_cycle = snapshot σ four_cycle.
Proof.
  destruct (normalized_affinity_spec (one_buffer (repeat 2 8)) four_cycle)
    as (Wn & σ' & Hrun & _ & _ & _ & _ & _ & Hstored & _ & Hsame & _).
  - apply four_cycle_wf.
  - reflexivity.
  - rewrite four_cycle_row_sums. repeat constructor; lra.
  - by exists Wn, σ'.
Defined.


(** C2 on the two triangles, without and with the bridge, with a solver that
    returns zeros. *)
Lemma diffusion_map_requires_connected_witness :
  ¬ strongly_connected two_triangles ∧
  calculate_diffusion_map zero_svd zero_eigsh (λ _, tt) lowest
    two_triangles 3 (1 / 2) "randomized" 0%Z (one_buffer (repeat 1 12))
  = (Raise AssertionError, one_buffer (repeat 1 12)) ∧
  ∃ Phi_pt Lambda σ',
    calculate_diffusion_map zero_svd zero_eigsh (λ _, tt) lowest
      bridged_triangles 3 (1 / 2) "randomized" 0%Z (one_buffer (repeat 1 14))
    = (Ok (Phi_pt, Lambda), σ') ∧ length Lambda = 2%nat ∧ mshape Phi_pt 6 2.
Proof.
  split; [apply two_triangles_not_connected|]. split.
  - destruct (diffusion_map_requires_connected zero_svd zero_eigsh (λ _, tt) lowest
      (one_buffer (repeat 1 12)) two_triangles 3 (1 / 2) "randomized" 0%Z)
      as (H & _).
    apply H; [apply two_triangles_wf|reflexivity|apply two_triangles_not_connected].
  - destruct (diffusion_map_requires_connected zero_svd zero_eigsh (λ _, tt) lowest
      (one_buffer (repeat 1 14)) bridged_triangles 3 (1 / 2) "randomized" 0%Z)
      as (_ & _ & _ & _ & _ & H).
    apply H; [apply bridged_triangles_wf|].
    left. split; [done|]. apply zero_svd_returns.
Defined.

(** C3 on the cycle with its eigenpairs. *)
Lemma eigsh_path_descending_witness :
  ∃ Phi_pt σ',
    calculate_diffusion_map zero_svd cycle_eigsh (λ _, tt) lowest
      four_cycle 3 (1 / 2) "eigsh" 0%Z (one_buffer (repeat 2 8))
    = (Ok (Phi_pt, [0; -1]), σ') ∧
    descending [0; -1].
Proof.
  destruct (eigsh_path_descending zero_svd cycle_eigsh (λ _, tt) lowest
              (one_buffer (repeat 2 8)) four_cycle 3 (1 / 2) 0%Z)
    as (Wn & σ1 & Phi & L & _ & _ & _ & Hrun & HL & Hsorted).
  - apply four_cycle_wf.
  - reflexivity.
  - apply four_cycle_connected.
  - apply cycle_eigsh_returns.
  - apply lowest_in_range.
  - simpl in HL. subst L. eexists _, _. split; [exact Hrun|].
    apply Hsorted. apply cycle_eigsh_ascending.
Defined.

(** C3 as stated fails on the cycle: the eigenvalues that are kept are 0 and
    -1, in this order. *)
Lemma eigsh_path_not_descending_magnitude :
  eigsh_returns cycle_eigsh 4 3 ∧ eigsh_ascending cycle_eigsh 4 3 ∧
  (∃ Phi_pt σ',
     calculate_diffusion_map zero_svd cycle_eigsh (λ _, tt) lowest
       four_cycle 3 (1 / 2) "eigsh" 0%Z (one_buffer (repeat 2 8))
     = (Ok (Phi_pt, [0; -1]), σ')) ∧
  ¬ descending_magnitude [0; -1].
Proof.
  split; [apply cycle_eigsh_returns|]. split; [apply cycle_eigsh_ascending|]. split.
  - destruct (calculate_diffusion_map_returns zero_svd cycle_eigsh (λ _, tt) lowest
                (one_buffer (repeat 2 8)) four_cycle 3 (1 / 2) "eigsh" 0%Z)
      as (Wn & σ1 & La & U & σ2 & Phi & L & _ & Hdec & Hrun & _ & _ & HL & _).
    + apply four_cycle_wf.
    + vm_compute; reflexivity.
    + right. split; [done|]. split; [apply cycle_eigsh_returns|apply lowest_in_range].
    + rewrite decompose_eigsh in Hdec. injection Hdec as <- _ _. simpl in HL. subst L.
      by exists Phi, σ2.
  - unfold descending_magnitude. intros H.
    apply StronglySorted_inv in H as [_ H]. apply Forall_cons in H as [H _].
    rewrite Rabs_R0, Rabs_left in H; lra.
Qed.
End DiffusionMapExamples.

(** ** What the diffusion map reads and writes *)

Section DiffusionMapEffects.
Context {rng : Type}.
Variable randomized_svd : csr_matrix → nat → Z → matrix * vector * matrix.
Variable eigsh : csr_matrix → nat → vector → vector * matrix.
Variable seed_state : Z → rng.
Variable uniform : rng → R → R → nat → vector * rng.
Local Open Scope R_scope.

Lemma fresh_insert_ne (h : gmap loc vector) l :
  is_Some (h !! l) → fresh (dom h) ≠ l.
Proof. intros Hl <-. apply (is_fresh (dom h)). by apply elem_of_dom. Qed.

(** Whatever [calculate_normalized_affinity] is given, and whether it returns
    or raises, it writes to the buffers it allocates only. *)
Lemma calculate_normalized_affinity_keeps (σ : np_state rng) W l :
  is_Some (heap σ !! l) →
  heap (calculate_normalized_affinity W σ).2 !! l = heap σ !! l ∧
  np_random (calculate_normalized_affinity W σ).2 = np_random σ.
Proof.
  intros Hl.
  pose proof (fresh_insert_ne _ _ Hl) as Hl1.
  unfold calculate_normalized_affinity, view, tocoo, tocsr, idiv, read, alloc, write,
    lift, raise, mbind, M_bind, mret, M_ret. simpl.
  repeat (first [ destruct (take_at _ _) | destruct (decide _) ]; simpl);
    rewrite ?insert_insert_eq; rewrite ?lookup_insert_ne; try done.
  all: apply fresh_insert_ne; by rewrite lookup_insert_ne.
Qed.

Lemma decompose_heap (σ : np_state rng) Wn k solver seed :
  heap (decompose randomized_svd eigsh seed_state uniform Wn k solver seed σ).2 = heap σ.
Proof.
  unfold decompose, view, np_random_seed, np_random_uniform, assert, raise,
    mbind, M_bind, mret, M_ret. simpl.
  destruct (decide _); [by destruct (randomized_svd _ _ _) as [[U Sigma] VT]|].
  destruct (bool_decide _); simpl; [|done].
  by destruct (uniform _ _ _ _).
Qed.

Lemma calculate_diffusion_map_keeps (σ : np_state rng) W k alpha solver seed l :
  is_Some (heap σ !! l) →
  heap (calculate_diffusion_map randomized_svd eigsh seed_state uniform
          W k alpha solver seed σ).2 !! l = heap σ !! l.
Proof.
  intros Hl. unfold calculate_diffusion_map, lift, assert, raise.
  unfold mbind at 1, M_bind at 1.
  destruct (connected_components W) as [nc|e]; [|done].
  unfold mbind at 1, M_bind at 1.
  destruct (bool_decide _); simpl; [|done].
  unfold mbind at 1, M_bind at 1.
  destruct (calculate_normalized_affinity_keeps σ W l Hl) as [Hna _].
  destruct (calculate_normalized_affinity W σ) as [[[[Wn d] dh]|e] σ1]; simpl in *; [|done].
  unfold mbind, M_bind.
  pose proof (decompose_heap σ1 Wn k solver seed) as Hdec.
  destruct (decompose _ _ _ _ _ _ _ _ _) as [[[La U]|e] σ2]; simpl in *; by rewrite Hdec.
Qed.


Lemma calculate_normalized_affinity_reseed (σ : np_state rng) W g :
  calculate_normalized_affinity W (reseed g σ)
  = ((calculate_normalized_affinity W σ).1,
     reseed g (calculate_normalized_affinity W σ).2).
Proof.
  unfold calculate_normalized_affinity, view, tocoo, tocsr, idiv, read, alloc, write,
    lift, raise, mbind, M_bind, mret, M_ret, reseed. simpl.
  repeat (first [ destruct (take_at _ _) | destruct (decide _) ]; simpl); done.
Qed.

Lemma decompose_reseed (σ : np_state rng) Wn k solver seed g :
  let run := decompose randomized_svd eigsh seed_state uniform Wn k solver seed in
  (run (reseed g σ)).1 = (run σ).1 ∧
  (solver = "randomized" → (run σ).2 = σ) ∧
  (solver ≠ "randomized" → is_Ok (run σ).1 →
   (run σ).2 = reseed (uniform (seed_state seed) (-1) 1 (sp_nrows Wn)).2 σ ∧
   (run (reseed g σ)).2 = (run σ).2).
Proof.
  unfold decompose, view, np_random_seed, np_random_uniform, assert, raise,
    mbind, M_bind, mret, M_ret, reseed. simpl.
  destruct (decide _) as [->|Hne].
  - destruct (randomized_svd _ _ _) as [[U Sigma] VT]. simpl. by repeat split.
  - destruct (bool_decide _); simpl; [|by repeat split].
    destruct (uniform _ _ _ _) as [v0 g']. simpl. by repeat split.
Qed.

Lemma calculate_normalized_affinity_shape (σ σ1 : np_state rng) W Wn d dh :
  calculate_normalized_affinity W σ = (Ok (Wn, d, dh), σ1) →
  sp_nrows Wn = sp_nrows W ∧ sp_ncols Wn = sp_ncols W ∧ np_random σ1 = np_random σ.
Proof.
  unfold calculate_normalized_affinity, view, tocoo, tocsr, idiv, read, alloc, write,
    lift, raise, mbind, M_bind, mret, M_ret. simpl.
  repeat (first [ destruct (take_at _ _) | destruct (decide _) ]; simpl); try done.
  by intros [= <- _ _ <-].
Qed.

Lemma calculate_normalized_affinity_generator (σ : np_state rng) W :
  np_random (calculate_normalized_affinity W σ).2 = np_random σ.
Proof.
  unfold calculate_normalized_affinity, view, tocoo, tocsr, idiv, read, alloc, write,
    lift, raise, mbind, M_bind, mret, M_ret. simpl.
  repeat (first [ destruct (take_at _ _) | destruct (decide _) ]; simpl); done.
Qed.

(** X3. A buffer of numpy that exists when [calculate_normalized_affinity]
    or [calculate_diffusion_map] is called holds after the call the data it
    held before it: both functions write to the arrays they allocate only,
    whatever they are given, and whether they return or raise. *)
Theorem diffusion_map_writes_no_buffer (σ : np_state rng) W k alpha solver seed l v :
  heap σ !! l = Some v →
  heap (calculate_normalized_affinity W σ).2 !! l = Some v ∧
  heap (calculate_diffusion_map randomized_svd eigsh seed_state uniform
          W k alpha solver seed σ).2 !! l = Some v.
Proof.
  intros Hl. split.
  - rewrite <- Hl. by apply calculate_normalized_affinity_keeps.
  - rewrite <- Hl. by apply calculate_diffusion_map_keeps.
Qed.

Lemma calculate_diffusion_map_unfold (σ : np_state rng) W k alpha solver seed :
  calculate_diffusion_map randomized_svd eigsh seed_state uniform W k alpha solver seed σ
  = match connected_components W with
    | Raise e => (Raise e, σ)
    | Ok nc =>
        if bool_decide (nc = 1%nat) then
          match calculate_normalized_affinity W σ with
          | (Raise e, σ1) => (Raise e, σ1)
          | (Ok (Wn, d, dh), σ1) =>
              match decompose randomized_svd eigsh seed_state uniform Wn k solver seed σ1 with
              | (Raise e, σ2) => (Raise e, σ2)
              | (Ok (La, U), σ2) =>
                  (Ok (map (λ row, zip_with Rmult row
                                     (map (λ l, l / (1 - alpha * l)) (drop 1 La)))
                         (zip_with (λ row d, map (λ x, x / d) row) (map (drop 1) U) dh),
                       drop 1 La), σ2)
              end
          end
        else (Raise AssertionError, σ)
    end.
Proof.
  unfold calculate_diffusion_map, lift, assert, raise, mbind, M_bind, mret, M_ret.
  destruct (connected_components W) as [nc|e]; [|done].
  destruct (bool_decide _); [|done].
  destruct (calculate_normalized_affinity W σ) as [[[[Wn d] dh]|e] σ1]; [|done].
  by destruct (decompose _ _ _ _ _ _ _ _ _) as [[[La U]|e] σ2].
Qed.

(** X4. The state the global random generator is in when
    [calculate_diffusion_map] is called has no influence on the call: from
    another state of the generator the result, or the exception, is the same,
    and so are the buffers. With the solver "randomized" the call leaves the
    generator in the state it found it in. With another solver, when the
    call returns, the generator is left in the state that follows the draw
    of one number for each row of [W] from the state of the seed, whatever
    its state was before. *)
Theorem diffusion_map_ignores_generator (σ : np_state rng) W k alpha solver seed g :
  let run := calculate_diffusion_map randomized_svd eigsh seed_state uniform
               W k alpha solver seed in
  (run (reseed g σ)).1 = (run σ).1 ∧
  heap (run (reseed g σ)).2 = heap (run σ).2 ∧
  (solver = "randomized" → np_random (run σ).2 = np_random σ) ∧
  (solver ≠ "randomized" → is_Ok (run σ).1 →
   np_random (run σ).2 = (uniform (seed_state seed) (-1) 1 (sp_nrows W)).2 ∧
   (run (reseed g σ)).2 = (run σ).2).
Proof.
  cbv zeta. rewrite !calculate_diffusion_map_unfold.
  destruct (connected_components W) as [nc|e]; [|by repeat split].
  destruct (bool_decide _); simpl; [|by repeat split].
  rewrite calculate_normalized_affinity_reseed.
  pose proof (calculate_normalized_affinity_generator σ W) as Hgen.
  destruct (calculate_normalized_affinity W σ) as [[[[Wn d] dh]|e] σ1] eqn:Hna;
    simpl in *; [|by repeat split].
  destruct (calculate_normalized_affinity_shape _ _ _ _ _ _ Hna) as (Hrows & _ & _).
  destruct (decompose_reseed σ1 Wn k solver seed g) as (Hres & Hrand & Heig).
  pose proof (decompose_heap (reseed g σ1) Wn k solver seed) as Hheap'.
  pose proof (decompose_heap σ1 Wn k solver seed) as Hheap.
  destruct (decompose _ _ _ _ _ _ _ _ (reseed g σ1)) as [[[La' U']|e'] σ2'];
    destruct (decompose _ _ _ _ _ _ _ _ σ1) as [[[La U]|e] σ2]; simpl in *;
    try discriminate.
  - injection Hres as <- <-. split; [done|]. split; [congruence|]. split.
    + intros Hs. rewrite (Hrand Hs). done.
    + intros Hs _. destruct (Heig Hs I) as [-> ->]. by rewrite Hrows.
  - injection Hres as <-. split; [done|]. split; [congruence|]. split.
    + intros Hs. rewrite (Hrand Hs). done.
    + intros _ [].
Qed.

Lemma normalized_affinity_entry (σ : np_state rng) W :
  wf_sparse σ W → sp_ncols W = sp_nrows W →
  let d := row_sums (snapshot σ W) in
  let dh := map sqrt d in
  ∃ Wn σ',
    calculate_normalized_affinity W σ = (Ok (Wn, d, dh), σ') ∧
    sp_nrows Wn = sp_nrows W ∧ sp_ncols Wn = sp_ncols W ∧
    ∀ i j, entry (snapshot σ' Wn) i j
           = entry (snapshot σ W) i j / (nth i dh 0 * nth j dh 0).
Proof.
  intros Hwf Hsq d dh.
  destruct (calculate_normalized_affinity_spec σ W Hwf Hsq)
    as (Wn & σ' & Hrun & Hr & Hc & (Hrow & Hcol & Hdata) & _).
  fold d in Hrun, Hrow, Hcol, Hdata. fold dh in Hrun, Hrow, Hcol, Hdata.
  exists Wn, σ'. repeat (split; [done|]).
  intros i j. unfold entry.
  assert (entries (snapshot σ' Wn) = coalesce (normalized dh (entries (snapshot σ W)))) as ->.
  { unfold entries at 1. simpl. rewrite Hrow, Hcol, Hdata. apply zip_unzip. }
  fold (entry_of (coalesce (normalized dh (entries (snapshot σ W)))) (i, j)).
  fold (entry_of (entries (snapshot σ W)) (i, j)).
  rewrite entry_of_coalesce. unfold normalized.
  apply (entry_of_normalized (λ i, nth i dh 0) (λ j, nth j dh 0)).
Qed.

Lemma sum_R_scale {A} (f : A → R) c l :
  sum_R (map (λ a, f a / c) l) = sum_R (map f l) / c.
Proof. induction l as [|a l IH]; simpl; [lra|]. rewrite IH. lra. Qed.

Lemma diag_half_nth (W : csr_matrix) i :
  Forall (λ j, (j < sp_ncols W)%nat) (sp_col W) →
  Forall (λ x, 0 < x) (row_sums W) →
  (i < sp_nrows W)%nat →
  let s := sum_R (map (λ j, entry W i j) (seq 0 (sp_ncols W))) in
  nth i (map sqrt (row_sums W)) 0 = sqrt s ∧ 0 < s.
Proof.
  intros Hcol Hpos Hi s.
  pose proof (row_sums_entries W i Hcol Hi) as Hrow. fold s in Hrow.
  split.
  - apply nth_lookup_Some with (d := 0).
    change (map ?f ?l) with (f <$> l). by rewrite list_lookup_fmap, Hrow.
  - rewrite Forall_forall in Hpos. apply Hpos. by eapply list_elem_of_lookup_2.
Qed.

(** X1. Let [W] be a square sparse matrix whose row sums are positive. When
    [W] is symmetric ([W[i, j] = W[j, i]] for all [i] and [j]), so is the
    normalized affinity matrix that [calculate_normalized_affinity]
    returns. *)
Theorem normalized_affinity_symmetric (σ : np_state rng) W :
  wf_sparse σ W → sp_ncols W = sp_nrows W →
  Forall (λ x, 0 < x) (row_sums (snapshot σ W)) →
  (∀ i j, entry (snapshot σ W) i j = entry (snapshot σ W) j i) →
  ∃ Wn d dh σ',
    calculate_normalized_affinity W σ = (Ok (Wn, d, dh), σ') ∧
    ∀ i j, entry (snapshot σ' Wn) i j = entry (snapshot σ' Wn) j i.
Proof.
  intros Hwf Hsq _ Hsym.
  destruct (normalized_affinity_entry σ W Hwf Hsq) as (Wn & σ' & Hrun & _ & _ & Hentry).
  eexists Wn, _, _, σ'. split; [exact Hrun|].
  intros i j. rewrite !Hentry, Hsym. f_equal. lra.
Qed.

(** X2. Let [W] be a square sparse matrix whose row sums are positive, and
    [(W_norm, d, d_half)] what [calculate_normalized_affinity] returns. Then
    [W_norm d_half = d_half]: the normalized affinity has the eigenvalue 1,
    with [d_half], the square roots of the row sums, as an eigenvector. *)
Theorem normalized_affinity_fixes_diag_half (σ : np_state rng) W :
  wf_sparse σ W → sp_ncols W = sp_nrows W →
  Forall (λ x, 0 < x) (row_sums (snapshot σ W)) →
  ∃ Wn d dh σ',
    calculate_normalized_affinity W σ = (Ok (Wn, d, dh), σ') ∧
    matvec (snapshot σ' Wn) dh = dh.
Proof.
  intros Hwf Hsq Hpos.
  destruct (normalized_affinity_entry σ W Hwf Hsq) as (Wn & σ' & Hrun & Hr & Hc & Hentry).
  eexists Wn, _, _, σ'. split; [exact Hrun|].
  destruct Hwf as (_ & _ & _ & _ & Hcol).
  set (V := snapshot σ W) in *.
  assert (HcolV : Forall (λ j, (j < sp_ncols V)%nat) (sp_col V)) by done.
  unfold matvec. simpl. rewrite Hr, Hc.
  unfold row_sums at 2. rewrite map_map. change (sp_nrows V) with (sp_nrows W).
  apply map_ext_in. intros i [_ Hi]%in_seq. simpl in Hi.
  destruct (diag_half_nth V i HcolV Hpos Hi) as [Hdi Hsi].
  transitivity (sum_R (map (λ j, entry V i j / nth i (map sqrt (row_sums V)) 0)
                          (seq 0 (sp_ncols W)))).
  - f_equal. apply map_ext_in. intros j [_ Hj]%in_seq. simpl in Hj.
    rewrite Hentry.
    assert (Hj' : (j < sp_nrows V)%nat) by (simpl; lia).
    destruct (diag_half_nth V j HcolV Hpos Hj') as [Hdj Hsj].
    rewrite Hdj. pose proof (sqrt_lt_R0 _ Hsj). rewrite Hdi.
    pose proof (sqrt_lt_R0 _ Hsi). field. lra.
  - rewrite sum_R_scale, Hdi.
    pose proof (row_sums_entries V i HcolV Hi) as Hrow.
    assert (sum_R (map snd (filter (λ e, e.1.1 = i) (entries V)))
            = sum_R (map (λ j, entry V i j) (seq 0 (sp_ncols W)))) as ->.
    { unfold row_sums in Hrow. change (map ?f ?l) with (f <$> l) in Hrow at 1.
      rewrite list_lookup_fmap, lookup_seq_lt in Hrow by done. simpl in Hrow.
      by injection Hrow. }
    change (sp_ncols W) with (sp_ncols V).
    set (s := sum_R _) in *. pose proof (sqrt_lt_R0 _ Hsi).
    rewrite <- (sqrt_sqrt s) at 1 by lra. field. lra.
Qed.

(** X5. Let [W] be a square sparse matrix whose graph is strongly
    connected. With a solver that is neither "randomized" nor "eigsh",
    [calculate_diffusion_map] raises an assertion error (line 45), and the
    global random generator is not seeded. *)
Theorem diffusion_map_unknown_solver (σ : np_state rng) W k alpha solver seed :
  wf_sparse σ W → sp_ncols W = sp_nrows W → strongly_connected W →
  solver ≠ "randomized" → solver ≠ "eigsh" →
  let run := calculate_diffusion_map randomized_svd eigsh seed_state uniform
               W k alpha solver seed in
  (run σ).1 = Raise AssertionError ∧ np_random (run σ).2 = np_random σ.
Proof.
  intros Hwf Hsq Hconn H1 H2 run. unfold run.
  rewrite calculate_diffusion_map_unfold.
  apply (connected_components_one σ W Hwf Hsq) in Hconn. rewrite Hconn. simpl.
  destruct (calculate_normalized_affinity_spec σ W Hwf Hsq)
    as (Wn & σ' & Hrun & _ & _ & _ & _ & Hgen).
  rewrite Hrun, decompose_other by done. done.
Qed.
End DiffusionMapEffects.

(** ** The driver [diffmap] *)

Lemma set_uns_same k u d : uns d !! k = Some u → set_uns k u d = d.
Proof.
  intros H. destruct d as [names o om un]. unfold set_uns. simpl in *.
  f_equal. by apply insert_id.
Qed.

Section DiffmapDriver.
Context {rng : Type}.
Variable randomized_svd : csr_matrix → nat → Z → matrix * vector * matrix.
Variable eigsh : csr_matrix → nat → vector → vector * matrix.
Variable seed_state : Z → rng.
Variable uniform : rng → R → R → nat → vector * rng.
Local Open Scope R_scope.

Abbreviation diffmap' := (diffmap randomized_svd eigsh seed_state uniform).
Abbreviation calculate_diffusion_map'' :=
  (calculate_diffusion_map randomized_svd eigsh seed_state uniform).

(** The matrix of a slot, its data in the buffer [l]. *)
Lemma diffmap_unfold k rep alpha solver seed data (σ : np_state rng) :
  diffmap' k rep alpha solver seed (data, σ) =
    match uns data !! ("W_" +:+ rep) with
    | None => (Raise no_affinity_error, (data, σ))
    | Some (UnsSparse V) =>
        let W := in_buffer V (fresh (dom (heap σ))) in
        match calculate_diffusion_map'' W k alpha solver seed (load (sp_data V) σ) with
        | (Raise e, σ') => (Raise e, (data, σ'))
        | (Ok (Phi_pt, Lambda), σ') =>
            if decide (length Phi_pt = length (obs_names data))
            then (Ok tt, (set_uns "diffmap_evals" (UnsVector Lambda)
                            (set_obsm "X_diffmap" Phi_pt data), σ'))
            else (Raise (ValueError "Can only assign an array of same length"), (data, σ'))
        end
    | Some _ => (Raise AssertionError, (data, σ))
    end.
Proof.
  unfold diffmap, uns_buffer, with_shared, on_data, on_numpy, uns_matrix, assign_obsm,
    alloc, get, modify, raise, mbind, M_bind, mret, M_ret. simpl.
  destruct (uns data !! ("W_" +:+ rep)) as [[V|?|?]|] eqn:E; simpl; rewrite ?E; simpl;
    try done.
  fold (load (sp_data V) σ).
  fold (in_buffer V (fresh (dom (heap σ)))).
  set (W := in_buffer V _).
  assert (Hsame : ∀ σ' : np_state rng, heap σ' !! sp_data W = Some (sp_data V) →
            set_uns ("W_" +:+ rep) (UnsSparse (snapshot σ' W)) data = data).
  { intros σ' Hσ'. apply set_uns_same. rewrite E. do 2 f_equal.
    destruct V. unfold snapshot, buffer. simpl in *. by rewrite Hσ'. }
  pose proof (calculate_diffusion_map_keeps randomized_svd eigsh seed_state uniform
                (load (sp_data V) σ) W k alpha solver seed (sp_data W)) as Hkeep.
  assert (Hl : heap (load (sp_data V) σ) !! sp_data W = Some (sp_data V)).
  { unfold load. simpl. by rewrite lookup_insert_eq. }
  rewrite Hl in Hkeep. specialize (Hkeep ltac:(done)).
  destruct (calculate_diffusion_map _ _ _ _ _ _ _ _ _ _) as [[[Phi La]|e] σ'];
    simpl in *; rewrite (Hsame σ' Hkeep); [|done].
  destruct (decide _); done.
Qed.

Lemma calculate_normalized_affinity_errors (σ : np_state rng) W e :
  (calculate_normalized_affinity W σ).1 = Raise e →
  e = IndexError ∨ e = ValueError "operands could not be broadcast together".
Proof.
  unfold calculate_normalized_affinity, view, tocoo, tocsr, idiv, read, alloc, write,
    lift, raise, mbind, M_bind, mret, M_ret. simpl.
  assert (Htake : ∀ v ix e', take_at v ix = Raise e' → e' = IndexError).
  { intros v ix e'. induction ix as [|i ix IH]; simpl; [done|].
    destruct (v !! i); [|by intros [= <-]].
    destruct (take_at v ix); simpl; [done|]. intros [= <-]. by apply IH. }
  destruct (take_at _ (sp_row W)) as [by_row|e1] eqn:E1; simpl;
    [|intros [= Heq]; subst e; left; by eapply Htake].
  destruct (decide _); simpl; [|intros [= Heq]; subst e; by right].
  destruct (take_at _ (sp_col W)) as [by_col|e2] eqn:E2; simpl;
    [|intros [= Heq]; subst e; left; by eapply Htake].
  destruct (decide _); simpl; [done|intros [= Heq]; subst e; by right].
Qed.

Lemma decompose_errors (σ : np_state rng) Wn k solver seed e :
  (decompose randomized_svd eigsh seed_state uniform Wn k solver seed σ).1 = Raise e →
  e = AssertionError.
Proof.
  unfold decompose, view, np_random_seed, np_random_uniform, assert, raise,
    mbind, M_bind, mret, M_ret. simpl.
  destruct (decide _); [by destruct (randomized_svd _ _ _) as [[U Sigma] VT]|].
  destruct (bool_decide _); simpl; [|by intros [= <-]].
  by destruct (uniform _ _ _ _).
Qed.

Lemma calculate_diffusion_map_errors (σ : np_state rng) W k alpha solver seed e :
  (calculate_diffusion_map'' W k alpha solver seed σ).1 = Raise e →
  e ≠ no_affinity_error.
Proof.
  rewrite calculate_diffusion_map_unfold. unfold connected_components.
  destruct (decide _); [|by intros [= <-]].
  destruct (bool_decide _); [|by intros [= <-]].
  pose proof (calculate_normalized_affinity_errors σ W) as Hna.
  destruct (calculate_normalized_affinity W σ) as [[[[Wn d] dh]|e'] σ1]; simpl in *.
  - pose proof (decompose_errors σ1 Wn k solver seed) as Hdec.
    destruct (decompose _ _ _ _ _ _ _ _ _) as [[[La U]|e'] σ2]; simpl in *; [done|].
    intros [= <-]. by rewrite (Hdec _ eq_refl).
  - intros [= <-]. by destruct (Hna _ eq_refl) as [-> | ->].
Qed.

(** X6. [diffmap] raises the error "Affinity matrix does not exist. Please
    run neighbors first!" if and only if [uns] has no slot [W_<rep>]: no
    other failure of [diffmap] has this error. When the slot is absent, the
    container and the state of numpy are after the call what they were
    before it. *)
Theorem diffmap_missing_affinity k rep alpha solver seed data (σ : np_state rng) :
  (uns data !! ("W_" +:+ rep) = None ↔
   (diffmap' k rep alpha solver seed (data, σ)).1
   = Raise (ValueError "Affinity matrix does not exist. Please run neighbors first!")) ∧
  (uns data !! ("W_" +:+ rep) = None →
   diffmap' k rep alpha solver seed (data, σ)
   = (Raise (ValueError "Affinity matrix does not exist. Please run neighbors first!"),
      (data, σ))).
Proof.
  rewrite diffmap_unfold. split; [split|].
  - by intros ->.
  - destruct (uns data !! ("W_" +:+ rep)) as [[V|?|?]|]; simpl; try done.
    pose proof (calculate_diffusion_map_errors (load (sp_data V) σ)
                  (in_buffer V (fresh (dom (heap σ)))) k alpha solver seed) as Herr.
    destruct (calculate_diffusion_map _ _ _ _ _ _ _ _ _ _) as [[[Phi La]|e] σ'];
      simpl in *.
    + by destruct (decide _).
    + intros [= ->]. by destruct (Herr _ eq_refl).
  - by intros ->.
Qed.

(** X7. When [diffmap] raises, whatever the exception, the container is
    what it was before the call: neither [X_diffmap] nor [diffmap_evals] is
    written, and the affinity matrix is what it was. *)
Theorem diffmap_failure_leaves_container k rep alpha solver seed data (σ : np_state rng) e :
  (diffmap' k rep alpha solver seed (data, σ)).1 = Raise e →
  (diffmap' k rep alpha solver seed (data, σ)).2.1 = data.
Proof.
  rewrite diffmap_unfold.
  destruct (uns data !! ("W_" +:+ rep)) as [[V|?|?]|]; simpl; try done.
  destruct (calculate_diffusion_map _ _ _ _ _ _ _ _ _ _) as [[[Phi La]|e'] σ'];
    simpl; [|done].
  by destruct (decide _).
Qed.

(** A matrix held as a value, whose arrays agree with each other and with
    its shape, is well formed once its data are in a buffer. *)
Lemma in_buffer_wf (σ : np_state rng) V :
  wf_matrix V → wf_sparse (load (sp_data V) σ) (in_buffer V (fresh (dom (heap σ)))).
Proof.
  intros (H1 & H2 & H3 & H4). unfold wf_sparse, load, in_buffer, buffer. simpl.
  rewrite lookup_insert_eq. simpl. by repeat split.
Qed.

Lemma in_buffer_connected V l : strongly_connected V → strongly_connected (in_buffer V l).
Proof. done. Qed.

Lemma diffmap_returns k rep alpha solver seed data (σ : np_state rng) V :
  uns data !! ("W_" +:+ rep) = Some (UnsSparse V) →
  wf_matrix V → sp_ncols V = sp_nrows V → strongly_connected V →
  sp_nrows V = length (obs_names data) →
  (solver = "randomized" ∧ svd_returns randomized_svd (sp_nrows V) k ∨
   solver = "eigsh" ∧ eigsh_returns eigsh (sp_nrows V) k ∧ uniform_in_range uniform) →
  ∃ Phi_pt Lambda σ',
    calculate_diffusion_map'' (in_buffer V (fresh (dom (heap σ)))) k alpha solver seed
      (load (sp_data V) σ) = (Ok (Phi_pt, Lambda), σ') ∧
    diffmap' k rep alpha solver seed (data, σ)
    = (Ok tt, (set_uns "diffmap_evals" (UnsVector Lambda)
                 (set_obsm "X_diffmap" Phi_pt data), σ')) ∧
    mshape Phi_pt (length (obs_names data)) (k - 1) ∧
    length Lambda = (k - 1)%nat.
Proof.
  intros HV Hwf Hsq Hconn Hn Hsolver.
  rewrite diffmap_unfold, HV. cbv zeta.
  pose proof (in_buffer_wf σ V Hwf) as Hwf'.
  set (W := in_buffer V _) in *.
  assert (Hcc : connected_components W = Ok 1%nat).
  { by apply (connected_components_one (load (sp_data V) σ) W Hwf'). }
  destruct (calculate_diffusion_map_returns randomized_svd eigsh seed_state uniform
              (load (sp_data V) σ) W k alpha solver seed Hwf' Hcc Hsolver)
    as (Wn & σ1 & La & U & σ2 & Phi & L & _ & _ & Hrun & _ & _ & _ & HL & HPhi & _).
  exists Phi, L, σ2. rewrite Hrun. simpl in HPhi. rewrite Hn in HPhi.
  rewrite decide_True by apply HPhi. done.
Qed.

(** X8. Let the slot [W_<rep>] of [uns] hold a square sparse matrix that has
    one row for each cell and whose graph is strongly connected, and let the
    solver that is chosen return [k] eigenpairs. Then [diffmap] returns;
    after it [obsm["X_diffmap"]] is a matrix of one row for each cell and
    [k - 1] columns and [uns["diffmap_evals"]] a vector of [k - 1]
    eigenvalues, and nothing else of the container has changed: the names
    of the cells, [obs], the other matrices of [obsm], the other slots of
    [uns] and, among them, the affinity matrix. The buffers of numpy that
    existed before the call hold what they held. *)
Theorem diffmap_stores_coordinates k rep alpha solver seed data (σ : np_state rng) V :
  uns data !! ("W_" +:+ rep) = Some (UnsSparse V) →
  wf_matrix V → sp_ncols V = sp_nrows V → strongly_connected V →
  sp_nrows V = length (obs_names data) →
  (solver = "randomized" ∧ svd_returns randomized_svd (sp_nrows V) k ∨
   solver = "eigsh" ∧ eigsh_returns eigsh (sp_nrows V) k ∧ uniform_in_range uniform) →
  ∃ Phi_pt Lambda data' σ',
    diffmap' k rep alpha solver seed (data, σ) = (Ok tt, (data', σ')) ∧
    obsm data' !! "X_diffmap" = Some Phi_pt ∧
    uns data' !! "diffmap_evals" = Some (UnsVector Lambda) ∧
    mshape Phi_pt (length (obs_names data)) (k - 1) ∧
    length Lambda = (k - 1)%nat ∧
    obs_names data' = obs_names data ∧ obs data' = obs data ∧
    (∀ key, key ≠ "X_diffmap" → obsm data' !! key = obsm data !! key) ∧
    (∀ key, key ≠ "diffmap_evals" → uns data' !! key = uns data !! key) ∧
    uns data' !! ("W_" +:+ rep) = Some (UnsSparse V) ∧
    (∀ l v, heap σ !! l = Some v → heap σ' !! l = Some v).
Proof.
  intros HV Hwf Hsq Hconn Hn Hsolver.
  destruct (diffmap_returns k rep alpha solver seed data σ V HV Hwf Hsq Hconn Hn Hsolver)
    as (Phi & L & σ' & Hcdm & Hrun & HPhi & HL).
  eexists Phi, L, _, σ'. split; [exact Hrun|]. simpl.
  split; [by rewrite lookup_insert_eq|]. split; [by rewrite lookup_insert_eq|].
  split; [done|]. split; [done|]. split; [done|]. split; [done|].
  split; [by intros key Hkey; rewrite lookup_insert_ne|].
  split; [by intros key Hkey; rewrite lookup_insert_ne|].
  split.
  { rewrite lookup_insert_ne; [done|]. discriminate. }
  intros l v Hl.
  pose proof (calculate_diffusion_map_keeps randomized_svd eigsh seed_state uniform
                (load (sp_data V) σ) (in_buffer V (fresh (dom (heap σ))))
                k alpha solver seed l) as Hkeep.
  assert (Hl' : heap (load (sp_data V) σ) !! l = Some v).
  { unfold load. simpl. rewrite lookup_insert_ne; [done|].
    by apply fresh_insert_ne. }
  rewrite Hcdm, Hl' in Hkeep. by apply Hkeep.
Qed.
End DiffmapDriver.

(** *** Running [diffmap] again *)

Section Reproducible.
Context {rng : Type}.
Variable randomized_svd : csr_matrix → nat → Z → matrix * vector * matrix.
Variable eigsh : csr_matrix → nat → vector → vector * matrix.
Variable seed_state : Z → rng.
Variable uniform : rng → R → R → nat → vector * rng.
Local Open Scope R_scope.

Lemma connected_components_snapshot (σ σ' : np_state rng) W W' :
  snapshot σ W = snapshot σ' W' → connected_components W = connected_components W'.
Proof.
  destruct W as [n m rows cols l], W' as [n' m' rows' cols' l'].
  unfold snapshot. simpl. intros [= -> -> -> -> _]. done.
Qed.

Lemma normalized_affinity_snapshot (σ σ' : np_state rng) W W' :
  wf_sparse σ W → wf_sparse σ' W' → sp_ncols W = sp_nrows W →
  snapshot σ W = snapshot σ' W' →
  ∃ Wn σ1 Wn' σ1' d dh,
    calculate_normalized_affinity W σ = (Ok (Wn, d, dh), σ1) ∧
    calculate_normalized_affinity W' σ' = (Ok (Wn', d, dh), σ1') ∧
    snapshot σ1 Wn = snapshot σ1' Wn'.
Proof.
  intros Hwf Hwf' Hsq Hsnap.
  assert (Hsq' : sp_ncols W' = sp_nrows W').
  { apply (f_equal sp_nrows) in Hsnap as Hr. apply (f_equal sp_ncols) in Hsnap as Hc.
    simpl in *. congruence. }
  destruct (calculate_normalized_affinity_spec σ W Hwf Hsq)
    as (Wn & σ1 & Hrun & Hr & Hc & (Hrow & Hcol & Hdata) & _).
  destruct (calculate_normalized_affinity_spec σ' W' Hwf' Hsq')
    as (Wn' & σ1' & Hrun' & Hr' & Hc' & (Hrow' & Hcol' & Hdata') & _).
  rewrite <- Hsnap in Hrun', Hrow', Hcol', Hdata'.
  eexists Wn, σ1, Wn', σ1', _, _. split; [exact Hrun|]. split; [exact Hrun'|].
  apply (f_equal sp_nrows) in Hsnap as Hr0. apply (f_equal sp_ncols) in Hsnap as Hc0.
  simpl in Hr0, Hc0.
  unfold snapshot. rewrite Hr, Hc, Hr', Hc', Hrow, Hcol, Hrow', Hcol', Hdata, Hdata'.
  by rewrite Hr0, Hc0.
Qed.

Lemma decompose_snapshot (σ σ' : np_state rng) Wn Wn' k solver seed :
  snapshot σ Wn = snapshot σ' Wn' →
  (decompose randomized_svd eigsh seed_state uniform Wn k solver seed σ).1
  = (decompose randomized_svd eigsh seed_state uniform Wn' k solver seed σ').1.
Proof.
  intros Hsnap. apply (f_equal sp_nrows) in Hsnap as Hr. simpl in Hr.
  destruct (decide (solver = "randomized")) as [->|H1].
  { by rewrite !decompose_randomized, Hsnap. }
  destruct (decide (solver = "eigsh")) as [->|H2].
  { rewrite !decompose_eigsh. cbv zeta. simpl. by rewrite Hsnap, Hr. }
  by rewrite !decompose_other.
Qed.

Lemma calculate_diffusion_map_snapshot (σ σ' : np_state rng) W W' k alpha solver seed :
  wf_sparse σ W → wf_sparse σ' W' → sp_ncols W = sp_nrows W →
  snapshot σ W = snapshot σ' W' →
  (calculate_diffusion_map randomized_svd eigsh seed_state uniform
     W k alpha solver seed σ).1
  = (calculate_diffusion_map randomized_svd eigsh seed_state uniform
       W' k alpha solver seed σ').1.
Proof.
  intros Hwf Hwf' Hsq Hsnap. rewrite !calculate_diffusion_map_unfold.
  rewrite <- (connected_components_snapshot σ σ' W W' Hsnap).
  destruct (connected_components W) as [nc|e]; [|done].
  destruct (bool_decide _); [|done].
  destruct (normalized_affinity_snapshot σ σ' W W' Hwf Hwf' Hsq Hsnap)
    as (Wn & σ1 & Wn' & σ1' & d & dh & -> & -> & Hsnap1).
  pose proof (decompose_snapshot σ1 σ1' Wn Wn' k solver seed Hsnap1) as Hdec.
  destruct (decompose _ _ _ _ Wn _ _ _ _) as [[[La U]|e] σ2];
    destruct (decompose _ _ _ _ Wn' _ _ _ _) as [[[La' U']|e'] σ2']; simpl in *;
    try discriminate.
  - by injection Hdec as -> ->.
  - by injection Hdec as ->.
Qed.

(** X9. Let the slot [W_<rep>] hold a square sparse matrix. When [diffmap]
    has returned, [diffmap] with the same arguments, on the container and in
    the state of numpy the first call has left, returns again and leaves the
    container as it is: the coordinates and the eigenvalues it computes are
    those of the first call. *)
Theorem diffmap_again_changes_nothing k rep alpha solver seed data (σ : np_state rng)
    V data1 σ1 :
  uns data !! ("W_" +:+ rep) = Some (UnsSparse V) →
  wf_matrix V → sp_ncols V = sp_nrows V →
  diffmap randomized_svd eigsh seed_state uniform k rep alpha solver seed (data, σ)
    = (Ok tt, (data1, σ1)) →
  ∃ σ2,
    diffmap randomized_svd eigsh seed_state uniform k rep alpha solver seed (data1, σ1)
      = (Ok tt, (data1, σ2)).
Proof.
  intros HV Hwf Hsq. rewrite !diffmap_unfold, HV. cbv zeta.
  pose proof (calculate_diffusion_map_snapshot
                (load (sp_data V) σ) (load (sp_data V) σ1)
                (in_buffer V (fresh (dom (heap σ)))) (in_buffer V (fresh (dom (heap σ1))))
                k alpha solver seed (in_buffer_wf σ V Hwf) (in_buffer_wf σ1 V Hwf) Hsq)
    as Hsame.
  destruct (calculate_diffusion_map _ _ _ _ _ _ _ _ _ (load (sp_data V) σ))
    as [[[Phi La]|e] σ'] eqn:Hrun; [|done].
  destruct (decide _) as [Hlen|]; [|done].
  intros [= <- <-]. simpl.
  rewrite lookup_insert_ne by done. rewrite HV.
  destruct (calculate_diffusion_map _ _ _ _ _ _ _ _ _ (load (sp_data V) σ'))
    as [r σ2] eqn:Hrun'. simpl in Hsame. rewrite <- Hsame.
  - rewrite decide_True by done. exists σ2. do 2 f_equal.
    unfold set_uns, set_obsm. simpl. by rewrite !insert_insert_eq.
  - destruct V. unfold snapshot, in_buffer, load, buffer. simpl.
    by rewrite !lookup_insert_eq.
Qed.
End Reproducible.

(** ** Pseudo-time for any set of roots *)

Section PseudotimeGeneral.
Local Open Scope R_scope.

Lemma np_mean0_pairs (Xr Y : matrix) :
  Xr ≠ [] →
  np_mean0 (map (λ x, map (λ y, euclidean_distance x y) Y) Xr) = map (mean_distance Xr) Y.
Proof.
  intros HX. unfold np_mean0, col_sums, mean_distance.
  rewrite length_map, map_map.
  assert (width (map (λ x, map (λ y, euclidean_distance x y) Y) Xr) = length Y) as ->.
  { destruct Xr; [done|]. simpl. by rewrite length_map. }
  rewrite <- (map_nth_seq (λ y, sum_R (map (λ x, euclidean_distance x y) Xr) / INR (length Xr)) Y []).
  apply map_ext_in. intros j Hj%in_seq. f_equal. f_equal.
  rewrite map_map. apply map_ext. intros x.
  rewrite (nth_indep _ 0 (euclidean_distance x [])) by (rewrite length_map; lia).
  apply (map_nth (λ y, euclidean_distance x y)).
Qed.

Lemma masked_elem_of {A} idx (X : list A) x : x ∈ masked idx X → x ∈ X.
Proof.
  revert idx. induction X as [|y X IH]; intros [|[] idx]; simpl; try by intros ?%elem_of_nil.
  - intros [->|H]%elem_of_cons; [left|right; by eapply IH].
  - intros H. right. by eapply IH.
Qed.

Lemma masked_lookup_true {A} idx (X : list A) i x :
  idx !! i = Some true → X !! i = Some x → x ∈ masked idx X.
Proof.
  revert idx i. induction X as [|y X IH]; intros [|b idx] [|i]; simpl; try done.
  - intros [= ->] [= ->]. left.
  - intros Hi Hx. destruct b; [right|]; by eapply IH.
Qed.

Lemma root_rows_nonempty names roots (X : matrix) r :
  length X = length names → r ∈ names → r ∈ roots → root_rows names roots X ≠ [].
Proof.
  intros Hlen [i Hi]%list_elem_of_lookup_1 Hr.
  destruct (lookup_lt_is_Some_2 X i) as [x Hx].
  { rewrite Hlen. by eapply lookup_lt_Some. }
  assert (x ∈ root_rows names roots X) as Hin.
  { eapply masked_lookup_true; [|done]. unfold np_isin.
    change (map ?f ?l) with (f <$> l). rewrite list_lookup_fmap, Hi. simpl.
    by rewrite bool_decide_true. }
  intros E. rewrite E in Hin. by apply elem_of_nil in Hin.
Qed.

Lemma check_array_shape (X : matrix) n c :
  mshape X n c → (0 < c)%nat → X ≠ [] → check_array X = Ok X ∧ width X = c.
Proof.
  intros [_ Hw] Hc HX. destruct X as [|r X]; [done|].
  apply Forall_cons in Hw as [Hr _]. simpl. rewrite decide_False by lia. done.
Qed.

Lemma pseudotime_values_returns names roots (X : matrix) n c r :
  mshape X n c → (0 < c)%nat → length names = n → r ∈ names → r ∈ roots →
  let distances := map (mean_distance (root_rows names roots X)) X in
  ∃ dmin dmax,
    np_min distances = Ok dmin ∧ np_max distances = Ok dmax ∧
    pseudotime_values names roots X = Ok (min_max_scale distances dmin dmax).
Proof.
  intros HX Hc Hn Hr Hroot distances.
  assert (Hlen : length X = length names) by (destruct HX; lia).
  pose proof (root_rows_nonempty names roots X r Hlen Hr Hroot) as Hne.
  assert (HXne : X ≠ []).
  { intros ->. by destruct names; [apply elem_of_nil in Hr|]. }
  assert (HXr : mshape (root_rows names roots X) (length (root_rows names roots X)) c).
  { split; [done|]. apply Forall_forall. intros x Hx%masked_elem_of.
    destruct HX as [_ Hw]. rewrite Forall_forall in Hw. by apply Hw. }
  destruct (check_array_shape _ _ _ HXr Hc Hne) as [Hck1 Hw1].
  destruct (check_array_shape _ _ _ HX Hc HXne) as [Hck2 Hw2].
  unfold pseudotime_values, select_rows, euclidean_distances, mbind, res_bind, mret, res_ret.
  rewrite decide_True by (by rewrite np_isin_length).
  fold (root_rows names roots X). rewrite Hck1, Hck2.
  rewrite decide_True by congruence.
  rewrite np_mean0_pairs by done. fold distances.
  assert (distances ≠ []) as Hd.
  { unfold distances. destruct X; [done|]. done. }
  destruct distances as [|d0 ds]; [done|]. simpl.
  by eexists _, _.
Qed.

Lemma pseudotime_returns roots data (X : matrix) c r :
  obsm data !! "X_diffmap" = Some X →
  mshape X (length (obs_names data)) c → (0 < c)%nat →
  r ∈ obs_names data → r ∈ roots →
  let distances := map (mean_distance (root_rows (obs_names data) roots X)) X in
  ∃ dmin dmax,
    np_min distances = Ok dmin ∧ np_max distances = Ok dmax ∧
    calc_pseudotime roots data
    = (Ok tt, set_obs "pseudotime" (FloatColumn (min_max_scale distances dmin dmax))
                (set_uns "roots" (UnsStrings roots) data)).
Proof.
  intros HX Hshape Hc Hr Hroot distances.
  destruct (pseudotime_values_returns (obs_names data) roots X _ c r Hshape Hc eq_refl Hr Hroot)
    as (dmin & dmax & Hmin & Hmax & Hvals).
  exists dmin, dmax. split; [done|]. split; [done|].
  rewrite (calc_pseudotime_present roots data X HX). cbv zeta. rewrite Hvals.
  unfold assign_obs. simpl. rewrite decide_True; [done|].
  unfold min_max_scale. rewrite !length_map. by destruct Hshape.
Qed.

End PseudotimeGeneral.

Section PseudotimeEffects.
Local Open Scope R_scope.

(** X14. Whether it returns or raises, [calc_pseudotime] changes nothing of
    the container but the column [pseudotime] of [obs] and the slot [roots]
    of [uns]: the names of the cells and [obsm] are what they were, and so
    are the other columns and the other slots. When [X_diffmap] is absent
    it changes nothing at all. *)
Theorem pseudotime_writes_two_slots roots data :
  let data' := (calc_pseudotime roots data).2 in
  obs_names data' = obs_names data ∧ obsm data' = obsm data ∧
  (∀ k, k ≠ "pseudotime" → obs data' !! k = obs data !! k) ∧
  (∀ k, k ≠ "roots" → uns data' !! k = uns data !! k) ∧
  (obsm data !! "X_diffmap" = None → data' = data).
Proof.
  cbv zeta. destruct (obsm data !! "X_diffmap") as [X|] eqn:E.
  - rewrite (calc_pseudotime_present roots data X E). cbv zeta.
    destruct (pseudotime_values _ _ _) as [v|e]; simpl.
    + unfold assign_obs. destruct (decide _); simpl; repeat split; try done.
      * intros k Hk. by rewrite lookup_insert_ne.
      * intros k Hk. by rewrite lookup_insert_ne.
      * intros k Hk. by rewrite lookup_insert_ne.
    + repeat split; try done. intros k Hk. by rewrite lookup_insert_ne.
  - rewrite (calc_pseudotime_absent roots data E). by repeat split.
Qed.

Lemma calc_pseudotime_Ok_inv roots data data' :
  calc_pseudotime roots data = (Ok tt, data') →
  ∃ X v, obsm data !! "X_diffmap" = Some X ∧
         pseudotime_values (obs_names data) roots X = Ok v ∧
         length v = length (obs_names data) ∧
         data' = set_obs "pseudotime" (FloatColumn v)
                   (set_uns "roots" (UnsStrings roots) data).
Proof.
  destruct (obsm data !! "X_diffmap") as [X|] eqn:E.
  - rewrite (calc_pseudotime_present roots data X E). cbv zeta.
    destruct (pseudotime_values _ _ _) as [v|e] eqn:Hv; [|done].
    unfold assign_obs. simpl. destruct (decide _) as [Hlen|]; [|done].
    intros [= <-]. by exists X, v.
  - by rewrite (calc_pseudotime_absent roots data E).
Qed.

(** X15. The last call of [calc_pseudotime] decides: when the call with the
    roots [roots1] returns, and the call with the roots [roots2] on the same
    container returns, the call with [roots2] after the call with [roots1]
    returns too and gives the container that the call with [roots2] alone
    gives. (With [roots1 = roots2]: a second call with the same roots
    changes nothing.) *)
Theorem pseudotime_last_call_wins roots1 roots2 data data1 data2 :
  calc_pseudotime roots1 data = (Ok tt, data1) →
  calc_pseudotime roots2 data = (Ok tt, data2) →
  calc_pseudotime roots2 data1 = (Ok tt, data2).
Proof.
  intros (X & v1 & HX & Hv1 & Hl1 & ->)%calc_pseudotime_Ok_inv
         (X' & v2 & HX' & Hv2 & Hl2 & ->)%calc_pseudotime_Ok_inv.
  rewrite HX in HX'. injection HX' as <-.
  rewrite (calc_pseudotime_present roots2 _ X) by done. cbv zeta. simpl.
  rewrite Hv2. unfold assign_obs. simpl. rewrite decide_True by done.
  unfold set_obs, set_uns. simpl. by rewrite !insert_insert_eq.
Qed.

Lemma masked_single names (X : matrix) i r x :
  NoDup names → length X = length names →
  names !! i = Some r → X !! i = Some x →
  root_rows names [r] X = [x].
Proof.
  unfold root_rows. intros Hnd. revert X i.
  induction Hnd as [|n names Hn Hnd IH]; intros [|y X] [|i] Hlen Hi Hx;
    simpl in *; try done.
  - injection Hi as ->. injection Hx as ->.
    rewrite bool_decide_true by (by apply list_elem_of_singleton).
    f_equal. apply masked_none. apply np_isin_none.
    intros m Hm ->%list_elem_of_singleton. done.
  - rewrite bool_decide_false.
    + apply (IH X i); [lia|done..].
    + intros ->%list_elem_of_singleton. apply Hn. by eapply list_elem_of_lookup_2.
Qed.

(** X13. Let [X_diffmap] have one row for each cell and at least one column,
    and let the names of the cells be distinct. With one root, the name of
    a cell whose coordinates are [x], [calc_pseudotime] stores for each cell
    its Euclidean distance to [x] divided by the greatest of these distances,
    [dmax]. The distances are in [[0, dmax]]; when [dmax] is not 0, the
    pseudo-time of the root is 0. *)
Theorem pseudotime_single_root data (X : matrix) c i r x :
  obsm data !! "X_diffmap" = Some X →
  mshape X (length (obs_names data)) c → (0 < c)%nat →
  NoDup (obs_names data) →
  obs_names data !! i = Some r → X !! i = Some x →
  ∃ dmax data',
    calc_pseudotime [r] data = (Ok tt, data') ∧
    np_max (map (euclidean_distance x) X) = Ok dmax ∧
    obs data' !! "pseudotime"
    = Some (FloatColumn (map (λ y, euclidean_distance x y / dmax) X)) ∧
    Forall (λ y, 0 <= euclidean_distance x y <= dmax) X ∧
    (0 < dmax → (map (λ y, euclidean_distance x y / dmax) X) !! i = Some 0).
Proof.
  intros HX Hshape Hc Hnd Hi Hx.
  assert (Hr : r ∈ obs_names data) by (by eapply list_elem_of_lookup_2).
  destruct (pseudotime_returns [r] data X c r HX Hshape Hc Hr)
    as (dmin & dmax & Hmin & Hmax & Hrun); [by apply list_elem_of_singleton|].
  rewrite (masked_single _ X i r x) in Hmin, Hmax, Hrun by (done || by destruct Hshape).
  assert (Hd : map (mean_distance [x]) X = map (euclidean_distance x) X).
  { apply map_ext. intros y. unfold mean_distance. simpl. lra. }
  rewrite Hd in Hmin, Hmax, Hrun.
  assert (dmin = 0) as ->.
  { destruct (np_min_spec _ _ Hmin) as [Hin Hle].
    change (map ?f ?l) with (f <$> l) in Hin, Hle.
    apply list_elem_of_fmap in Hin as (y & -> & _).
    pose proof (euclidean_distance_nonneg x y).
    rewrite Forall_fmap, Forall_forall in Hle.
    specialize (Hle x ltac:(by eapply list_elem_of_lookup_2)). simpl in Hle.
    rewrite euclidean_distance_self in Hle. lra. }
  assert (Hscale : min_max_scale (map (euclidean_distance x) X) 0 dmax
                   = map (λ y, euclidean_distance x y / dmax) X).
  { unfold min_max_scale. rewrite map_map. apply map_ext. intros y.
    by rewrite !Rminus_0_r. }
  rewrite Hscale in Hrun.
  eexists dmax, _. split; [exact Hrun|]. split; [done|]. simpl.
  split; [by rewrite lookup_insert_eq|]. split.
  - destruct (np_max_spec _ _ Hmax) as [_ Hle].
    change (map ?f ?l) with (f <$> l) in Hle. rewrite Forall_fmap in Hle.
    eapply Forall_impl; [exact Hle|]. intros y Hy. simpl in Hy.
    split; [apply euclidean_distance_nonneg|done].
  - intros _. change (map ?f ?l) with (f <$> l). rewrite list_lookup_fmap, Hx. simpl.
    rewrite euclidean_distance_self. f_equal. unfold Rdiv. lra.
Qed.

Lemma np_isin_ext names roots1 roots2 :
  (∀ n, n ∈ names → (n ∈ roots1 ↔ n ∈ roots2)) →
  np_isin names roots1 = np_isin names roots2.
Proof.
  intros H. unfold np_isin. apply map_ext_in. intros n Hn%list_elem_of_In.
  apply bool_decide_ext. by apply H.
Qed.

(** X16. The pseudo-times depend on which cells are roots only: two lists of
    roots that contain the same names of cells (in any order, with or
    without repetitions, with or without names that are no cell) give the
    same result, or the same exception, and the same columns of [obs]. *)
Theorem pseudotime_depends_on_matching_roots roots1 roots2 data :
  (∀ n, n ∈ obs_names data → (n ∈ roots1 ↔ n ∈ roots2)) →
  (calc_pseudotime roots1 data).1 = (calc_pseudotime roots2 data).1 ∧
  obs (calc_pseudotime roots1 data).2 = obs (calc_pseudotime roots2 data).2.
Proof.
  intros H. destruct (obsm data !! "X_diffmap") as [X|] eqn:E.
  - rewrite !(calc_pseudotime_present _ data X E). cbv zeta.
    unfold pseudotime_values. rewrite (np_isin_ext _ _ _ H).
    destruct (select_rows _ _ ≫= _) as [v|e]; [|done].
    unfold assign_obs. simpl. by destruct (decide _).
  - by rewrite !(calc_pseudotime_absent _ data E).
Qed.
End PseudotimeEffects.

(** ** What follows [diffmap] *)

Section DiffmapFollowers.
Context {rng : Type}.
Variable randomized_svd : csr_matrix → nat → Z → matrix * vector * matrix.
Variable eigsh : csr_matrix → nat → vector → vector * matrix.
Variable seed_state : Z → rng.
Variable uniform : rng → R → R → nat → vector * rng.
Variable PCA_fit_transform : nat → Z → matrix → res matrix.
Local Open Scope R_scope.

(** X10. Under the conditions of X8 and with [n_components] at least 2,
    [diffmap] returns and [calc_pseudotime], given roots one of which at
    least is the name of a cell, then returns too: it stores one pseudo-time
    for each cell, and leaves the diffusion coordinates as [diffmap] has
    stored them. *)
Theorem diffmap_then_pseudotime k rep alpha solver seed data (σ : np_state rng) V roots r :
  uns data !! ("W_" +:+ rep) = Some (UnsSparse V) →
  wf_matrix V → sp_ncols V = sp_nrows V → strongly_connected V →
  sp_nrows V = length (obs_names data) →
  (solver = "randomized" ∧ svd_returns randomized_svd (sp_nrows V) k ∨
   solver = "eigsh" ∧ eigsh_returns eigsh (sp_nrows V) k ∧ uniform_in_range uniform) →
  (2 ≤ k)%nat → r ∈ obs_names data → r ∈ roots →
  ∃ data1 σ1 data2 v,
    diffmap randomized_svd eigsh seed_state uniform k rep alpha solver seed (data, σ)
      = (Ok tt, (data1, σ1)) ∧
    calc_pseudotime roots data1 = (Ok tt, data2) ∧
    obs data2 !! "pseudotime" = Some (FloatColumn v) ∧
    length v = length (obs_names data) ∧
    obsm data2 !! "X_diffmap" = obsm data1 !! "X_diffmap" ∧
    obsm data1 !! "X_diffmap" ≠ None.
Proof.
  intros HV Hwf Hsq Hconn Hn Hsolver Hk Hr Hroot.
  destruct (diffmap_returns randomized_svd eigsh seed_state uniform
              k rep alpha solver seed data σ V HV Hwf Hsq Hconn Hn Hsolver)
    as (Phi & L & σ' & _ & Hrun & HPhi & HL).
  set (data1 := set_uns "diffmap_evals" (UnsVector L) (set_obsm "X_diffmap" Phi data)) in *.
  assert (HX : obsm data1 !! "X_diffmap" = Some Phi) by (simpl; by rewrite lookup_insert_eq).
  destruct (pseudotime_returns roots data1 Phi (k - 1) r HX HPhi ltac:(lia) Hr Hroot)
    as (dmin & dmax & _ & _ & Hpt).
  eexists data1, σ', _, _. split; [exact Hrun|]. split; [exact Hpt|]. simpl.
  split; [by rewrite lookup_insert_eq|].
  split.
  { unfold min_max_scale. rewrite !length_map. by destruct HPhi. }
  split; [done|]. by rewrite lookup_insert_eq.
Qed.

Abbreviation reduce' := (reduce_diffmap_to_3d PCA_fit_transform).

End DiffmapFollowers.

(** ** More on the clustering drivers *)

Lemma store_labels_inv class_label m d d' :
  store_labels class_label m d = (Ok tt, d') →
  length m = length (obs_names d) ∧
  d' = set_obs class_label
         (CategoricalColumn (pd_Categorical (labels_of m) (natsorted (np_unique (labels_of m))))) d.
Proof.
  unfold store_labels, assign_obs. simpl. destruct (decide _) as [Hlen|]; [|done].
  intros [= <-]. split; [|done]. unfold labels_of in Hlen. by rewrite length_map in Hlen.
Qed.

Lemma store_labels_again class_label m d d' :
  store_labels class_label m d = (Ok tt, d') →
  store_labels class_label m d' = (Ok tt, d').
Proof.
  intros H. destruct (store_labels_inv _ _ _ _ H) as [Hlen ->].
  unfold store_labels, assign_obs. simpl. rewrite decide_True.
  - unfold set_obs. simpl. by rewrite insert_insert_eq.
  - unfold labels_of. by rewrite length_map.
Qed.

Section ClusteringMore.
Context {graph : Type}.
Variable construct_graph : csr_matrix → graph.
Variable louvain_module : CommunityModule graph.
Variable leidenalg : CommunityModule graph.
Variable effective_n_jobs : Z → Z.
Variable KMeans_fit : nat → Z → nat → Z → matrix → res (list nat).

Abbreviation louvain' := (louvain construct_graph louvain_module).
Abbreviation leiden' := (leiden construct_graph leidenalg).
Abbreviation spectral' := (spectral construct_graph effective_n_jobs KMeans_fit).
Abbreviation spectral_louvain' :=
  (spectral_louvain construct_graph louvain_module effective_n_jobs KMeans_fit).
Abbreviation spectral_leiden' :=
  (spectral_leiden construct_graph leidenalg effective_n_jobs KMeans_fit).
Abbreviation partition_cells_by_kmeans' :=
  (partition_cells_by_kmeans effective_n_jobs KMeans_fit).

(** What a driver stores when it returns: the labels of a membership that is
    computed from [obsm] and [uns] only. *)
Lemma louvain_stores rep resolution random_state class_label data data' :
  louvain' rep resolution random_state class_label data = (Ok tt, data') →
  ∃ m, store_labels class_label m data = (Ok tt, data') ∧
       ∀ d, uns d = uns data →
         louvain' rep resolution random_state class_label d = store_labels class_label m d.
Proof.
  unfold louvain, mbind, M_bind, get. simpl. case_decide as Hu; [done|].
  unfold uns_matrix.
  destruct (uns data !! ("W_" +:+ rep)) as [[W|?|?]|] eqn:E; try done.
  intros Hrun. eexists. split; [exact Hrun|].
  intros d Hd. rewrite Hd, E, decide_False by done. by rewrite Hd, E.
Qed.

Lemma leiden_stores rep resolution n_iter random_state class_label data data' :
  leiden' rep resolution n_iter random_state class_label data = (Ok tt, data') →
  ∃ m, store_labels class_label m data = (Ok tt, data') ∧
       ∀ d, uns d = uns data →
         leiden' rep resolution n_iter random_state class_label d
         = store_labels class_label m d.
Proof.
  unfold leiden, mbind, M_bind, get. simpl. case_decide as Hu; [done|].
  unfold uns_matrix.
  destruct (uns data !! ("W_" +:+ rep)) as [[W|?|?]|] eqn:E; try done.
  intros Hrun. eexists. split; [exact Hrun|].
  intros d Hd. rewrite Hd, E, decide_False by done. by rewrite Hd, E.
Qed.

Lemma partition_cells_by_kmeans_obsm d d' rep n_jobs K1 K2 n_init seed :
  obsm d = obsm d' →
  partition_cells_by_kmeans' d rep n_jobs K1 K2 n_init seed
  = partition_cells_by_kmeans' d' rep n_jobs K1 K2 n_init seed.
Proof. intros H. unfold partition_cells_by_kmeans. by rewrite H. Qed.

Lemma spectral_stores module n_iterations rep resolution rep_kmeans
    n_clusters n_clusters2 n_init n_jobs random_state class_label data data' :
  spectral' module n_iterations rep resolution rep_kmeans
    n_clusters n_clusters2 n_init n_jobs random_state class_label data = (Ok tt, data') →
  ∃ m, store_labels class_label m data = (Ok tt, data') ∧
       ∀ d, uns d = uns data → obsm d = obsm data →
         spectral' module n_iterations rep resolution rep_kmeans
           n_clusters n_clusters2 n_init n_jobs random_state class_label d
         = store_labels class_label m d.
Proof.
  unfold spectral, mbind, M_bind at 1. rewrite spectral_checks_spec.
  destruct (decide (_ ∧ _)) as [|Hx]; [done|].
  destruct (decide (uns data !! _ = None)) as [|Hu]; [done|].
  unfold spectral_body, mbind, M_bind, get, lift. simpl.
  destruct (partition_cells_by_kmeans _ _ _ _ _ _ _ _ _) as [labels|] eqn:Ek; [|done].
  unfold uns_matrix.
  destruct (uns data !! ("W_" +:+ rep)) as [[W|?|?]|] eqn:E; try done.
  intros Hrun. eexists. split; [exact Hrun|].
  intros d Hd Hm. rewrite spectral_checks_spec. rewrite Hd, Hm.
  rewrite decide_False by done. rewrite decide_False by (by rewrite E).
  unfold kmeans_rep. rewrite Hm.
  rewrite (partition_cells_by_kmeans_obsm d data) by done.
  unfold kmeans_rep in Ek. rewrite Ek. by rewrite Hd, E.
Qed.

Lemma store_labels_uns class_label m d d' :
  store_labels class_label m d = (Ok tt, d') → uns d' = uns d ∧ obsm d' = obsm d.
Proof. intros H. by destruct (store_labels_inv _ _ _ _ H) as [_ ->]. Qed.

(** X18. When a clustering driver (louvain, leiden, spectral_louvain,
    spectral_leiden) has returned, the same call on the container it has
    left returns again and changes nothing: the labels depend on [obsm] and
    [uns] only, which the driver does not write to. *)
Theorem clustering_again_changes_nothing
    rep resolution n_iter rep_kmeans n_clusters n_clusters2 n_init n_jobs
    random_state class_label data data' :
  let again (run : M AnnData unit) :=
    run data = (Ok tt, data') → run data' = (Ok tt, data') in
  again (louvain construct_graph louvain_module rep resolution random_state class_label) ∧
  again (leiden construct_graph leidenalg rep resolution n_iter random_state
           class_label) ∧
  again (spectral_louvain construct_graph louvain_module effective_n_jobs KMeans_fit
           rep resolution rep_kmeans n_clusters n_clusters2 n_init n_jobs random_state
           class_label) ∧
  again (spectral_leiden construct_graph leidenalg effective_n_jobs KMeans_fit
           rep resolution rep_kmeans n_clusters n_clusters2 n_init n_jobs random_state
           class_label).
Proof.
  cbv zeta. split; [|split; [|split]].
  - intros (m & Hm & Hdep)%louvain_stores.
    destruct (store_labels_uns _ _ _ _ Hm) as [Hu _].
    rewrite (Hdep data' Hu). exact (store_labels_again _ _ _ _ Hm).
  - intros (m & Hm & Hdep)%leiden_stores.
    destruct (store_labels_uns _ _ _ _ Hm) as [Hu _].
    rewrite (Hdep data' Hu). exact (store_labels_again _ _ _ _ Hm).
  - unfold spectral_louvain. intros (m & Hm & Hdep)%spectral_stores.
    destruct (store_labels_uns _ _ _ _ Hm) as [Hu Ho].
    rewrite (Hdep data' Hu Ho). exact (store_labels_again _ _ _ _ Hm).
  - unfold spectral_leiden. intros (m & Hm & Hdep)%spectral_stores.
    destruct (store_labels_uns _ _ _ _ Hm) as [Hu Ho].
    rewrite (Hdep data' Hu Ho). exact (store_labels_again _ _ _ _ Hm).
Qed.

Lemma store_labels_valid class_label m d d' :
  store_labels class_label m d = (Ok tt, d') →
  ∃ c, obs d' !! class_label = Some (CategoricalColumn c) ∧
       length (cat_values c) = length (obs_names d) ∧
       Forall (λ v, v ∈ cat_categories c) (cat_values c) ∧
       Forall (λ v, v ∈ cat_values c) (cat_categories c) ∧
       NoDup (cat_categories c).
Proof.
  intros H. destruct (store_labels_inv _ _ _ _ H) as [Hlen _].
  destruct (store_labels_Ok _ _ _ _ H) as (c & ns & Hc & Hv & _ & Hcat & Hs & Hn).
  exists c. split; [done|]. rewrite Hv, Hcat.
  change (map ?f ?l) with (f <$> l).
  split; [by rewrite length_fmap|]. split; [|split].
  - apply Forall_fmap, Forall_forall. intros x Hx. simpl.
    apply list_elem_of_fmap. exists (x + 1). split; [done|]. apply Hn. by exists x.
  - apply Forall_fmap, Forall_forall. intros n (x & Hx & ->)%Hn. simpl.
    apply list_elem_of_fmap. by exists x.
  - apply NoDup_fmap_2; [intros ???; by apply str_inj|].
    clear -Hs. induction Hs as [|n ns _ IH Hlt]; constructor; [|done].
    intros Hin. rewrite Forall_forall in Hlt. specialize (Hlt n Hin). lia.
Qed.

(** X19. When a clustering driver returns, the categorical it has stored
    has one value for each cell; every value is one of its categories, every
    category is the value of some cell, and no category is listed twice. *)
Theorem drivers_store_valid_categorical
    rep resolution n_iter rep_kmeans n_clusters n_clusters2 n_init n_jobs
    random_state class_label data data' :
  louvain construct_graph louvain_module rep resolution random_state class_label data
    = (Ok tt, data') ∨
  leiden construct_graph leidenalg rep resolution n_iter random_state class_label data
    = (Ok tt, data') ∨
  spectral_louvain construct_graph louvain_module effective_n_jobs KMeans_fit
    rep resolution rep_kmeans n_clusters n_clusters2 n_init n_jobs random_state
    class_label data = (Ok tt, data') ∨
  spectral_leiden construct_graph leidenalg effective_n_jobs KMeans_fit
    rep resolution rep_kmeans n_clusters n_clusters2 n_init n_jobs random_state
    class_label data = (Ok tt, data') →
  ∃ c, obs data' !! class_label = Some (CategoricalColumn c) ∧
       length (cat_values c) = length (obs_names data) ∧
       Forall (λ v, v ∈ cat_categories c) (cat_values c) ∧
       Forall (λ v, v ∈ cat_values c) (cat_categories c) ∧
       NoDup (cat_categories c).
Proof.
  intros [H|[H|[H|H]]].
  - apply louvain_stores in H as (m & Hm & _). by eapply store_labels_valid.
  - apply leiden_stores in H as (m & Hm & _). by eapply store_labels_valid.
  - apply spectral_stores in H as (m & Hm & _). by eapply store_labels_valid.
  - apply spectral_stores in H as (m & Hm & _). by eapply store_labels_valid.
Qed.
End ClusteringMore.

(** ** How many fine clusters the two-level k-means makes *)

Lemma offset_le_product K2 coarse i : offset K2 coarse i ≤ i * K2.
Proof.
  induction i as [|i IH]; [done|]. rewrite offset_S. unfold fine_count. lia.
Qed.

Lemma sum_list_indicator (c i : nat) :
  sum_list (map (λ j, if bool_decide (c = j) then 1 else 0) (seq 0 i)) ≤ 1.
Proof.
  induction i as [|i IH]; [simpl; lia|].
  rewrite seq_S, map_app. simpl. rewrite sum_list_snoc.
  destruct (decide (c = i)) as [->|Hne].
  - rewrite bool_decide_true by done.
    assert (sum_list (map (λ j, if bool_decide (i = j) then 1 else 0) (seq 0 i)) = 0) as ->; [|lia].
    clear. assert (H : ∀ j, j ∈ seq 0 i → i ≠ j) by (intros j ?%elem_of_seq; lia).
    induction (seq 0 i) as [|j l IHl]; simpl; [done|].
    rewrite bool_decide_false by (apply H; left).
    rewrite IHl; [done|]. intros k Hk. apply H. by right.
  - rewrite bool_decide_false by done. lia.
Qed.

Lemma cluster_sizes_le_length coarse i :
  sum_list (map (cluster_size coarse) (seq 0 i)) ≤ length coarse.
Proof.
  induction coarse as [|c coarse IH]; simpl.
  - induction (seq 0 i) as [|j l IHl]; simpl; [done|].
    change (cluster_size [] j) with 0. lia.
  - assert (sum_list (map (cluster_size (c :: coarse)) (seq 0 i))
            = sum_list (map (λ j, if bool_decide (c = j) then 1 else 0) (seq 0 i))
              + sum_list (map (cluster_size coarse) (seq 0 i))) as ->.
    { clear IH. induction (seq 0 i) as [|j l IHl]; simpl; [done|]. rewrite IHl.
      unfold cluster_size at 1. unfold mask_eq. simpl. rewrite mask_sum_cons.
      fold (mask_eq coarse j). fold (cluster_size coarse j). lia. }
    pose proof (sum_list_indicator c i). lia.
Qed.

Lemma offset_le_length K2 coarse i : offset K2 coarse i ≤ length coarse.
Proof.
  etrans; [|apply (cluster_sizes_le_length coarse i)].
  unfold offset. induction (seq 0 i) as [|j l IH]; simpl; [done|].
  unfold fine_count at 1. lia.
Qed.

Section KMeansBounds.
Variable effective_n_jobs : Z → Z.
Variable KMeans_fit : nat → Z → nat → Z → matrix → res (list nat).

(** X17. Let k-means return, when it returns, one label per row, each below
    the number of clusters. When [partition_cells_by_kmeans] returns, it
    returns one label for each row of the coordinates, and every label is
    below [n_clusters * n_clusters2] and below the number of rows: there are
    at most that many fine clusters. *)
Theorem kmeans_labels_bounded data rep n_jobs K1 K2 n_init seed labels :
  kmeans_in_range KMeans_fit →
  partition_cells_by_kmeans effective_n_jobs KMeans_fit data rep n_jobs K1 K2 n_init seed
    = Ok labels →
  ∃ X, obsm data !! ("X_" +:+ rep) = Some X ∧
       length labels = length X ∧
       Forall (λ l, l < K1 * K2 ∧ l < length X) labels.
Proof.
  intros Hrange Hrun.
  destruct (partition_cells_by_kmeans_spec effective_n_jobs KMeans_fit Hrange
              data rep n_jobs K1 K2 n_init seed labels Hrun)
    as (X & coarse & HX & Hcoarse & _ & Hlen & Hrows & _).
  destruct (Hrange _ _ _ _ _ _ Hcoarse) as [Hlc Hin]. simpl in *.
  exists X. split; [done|]. split; [congruence|].
  apply Forall_forall. intros l [r Hr]%list_elem_of_lookup_1.
  destruct (lookup_lt_is_Some_2 coarse r) as [c Hc].
  { rewrite <- Hlen. by eapply lookup_lt_Some. }
  assert (c < K1) as HcK.
  { rewrite Forall_forall in Hin. apply Hin. by eapply list_elem_of_lookup_2. }
  destruct (Hrows r c Hc HcK) as (l' & Hl' & _ & Hlt).
  rewrite Hr in Hl'. injection Hl' as <-.
  pose proof (offset_mono K2 coarse (S c) K1 ltac:(lia)).
  pose proof (offset_le_product K2 coarse K1).
  pose proof (offset_le_length K2 coarse K1).
  lia.
Qed.
End KMeansBounds.

(** ** Eigenpairs, failures of the drivers, and one fine cluster *)

Lemma rev_lookup {A} (l : list A) j x :
  j < length l → l !! (length l - 1 - j) = Some x → rev l !! j = Some x.
Proof.
  intros Hj Hx. assert (rev l = reverse l) as -> by (unfold reverse; apply rev_alt).
  rewrite reverse_lookup by done.
  by replace (length l - S j) with (length l - 1 - j) by lia.
Qed.

Section EigshPairs.
Context {rng : Type}.
Variable randomized_svd : csr_matrix → nat → Z → matrix * vector * matrix.
Variable eigsh : csr_matrix → nat → vector → vector * matrix.
Variable seed_state : Z → rng.
Variable uniform : rng → R → R → nat → vector * rng.
Local Open Scope R_scope.

(** X20. In the "eigsh" path the eigenpairs stay paired through the
    reversal and the removal of the first pair. Let [eigsh] return the
    eigenvalues [values] and the matrix [vectors] whose columns are the
    eigenvectors. For [j < k - 1], the [j]-th eigenvalue that
    [calculate_diffusion_map] returns is [values[k - 2 - j]], and the column
    [j] of the coordinates is made of the column [k - 2 - j] of [vectors],
    the eigenvector of this very eigenvalue [l]:
    [Phi_pt[i, j] = vectors[i, k - 2 - j] / d_half[i] * (l / (1 - alpha * l))]. *)
Theorem eigsh_pairs_stay_paired (σ : np_state rng) W k alpha seed :
  wf_sparse σ W → sp_ncols W = sp_nrows W → strongly_connected W →
  eigsh_returns eigsh (sp_nrows W) k → uniform_in_range uniform →
  let diag_half := map sqrt (row_sums (snapshot σ W)) in
  let draw := uniform (seed_state seed) (-1) 1 (sp_nrows W) in
  ∃ W_norm σ1 values vectors Phi_pt Lambda σ2,
    calculate_normalized_affinity W σ
      = (Ok (W_norm, row_sums (snapshot σ W), diag_half), σ1) ∧
    eigsh (snapshot σ1 W_norm) k draw.1 = (values, vectors) ∧
    calculate_diffusion_map randomized_svd eigsh seed_state uniform
      W k alpha "eigsh" seed σ = (Ok (Phi_pt, Lambda), σ2) ∧
    ∀ j, (S j < k)%nat →
      Lambda !! j = values !! (k - 2 - j)%nat ∧
      ∀ i vec u l d,
        vectors !! i = Some vec → vec !! (k - 2 - j)%nat = Some u →
        values !! (k - 2 - j)%nat = Some l → diag_half !! i = Some d →
        ∃ row, Phi_pt !! i = Some row ∧
               row !! j = Some (u / d * (l / (1 - alpha * l))).
Proof.
  intros Hwf Hsq Hconn Heig Huni diag_half draw.
  apply (connected_components_one σ W Hwf Hsq) in Hconn.
  destruct (calculate_diffusion_map_returns randomized_svd eigsh seed_state uniform
              σ W k alpha "eigsh" seed Hwf Hconn)
    as (Wn & σ1 & La & U & σ2 & Phi & L & Hna & Hdec & Hrun & HLa & HU & HL & _ & _ & Hentry);
    [by right|].
  destruct (calculate_normalized_affinity_spec σ W Hwf Hsq) as (Wn' & σ1' & Hna' & Hr & Hc & _).
  rewrite Hna in Hna'. injection Hna' as <- <-.
  rewrite decompose_eigsh in Hdec. cbv zeta in Hdec. rewrite Hr in Hdec.
  fold draw in Hdec. injection Hdec as HLa' HU' _.
  destruct (eigsh (snapshot σ1 Wn) k draw.1) as [values vectors] eqn:Esolve.
  simpl in HLa', HU'.
  assert (Hvals : length values = k) by (by rewrite <- HLa', length_rev in HLa).
  exists Wn, σ1, values, vectors, Phi, L, σ2.
  split; [done|]. split; [done|]. split; [done|].
  intros j Hj. split.
  - rewrite HL, lookup_drop, <- HLa'. simpl.
    destruct (lookup_lt_is_Some_2 values (k - 2 - j)) as [x Hx]; [lia|].
    rewrite Hx. apply rev_lookup; [lia|].
    by replace (length values - 1 - S j)%nat with (k - 2 - j)%nat by lia.
  - intros i vec u l d Hvec Hu Hl Hd.
    apply (Hentry i j (rev vec) u l d).
    + rewrite <- HU'. change (map ?f ?l) with (f <$> l).
      by rewrite list_lookup_fmap, Hvec.
    + assert (length vec = k) as Hlen.
      { destruct (Huni (seed_state seed) (-1) 1 (sp_nrows W)) as [Hv0 _]; [lra|].
        destruct (Heig (snapshot σ1 Wn) draw.1) as (_ & _ & Hw);
          [simpl; congruence|simpl; congruence|exact Hv0|].
        rewrite Esolve in Hw. simpl in Hw. rewrite Forall_forall in Hw. apply Hw.
        by eapply list_elem_of_lookup_2. }
      apply rev_lookup; [lia|].
      by replace (length vec - 1 - S j)%nat with (k - 2 - j)%nat by lia.
    + rewrite HL, lookup_drop, <- HLa'. simpl. apply rev_lookup; [lia|].
      by replace (length values - 1 - S j)%nat with (k - 2 - j)%nat by lia.
    + done.
Qed.
End EigshPairs.

Section ClusteringFailure.
Context {graph : Type}.
Variable construct_graph : csr_matrix → graph.
Variable louvain_module : CommunityModule graph.
Variable leidenalg : CommunityModule graph.
Variable effective_n_jobs : Z → Z.
Variable KMeans_fit : nat → Z → nat → Z → matrix → res (list nat).

Lemma store_labels_failure class_label m d e :
  (store_labels class_label m d).1 = Raise e → (store_labels class_label m d).2 = d.
Proof.
  unfold store_labels, assign_obs. by destruct (decide _).
Qed.

Lemma louvain_failure rep resolution random_state class_label data e :
  (louvain construct_graph louvain_module rep resolution random_state class_label data).1
    = Raise e →
  (louvain construct_graph louvain_module rep resolution random_state class_label data).2
    = data.
Proof.
  unfold louvain, mbind, M_bind, get. simpl. case_decide; [done|].
  unfold uns_matrix. repeat case_match; simplify_eq; simpl; try done.
  apply store_labels_failure.
Qed.

Lemma leiden_failure rep resolution n_iter random_state class_label data e :
  (leiden construct_graph leidenalg rep resolution n_iter random_state class_label data).1
    = Raise e →
  (leiden construct_graph leidenalg rep resolution n_iter random_state class_label data).2
    = data.
Proof.
  unfold leiden, mbind, M_bind, get. simpl. case_decide; [done|].
  unfold uns_matrix. repeat case_match; simplify_eq; simpl; try done.
  apply store_labels_failure.
Qed.

Lemma spectral_failure module n_iterations rep resolution rep_kmeans
    n_clusters n_clusters2 n_init n_jobs random_state class_label data e :
  (spectral construct_graph effective_n_jobs KMeans_fit module n_iterations rep resolution
     rep_kmeans n_clusters n_clusters2 n_init n_jobs random_state class_label data).1
    = Raise e →
  (spectral construct_graph effective_n_jobs KMeans_fit module n_iterations rep resolution
     rep_kmeans n_clusters n_clusters2 n_init n_jobs random_state class_label data).2
    = data.
Proof.
  unfold spectral, mbind, M_bind at 1 2. rewrite spectral_checks_spec.
  repeat case_decide; try done.
  unfold spectral_body, mbind, M_bind, get, lift. simpl.
  destruct (partition_cells_by_kmeans _ _ _ _ _ _ _ _ _); [|done].
  unfold uns_matrix. repeat case_match; simplify_eq; simpl; try done.
  apply store_labels_failure.
Qed.

(** X21. When a clustering driver (louvain, leiden, spectral_louvain,
    spectral_leiden) raises, whatever the exception, the container is what
    it was before the call: no label is written. *)
Theorem clustering_failure_leaves_container
    rep resolution n_iter rep_kmeans n_clusters n_clusters2 n_init n_jobs
    random_state class_label data e :
  let failed (run : M AnnData unit) := (run data).1 = Raise e → (run data).2 = data in
  failed (louvain construct_graph louvain_module rep resolution random_state class_label) ∧
  failed (leiden construct_graph leidenalg rep resolution n_iter random_state
            class_label) ∧
  failed (spectral_louvain construct_graph louvain_module effective_n_jobs KMeans_fit
            rep resolution rep_kmeans n_clusters n_clusters2 n_init n_jobs random_state
            class_label) ∧
  failed (spectral_leiden construct_graph leidenalg effective_n_jobs KMeans_fit
            rep resolution rep_kmeans n_clusters n_clusters2 n_init n_jobs random_state
            class_label).
Proof.
  cbv zeta. split; [|split; [|split]].
  - apply louvain_failure.
  - apply leiden_failure.
  - apply spectral_failure.
  - apply spectral_failure.
Qed.

(** X22. With [n_clusters2 = 1] the two-level k-means keeps the coarse
    clusters: when [partition_cells_by_kmeans] returns, two rows have the
    same label exactly when k-means has put them in the same coarse
    cluster, and the labels are in the order of the coarse clusters. (The
    labels are the coarse clusters numbered again, the empty ones left
    out.) *)
Theorem kmeans_one_fine_cluster data rep n_jobs K1 n_init seed labels :
  kmeans_in_range KMeans_fit →
  partition_cells_by_kmeans effective_n_jobs KMeans_fit data rep n_jobs K1 1 n_init seed
    = Ok labels →
  ∃ X coarse,
    obsm data !! ("X_" +:+ rep) = Some X ∧
    KMeans_fit K1 (effective_n_jobs n_jobs) n_init seed X = Ok coarse ∧
    length labels = length coarse ∧
    ∀ r r' c c' l l',
      coarse !! r = Some c → coarse !! r' = Some c' →
      labels !! r = Some l → labels !! r' = Some l' →
      (l = l' ↔ c = c') ∧ (c < c' → l < l').
Proof.
  intros Hrange Hrun.
  destruct (partition_cells_by_kmeans_spec effective_n_jobs KMeans_fit Hrange
              data rep n_jobs K1 1 n_init seed labels Hrun)
    as (X & coarse & HX & Hcoarse & _ & Hlen & Hrows & _).
  destruct (Hrange _ _ _ _ _ _ Hcoarse) as [_ Hin]. simpl in *.
  exists X, coarse. split; [done|]. split; [done|]. split; [done|].
  assert (Hlabel : ∀ r c l, coarse !! r = Some c → labels !! r = Some l →
            l = offset 1 coarse c ∧ offset 1 coarse (S c) = S (offset 1 coarse c)).
  { intros r c l Hc Hl.
    assert (c < K1) as HcK.
    { rewrite Forall_forall in Hin. apply Hin. by eapply list_elem_of_lookup_2. }
    destruct (Hrows r c Hc HcK) as (l0 & Hl0 & Hlo & Hhi).
    rewrite Hl in Hl0. injection Hl0 as <-.
    rewrite offset_S in *. unfold fine_count in *. lia. }
  intros r r' c c' l l' Hc Hc' Hl Hl'.
  destruct (Hlabel r c l Hc Hl) as [-> HS].
  destruct (Hlabel r' c' l' Hc' Hl') as [-> HS'].
  assert (Hlt : ∀ a b, a < b → offset 1 coarse (S a) = S (offset 1 coarse a) →
            offset 1 coarse a < offset 1 coarse b).
  { intros a b Hab Ha. pose proof (offset_mono 1 coarse (S a) b ltac:(lia)). lia. }
  split; [split|].
  - intros Heq. destruct (Nat.lt_trichotomy c c') as [H|[H|H]]; [|done|].
    + pose proof (Hlt c c' H HS). lia.
    + pose proof (Hlt c' c H HS'). lia.
  - by intros ->.
  - intros H. by apply Hlt.
Qed.
End ClusteringFailure.

(** ** More concrete runs *)

Section MoreExamples.
Local Open Scope R_scope.

Lemma four_cycle_symmetric i j :
  entry (snapshot (one_buffer (repeat 2 8)) four_cycle) i j
  = entry (snapshot (one_buffer (repeat 2 8)) four_cycle) j i.
Proof.
  unfold entry, entries, snapshot. change (sp_data four_cycle) with 0%nat.
  rewrite buffer_one.
  destruct i as [|[|[|[|i]]]]; destruct j as [|[|[|[|j]]]]; reflexivity.
Qed.

Lemma four_cycle_positive :
  Forall (λ x, 0 < x) (row_sums (snapshot (one_buffer (repeat 2 8)) four_cycle)).
Proof. rewrite four_cycle_row_sums. repeat constructor; lra. Qed.

(** X1 on the cycle with weights 2. *)
Lemma normalized_affinity_symmetric_witness :
  ∃ Wn d dh σ',
    calculate_normalized_affinity four_cycle (one_buffer (repeat 2 8))
      = (Ok (Wn, d, dh), σ') ∧
    ∀ i j, entry (snapshot σ' Wn) i j = entry (snapshot σ' Wn) j i.
Proof.
  apply (normalized_affinity_symmetric (one_buffer (repeat 2 8)) four_cycle).
  - apply four_cycle_wf.
  - reflexivity.
  - apply four_cycle_positive.
  - apply four_cycle_symmetric.
Defined.

(** X2 on the cycle with weights 2. *)
Lemma normalized_affinity_fixes_diag_half_witness :
  ∃ Wn d dh σ',
    calculate_normalized_affinity four_cycle (one_buffer (repeat 2 8))
      = (Ok (Wn, d, dh), σ') ∧
    matvec (snapshot σ' Wn) dh = dh.
Proof.
  apply (normalized_affinity_fixes_diag_half (one_buffer (repeat 2 8)) four_cycle).
  - apply four_cycle_wf.
  - reflexivity.
  - apply four_cycle_positive.
Defined.

(** X3 on the cycle: the buffer of its weights after the two calls. *)
Lemma diffusion_map_writes_no_buffer_witness :
  let σ := one_buffer (repeat 2 8) in
  heap (calculate_normalized_affinity four_cycle σ).2 !! 0%nat = Some (repeat 2 8) ∧
  heap (calculate_diffusion_map zero_svd cycle_eigsh (λ _, tt) lowest
          four_cycle 3 (1 / 2) "eigsh" 0%Z σ).2 !! 0%nat = Some (repeat 2 8).
Proof.
  apply (diffusion_map_writes_no_buffer zero_svd cycle_eigsh (λ _, tt) lowest
           (one_buffer (repeat 2 8)) four_cycle 3 (1 / 2) "eigsh" 0%Z 0%nat (repeat 2 8)).
  apply lookup_singleton_eq.
Defined.

(** X5 on the cycle, with a solver that does not exist. *)
Lemma diffusion_map_unknown_solver_witness :
  let σ := one_buffer (repeat 2 8) in
  (calculate_diffusion_map zero_svd cycle_eigsh (λ _, tt) lowest
     four_cycle 3 (1 / 2) "arpack" 0%Z σ).1 = Raise AssertionError.
Proof.
  refine (proj1 (diffusion_map_unknown_solver zero_svd cycle_eigsh (λ _, tt) lowest
                   (one_buffer (repeat 2 8)) four_cycle 3 (1 / 2) "arpack" 0%Z
                   four_cycle_wf eq_refl four_cycle_connected _ _)); discriminate.
Defined.

Lemma counting_in_range : uniform_in_range counting_uniform.
Proof.
  intros g low high n Hlt. unfold counting_uniform. simpl. split; [apply repeat_length|].
  apply Forall_forall. intros x Hx%list_elem_of_In%repeat_spec. subst. lra.
Qed.

Lemma counting_buffer_wf g : wf_sparse (counting_buffer (repeat 2 8) g) four_cycle.
Proof.
  unfold wf_sparse, buffer. simpl. rewrite lookup_singleton_eq. simpl.
  repeat split; try done; repeat constructor.
Qed.

(** X4 on the cycle, with the generator that counts: from the states 0 and 9
    the result is the same, and the generator is left at 6, one draw after the
    seed 5. *)
Lemma diffusion_map_ignores_generator_witness :
  let run := calculate_diffusion_map zero_svd cycle_eigsh Z.to_nat counting_uniform
               four_cycle 3 (1 / 2) "eigsh" 5%Z in
  (run (counting_buffer (repeat 2 8) 9)).1 = (run (counting_buffer (repeat 2 8) 0)).1 ∧
  np_random (run (counting_buffer (repeat 2 8) 0)).2 = 6%nat ∧
  (run (counting_buffer (repeat 2 8) 9)).2 = (run (counting_buffer (repeat 2 8) 0)).2.
Proof.
  destruct (diffusion_map_ignores_generator zero_svd cycle_eigsh Z.to_nat counting_uniform
              (counting_buffer (repeat 2 8) 0) four_cycle 3 (1 / 2) "eigsh" 5%Z 9%nat)
    as (Hres & _ & _ & Heig).
  assert (Hok : is_Ok (calculate_diffusion_map zero_svd cycle_eigsh Z.to_nat counting_uniform
                         four_cycle 3 (1 / 2) "eigsh" 5%Z (counting_buffer (repeat 2 8) 0)).1).
  { destruct (calculate_diffusion_map_returns zero_svd cycle_eigsh Z.to_nat counting_uniform
                (counting_buffer (repeat 2 8) 0) four_cycle 3 (1 / 2) "eigsh" 5%Z
                (counting_buffer_wf 0))
      as (Wn & σ1 & La & U & σ2 & Phi & L & _ & _ & Hrun & _).
    - vm_compute; reflexivity.
    - right. split; [done|]. split; [apply cycle_eigsh_returns|apply counting_in_range].
    - by rewrite Hrun. }
  destruct (Heig ltac:(discriminate) Hok) as [Hgen Hstate].
  split; [exact Hres|]. split; [exact Hgen|exact Hstate].
Defined.
End MoreExamples.

Section DriverExamples.
Local Open Scope R_scope.

Lemma cycle_matrix_wf : wf_matrix cycle_matrix.
Proof. unfold wf_matrix. simpl. repeat split; repeat constructor. Qed.

Lemma cycle_matrix_connected : strongly_connected cycle_matrix.
Proof.
  apply (strong_components_one cycle_matrix).
  - simpl. repeat constructor.
  - vm_compute; reflexivity.
Qed.

Lemma cycle_cells_affinity : uns cycle_cells !! "W_pca" = Some (UnsSparse cycle_matrix).
Proof. apply lookup_singleton_eq. Qed.

(** X6 on the four cells, which have no affinity matrix for "rpca". *)
Lemma diffmap_missing_affinity_witness :
  diffmap zero_svd zero_eigsh (λ _, tt) lowest 3 "rpca" (1 / 2) "randomized" 0%Z
    (cycle_cells, no_buffer)
  = (Raise (ValueError "Affinity matrix does not exist. Please run neighbors first!"),
     (cycle_cells, no_buffer)).
Proof.
  refine (proj2 (diffmap_missing_affinity zero_svd zero_eigsh (λ _, tt) lowest
                   3 "rpca" (1 / 2) "randomized" 0%Z cycle_cells no_buffer) _).
  vm_compute; reflexivity.
Defined.

(** X7 on the same call. *)
Lemma diffmap_failure_leaves_container_witness :
  (diffmap zero_svd zero_eigsh (λ _, tt) lowest 3 "rpca" (1 / 2) "randomized" 0%Z
     (cycle_cells, no_buffer)).2.1 = cycle_cells.
Proof.
  apply (diffmap_failure_leaves_container zero_svd zero_eigsh (λ _, tt) lowest
           3 "rpca" (1 / 2) "randomized" 0%Z cycle_cells no_buffer
           (ValueError "Affinity matrix does not exist. Please run neighbors first!")).
  rewrite diffmap_unfold. vm_compute; reflexivity.
Defined.

(** X8 on the four cells of the cycle, with a solver that returns zeros. *)
Lemma diffmap_stores_coordinates_witness :
  ∃ Phi_pt Lambda data' σ',
    diffmap zero_svd zero_eigsh (λ _, tt) lowest 3 "pca" (1 / 2) "randomized" 0%Z
      (cycle_cells, no_buffer) = (Ok tt, (data', σ')) ∧
    obsm data' !! "X_diffmap" = Some Phi_pt ∧
    uns data' !! "diffmap_evals" = Some (UnsVector Lambda) ∧
    mshape Phi_pt 4 2 ∧ length Lambda = 2%nat ∧
    uns data' !! "W_pca" = Some (UnsSparse cycle_matrix).
Proof.
  destruct (diffmap_stores_coordinates zero_svd zero_eigsh (λ _, tt) lowest
              3 "pca" (1 / 2) "randomized" 0%Z cycle_cells no_buffer cycle_matrix)
    as (Phi & L & data' & σ' & H1 & H2 & H3 & H4 & H5 & _ & _ & _ & _ & H6 & _).
  - apply cycle_cells_affinity.
  - apply cycle_matrix_wf.
  - reflexivity.
  - apply cycle_matrix_connected.
  - reflexivity.
  - left. split; [done|]. apply zero_svd_returns.
  - by exists Phi, L, data', σ'.
Defined.

(** X10 on the four cells, with the cell "b" as the root. *)
Lemma diffmap_then_pseudotime_witness :
  ∃ data1 σ1 data2 v,
    diffmap zero_svd zero_eigsh (λ _, tt) lowest 3 "pca" (1 / 2) "randomized" 0%Z
      (cycle_cells, no_buffer) = (Ok tt, (data1, σ1)) ∧
    calc_pseudotime ["b"] data1 = (Ok tt, data2) ∧
    obs data2 !! "pseudotime" = Some (FloatColumn v) ∧ length v = 4%nat.
Proof.
  destruct (diffmap_then_pseudotime zero_svd zero_eigsh (λ _, tt) lowest
              3 "pca" (1 / 2) "randomized" 0%Z cycle_cells no_buffer cycle_matrix ["b"] "b")
    as (d1 & σ1 & d2 & v & H1 & H2 & H3 & H4 & _).
  - apply cycle_cells_affinity.
  - apply cycle_matrix_wf.
  - reflexivity.
  - apply cycle_matrix_connected.
  - reflexivity.
  - left. split; [done|]. apply zero_svd_returns.
  - lia.
  - simpl. set_solver.
  - set_solver.
  - by exists d1, σ1, d2, v.
Defined.

(** X9 on the four cells. *)
Lemma diffmap_again_changes_nothing_witness :
  ∃ data1 σ1 σ2,
    diffmap zero_svd zero_eigsh (λ _, tt) lowest 3 "pca" (1 / 2) "randomized" 0%Z
      (cycle_cells, no_buffer) = (Ok tt, (data1, σ1)) ∧
    diffmap zero_svd zero_eigsh (λ _, tt) lowest 3 "pca" (1 / 2) "randomized" 0%Z
      (data1, σ1) = (Ok tt, (data1, σ2)).
Proof.
  destruct (diffmap_returns zero_svd zero_eigsh (λ _, tt) lowest
              3 "pca" (1 / 2) "randomized" 0%Z cycle_cells no_buffer cycle_matrix)
    as (Phi & L & σ1 & _ & Hrun & _);
    [apply cycle_cells_affinity|apply cycle_matrix_wf|reflexivity
    |apply cycle_matrix_connected|reflexivity
    |left; split; [done|apply zero_svd_returns]|].
  destruct (diffmap_again_changes_nothing zero_svd zero_eigsh (λ _, tt) lowest
              3 "pca" (1 / 2) "randomized" 0%Z cycle_cells no_buffer cycle_matrix
              _ σ1 cycle_cells_affinity cycle_matrix_wf eq_refl Hrun) as [σ2 Hagain].
  by eexists _, σ1, σ2.
Defined.

Lemma three_cells_diffmap : obsm three_cells !! "X_diffmap" = Some [[0]; [1]; [3]].
Proof. apply lookup_singleton_eq. Qed.

Lemma three_cells_shape : mshape [[0]; [1]; [3]] (length (obs_names three_cells)) 1.
Proof. split; [done|]. by repeat constructor. Qed.



Lemma three_cells_pseudotime_returns roots :
  "a" ∈ roots →
  ∃ data', calc_pseudotime roots three_cells = (Ok tt, data').
Proof.
  intros Hroot.
  destruct (pseudotime_returns roots three_cells [[0]; [1]; [3]] 1 "a")
    as (dmin & dmax & _ & _ & Hrun);
    [apply three_cells_diffmap|apply three_cells_shape|lia|simpl; set_solver|done|].
  by eexists.
Qed.

(** X15 on the three cells. *)
Lemma pseudotime_last_call_wins_witness :
  ∃ data1 data2,
    calc_pseudotime ["a"] three_cells = (Ok tt, data1) ∧
    calc_pseudotime ["a"; "b"] three_cells = (Ok tt, data2) ∧
    calc_pseudotime ["a"; "b"] data1 = (Ok tt, data2).
Proof.
  destruct (three_cells_pseudotime_returns ["a"]) as [d1 H1]; [set_solver|].
  destruct (three_cells_pseudotime_returns ["a"; "b"]) as [d2 H2]; [set_solver|].
  exists d1, d2. split; [done|]. split; [done|].
  exact (pseudotime_last_call_wins ["a"] ["a"; "b"] three_cells d1 d2 H1 H2).
Defined.

(** X13 on the three cells, with the root "b", at 1. *)
Lemma pseudotime_single_root_witness :
  ∃ dmax data',
    calc_pseudotime ["b"] three_cells = (Ok tt, data') ∧
    np_max (map (euclidean_distance [1]) [[0]; [1]; [3]]) = Ok dmax ∧
    obs data' !! "pseudotime"
    = Some (FloatColumn (map (λ y, euclidean_distance [1] y / dmax) [[0]; [1]; [3]])) ∧
    Forall (λ y, 0 <= euclidean_distance [1] y <= dmax) [[0]; [1]; [3]] ∧
    (0 < dmax →
     map (λ y, euclidean_distance [1] y / dmax) [[0]; [1]; [3]] !! 1%nat = Some 0).
Proof.
  apply (pseudotime_single_root three_cells [[0]; [1]; [3]] 1 1 "b" [1]).
  - apply three_cells_diffmap.
  - apply three_cells_shape.
  - lia.
  - simpl. repeat constructor; set_solver.
  - reflexivity.
  - reflexivity.
Defined.

(** X14 on the three cells and on the four cells. *)
Lemma pseudotime_writes_two_slots_witness :
  obsm (calc_pseudotime ["b"] three_cells).2 = obsm three_cells ∧
  uns (calc_pseudotime ["b"] three_cells).2 !! "W_pca" = uns three_cells !! "W_pca" ∧
  (calc_pseudotime ["b"] cycle_cells).2 = cycle_cells.
Proof.
  destruct (pseudotime_writes_two_slots ["b"] three_cells) as (_ & H1 & _ & H2 & _).
  destruct (pseudotime_writes_two_slots ["b"] cycle_cells) as (_ & _ & _ & _ & H3).
  split; [exact H1|]. split; [by apply H2|]. apply H3. reflexivity.
Defined.

(** X16 on the three cells: "b" twice and a name that is no cell, or "b"
    alone. *)
Lemma pseudotime_depends_on_matching_roots_witness :
  (calc_pseudotime ["b"; "zz"; "b"] three_cells).1 = (calc_pseudotime ["b"] three_cells).1 ∧
  obs (calc_pseudotime ["b"; "zz"; "b"] three_cells).2
  = obs (calc_pseudotime ["b"] three_cells).2.
Proof.
  apply (pseudotime_depends_on_matching_roots ["b"; "zz"; "b"] ["b"] three_cells).
  intros n Hn. simpl in Hn. set_solver.
Defined.
End DriverExamples.

Section ClusteringExamples.

Lemma ten_cells_louvain :
  ∃ data',
    louvain vertex_count identity_module "pca" 1.3%R 0%Z "louvain_labels" ten_cells
    = (Ok tt, data').
Proof. eexists. vm_compute; reflexivity. Qed.

(** X18 on the ten cells. *)
Lemma clustering_again_changes_nothing_witness :
  ∃ data',
    louvain vertex_count identity_module "pca" 1.3%R 0%Z "louvain_labels" ten_cells
      = (Ok tt, data') ∧
    louvain vertex_count identity_module "pca" 1.3%R 0%Z "louvain_labels" data'
      = (Ok tt, data').
Proof.
  destruct ten_cells_louvain as [data' H]. exists data'. split; [exact H|].
  exact (proj1 (clustering_again_changes_nothing vertex_count identity_module
                  identity_module (λ z, z) kmeans_by_index "pca" 1.3%R (-1)%Z "diffmap"
                  2 3 10 1%Z 0%Z "louvain_labels" ten_cells data') H).
Defined.

(** X19 on the ten cells. *)
Lemma drivers_store_valid_categorical_witness :
  ∃ data' c,
    louvain vertex_count identity_module "pca" 1.3%R 0%Z "louvain_labels" ten_cells
      = (Ok tt, data') ∧
    obs data' !! "louvain_labels" = Some (CategoricalColumn c) ∧
    length (cat_values c) = 10 ∧
    Forall (λ v, v ∈ cat_categories c) (cat_values c) ∧
    NoDup (cat_categories c).
Proof.
  destruct ten_cells_louvain as [data' H].
  destruct (drivers_store_valid_categorical vertex_count identity_module
              identity_module (λ z, z) kmeans_by_index "pca" 1.3%R (-1)%Z "diffmap"
              2 3 10 1%Z 0%Z "louvain_labels" ten_cells data')
    as (c & H1 & H2 & H3 & _ & H4); [by left|].
  by exists data', c.
Defined.

(** X17 on the ten cells, two coarse clusters and at most three fine
    clusters in each. *)
Lemma kmeans_labels_bounded_witness :
  ∃ X, obsm ten_cells !! "X_pca" = Some X ∧
       Forall (λ l, l < 2 * 3 ∧ l < length X) [0; 1; 2; 3; 3; 3; 3; 3; 3; 3].
Proof.
  destruct (kmeans_labels_bounded (λ z, z) kmeans_by_index ten_cells "pca" 1%Z 2 3 10 0%Z
              [0; 1; 2; 3; 3; 3; 3; 3; 3; 3] kmeans_by_index_in_range)
    as (X & HX & _ & Hb).
  - vm_compute; reflexivity.
  - by exists X.
Defined.
End ClusteringExamples.

Section LastExamples.
Local Open Scope R_scope.

(** X20 on the cycle with its eigenpairs -1, 0 and 1: the eigenvalues that
    are returned are 0 and -1. *)
Lemma eigsh_pairs_stay_paired_witness :
  ∃ Phi_pt Lambda σ2,
    calculate_diffusion_map zero_svd cycle_eigsh (λ _, tt) lowest
      four_cycle 3 (1 / 2) "eigsh" 0%Z (one_buffer (repeat 2 8))
    = (Ok (Phi_pt, Lambda), σ2) ∧
    Lambda !! 0%nat = Some 0 ∧ Lambda !! 1%nat = Some (-1).
Proof.
  destruct (eigsh_pairs_stay_paired zero_svd cycle_eigsh (λ _, tt) lowest
              (one_buffer (repeat 2 8)) four_cycle 3 (1 / 2) 0%Z
              four_cycle_wf eq_refl four_cycle_connected cycle_eigsh_returns
              lowest_in_range)
    as (Wn & σ1 & values & vectors & Phi & L & σ2 & _ & Hsolve & Hrun & Hpairs).
  injection Hsolve as <- _.
  exists Phi, L, σ2. split; [exact Hrun|]. split.
  - destruct (Hpairs 0%nat ltac:(lia)) as [H _]. exact H.
  - destruct (Hpairs 1%nat ltac:(lia)) as [H _]. exact H.
Defined.
End LastExamples.

(** X21 on the ten cells, which have no affinity matrix for "rpca". *)
Lemma clustering_failure_leaves_container_witness :
  (louvain vertex_count identity_module "rpca" 1.3%R 0%Z "louvain_labels" ten_cells).2
  = ten_cells.
Proof.
  refine (proj1 (clustering_failure_leaves_container vertex_count identity_module
                   identity_module (λ z, z) kmeans_by_index "rpca" 1.3%R (-1)%Z "diffmap"
                   2 3 10 1%Z 0%Z "louvain_labels" ten_cells neighbors_error) _).
  vm_compute; reflexivity.
Defined.

(** X22 on the ten cells and two coarse clusters. *)
Lemma kmeans_one_fine_cluster_witness :
  partition_cells_by_kmeans (λ z, z) kmeans_by_index ten_cells "pca" 1%Z 2 1 10 0%Z
    = Ok [0; 1; 1; 1; 1; 1; 1; 1; 1; 1] ∧
  ∃ X coarse,
    obsm ten_cells !! "X_pca" = Some X ∧
    kmeans_by_index 2 1%Z 10 0%Z X = Ok coarse ∧
    length [0; 1; 1; 1; 1; 1; 1; 1; 1; 1] = length coarse.
Proof.
  assert (Hrun : partition_cells_by_kmeans (λ z, z) kmeans_by_index ten_cells "pca"
                   1%Z 2 1 10 0%Z = Ok [0; 1; 1; 1; 1; 1; 1; 1; 1; 1])
    by (vm_compute; reflexivity).
  split; [exact Hrun|].
  destruct (kmeans_one_fine_cluster (λ z, z) kmeans_by_index ten_cells "pca" 1%Z 2 10 0%Z
              [0; 1; 1; 1; 1; 1; 1; 1; 1; 1] kmeans_by_index_in_range Hrun)
    as (X & coarse & HX & Hc & Hlen & _).
  by exists X, coarse.
Defined.
